(** * btclib: elliptic curves over Fp (btclib/ec.py)

    A shallow embedding of [btclib/ec.py] and the properties its
    specification states about it.

    Python integers are unbounded, so they are [Z]; [%] and [//] on a
    positive modulus are [Z.modulo] and [Z.div] (both floor, like
    Python's).  Exceptions are an explicit error result: every function
    that can raise returns [result A]. *)

From Stdlib Require Import ZArith Lia List Bool String Ring Field.
From Stdlib Require Import Zdivisibility Zcong.
From Stdlib Require Import Zmod.Zmod.
From Stdlib Require Import Morphisms.
From AAC_tactics Require Import AAC.
Import ListNotations.
Local Open Scope Z_scope.

(** ** Exceptions *)

(** The Python exception classes raised by [ec.py] and its
    collaborators; [OverflowError] is the one of [math.sqrt] and of
    float arithmetic on an int that is out of the range of a float. *)
Inductive pyclass : Set := TypeError | ValueError | UserWarning | OverflowError.

(** One tag per [raise] statement: the message template. *)
Inductive errmsg : Set :=
| PNotOdd                (* "p (%X) is not odd" *)
| PNotPrime              (* "p (%X) is not prime" *)
| BadSecurityLevel       (* "required security level (%s) not in the allowed range" *)
| NotEnoughBits          (* "not enough bits (%s) for required security level %s" *)
| InvalidA               (* "invalid a (%X) for the given p (%X)" *)
| InvalidB               (* "invalid b (%X) for the given p (%X)" *)
| ZeroDiscriminant       (* "zero discriminant" *)
| GeneratorNotPair       (* "Generator must a be a Tuple[int, int]" *)
| GeneratorNotOnCurve    (* "Generator is not on the 'x^3 + a*x + b' curve" *)
| NNotPrime              (* "n (%X) is not prime" *)
| NNotInHasse            (* "n (%X) not in [p+1 - delta, p+1 + delta]" *)
| CofactorMismatch       (* "h (%s) not as expected (%s)" *)
| CofactorTooBig         (* "h (%s) too big for t (%s)" *)
| NNotGroupOrder         (* "n (%X) is not the group order" *)
| NEqualsP               (* "n=p -> weak curve" *)
| WeakCurve              (* "weak curve" *)
| PointNotTuple          (* "Point must be a tuple, not '%s'" *)
| PointNotPair           (* "Point must be a tuple[int, int]" *)
| YNotInRange            (* "y-coordinate %X not in (0, p)" *)
| XNotInRange            (* "x-coordinate %X not in [0, p-1]" *)
| PointNotOnCurve        (* "Point not on curve" *)
| FlagNotBool            (* "... must be bool or 0/1" *)
| PNotThreeModFour       (* "this method works only when p = 3 (mod 4)" *)
| NoInverse              (* mod_inv: no inverse *)
| FloatOverflow          (* "int too large to convert to float" *)
| NoSquareRoot.          (* mod_sqrt: no root *)

Definition exn : Set := (pyclass * errmsg)%type.

Inductive result (A : Type) : Type :=
| Ok (a : A)
| Raise (e : exn).
Arguments Ok {A} a.
Arguments Raise {A} e.

Definition bind {A B : Type} (m : result A) (k : A -> result B) : result B :=
  match m with
  | Ok a => k a
  | Raise e => Raise e
  end.

Notation "x <- m ;; k" := (bind m (fun x => k))
  (at level 61, m at next level, right associativity).
Notation "m ;;; k" := (bind m (fun _ => k))
  (at level 61, right associativity).

(** [if c: raise e] *)
Definition raise_if (c : bool) (e : exn) : result unit :=
  if c then Raise e else Ok tt.

(** ** Python integer helpers *)

(** [int.bit_length()] *)
Definition bit_length (k : Z) : Z :=
  if k =? 0 then 0 else Z.log2 (Z.abs k) + 1.

(** Three-argument [pow(b, e, m)] for a non-negative exponent.  With a
    negative exponent Python either raises [ValueError] or works with
    the inverse of [b]; [ec.py] only reaches that case in the Fermat
    test of a non-positive [p], which fails either way, as it does
    here ([b ^ e] is [0] for negative [e]). *)
Definition pow_mod (b e m : Z) : Z := (b ^ e) mod m.

(** ** btclib.numbertheory *)

(** Modelled from the spec: [mod_inv(a, m)] of [btclib/numbertheory.py],
    which is not among the sources: "extended Euclidean; fails with
    InvalidInput if gcd(a, m) <> 1".  The inverse is the Bezout
    coefficient of [Z.extgcd] reduced into [[0, m)] ([Z.invmod]). *)
Definition mod_inv (a m : Z) : result Z :=
  if Z.gcd a m =? 1 then Ok (Z.invmod a m) else Raise (ValueError, NoInverse).

(** Modelled from the spec: [legendre_symbol(a, p) = a^((p-1)/2) mod p],
    with values in {0, 1, p-1}. *)
Definition legendre_symbol (a p : Z) : Z := pow_mod a ((p - 1) / 2) p.

(** Modelled from the spec: the general (Tonelli-Shanks) branch of
    [mod_sqrt], of which the specification only fixes the contract: it
    returns a "canonical non-negative root" and "fails with NoSquareRoot
    when a is a non-residue".  The algorithm is an interface here and
    every property that goes through it holds for each implementation
    of the contract. *)
Class TonelliShanks : Type := {
  tonelli_shanks : Z -> Z -> result Z;
  tonelli_shanks_sound : forall a p r,
    tonelli_shanks a p = Ok r -> 0 <= r < p /\ (r * r) mod p = a mod p;
  tonelli_shanks_complete : forall a p r,
    Z.prime p -> (r * r) mod p = a mod p ->
    exists r', tonelli_shanks a p = Ok r';
  tonelli_shanks_raises : forall a p e,
    tonelli_shanks a p = Raise e -> e = (ValueError, NoSquareRoot)
}.

(** Modelled from the spec: [mod_sqrt(a, p)]: "Fast path when p = 3
    (mod 4): return a^((p+1)/4) mod p; verify by squaring.  Fails with
    NoSquareRoot when a is a non-residue"; Tonelli-Shanks otherwise. *)
Definition mod_sqrt {TS : TonelliShanks} (a p : Z) : result Z :=
  if p mod 4 =? 3 then
    let x := pow_mod a ((p + 1) / 4) p in
    if (x * x) mod p =? a mod p then Ok x
    else Raise (ValueError, NoSquareRoot)
  else tonelli_shanks a p.

(** ** math.sqrt *)

(** The constructor uses floating point twice: [int(2 * sqrt(p))] and
    [int(pow(sqrt(p) + 1, 2) // n)].  Both are an interface of the
    model: what they return depends on the rounding of the floats, and
    they raise [OverflowError] when an int operand is out of the range
    of a float.  [exact_float] below instantiates them with the exact
    real values. *)
Class PyFloat : Type := {
  hasse_delta : Z -> result Z;          (* int(2 * sqrt(p)) *)
  expected_cofactor : Z -> Z -> result Z  (* int(pow(sqrt(p) + 1, 2) // n) *)
}.

(** ** Points *)

(** [class Point(NamedTuple)]: [x: int = 1], [y: int = 0]. *)
Record Point : Set := mkPoint { px : Z; py : Z }.

(** [Point()], the canonical point at infinity. *)
Definition Point_default : Point := mkPoint 1 0.

(** [class _JacPoint(NamedTuple)]: [x = 1], [y = 1], [z = 0]. *)
Record _JacPoint : Set := mkJac { jx : Z; jy : Z; jz : Z }.

(** [_JacPoint()] *)
Definition _JacPoint_default : _JacPoint := mkJac 1 1 0.

Definition Point_eqb (Q R : Point) : bool :=
  (px Q =? px R) && (py Q =? py R).

Definition _JacPoint_eqb (Q R : _JacPoint) : bool :=
  (jx Q =? jx R) && (jy Q =? jy R) && (jz Q =? jz R).

(** What a duck-typed argument can be at run time: a tuple of integers
    (a [Point] is one, with two items) or a value of another type. *)
Inductive pyobj : Set :=
| PyTuple (items : list Z)
| PyOther (type_name : string).

Definition tuple_of (Q : Point) : pyobj := PyTuple [px Q; py Q].

Definition _jac_from_aff (Q : Point) : _JacPoint :=
  if py Q =? 0 then _JacPoint_default
  else mkJac (px Q) (py Q) 1.

(** ** The curve *)

(** The attributes [__init__] sets. *)
Record EC : Set := mkEC {
  _p : Z;
  _a : Z;
  _b : Z;
  ec_G : Point;
  ec_n : Z;
  ec_h : Z;
  ec_t : Z;
  bytesize : Z;
  pIsThreeModFour : bool
}.

(** ** Methods of [class EC] *)

Module EC.

(** [_y2]: the right-hand side of the curve equation, [x] unchecked. *)
Definition _y2 (ec : EC) (x : Z) : Z :=
  ((x * x + _a ec) * x + _b ec) mod _p ec.

Definition isOnCurve (ec : EC) (Q : pyobj) : result bool :=
  match Q with
  | PyOther _ => Raise (TypeError, PointNotTuple)
  | PyTuple items =>
      raise_if (negb (Nat.eqb (List.length items) 2)) (ValueError, PointNotPair) ;;;
      let Q0 := nth 0 items 0 in
      let Q1 := nth 1 items 0 in
      if Q1 =? 0 then Ok true
      else
        raise_if (negb ((0 <? Q1) && (Q1 <? _p ec))) (ValueError, YNotInRange) ;;;
        Ok (_y2 ec Q0 =? (Q1 * Q1) mod _p ec)
  end.

Definition requireOnCurve (ec : EC) (Q : Point) : result unit :=
  on <- isOnCurve ec (tuple_of Q) ;;
  raise_if (negb on) (ValueError, PointNotOnCurve).

Definition opposite (ec : EC) (Q : Point) : result Point :=
  requireOnCurve ec Q ;;;
  if py Q =? 0 then Ok Q
  else Ok (mkPoint (px Q) (_p ec - py Q)).

Definition _affine_from_jac (ec : EC) (Q : _JacPoint) : result Point :=
  if jz Q =? 0 then Ok Point_default
  else
    let Z2 := jz Q * jz Q in
    i2 <- mod_inv Z2 (_p ec) ;;
    let x := (jx Q * i2) mod _p ec in
    i3 <- mod_inv (Z2 * jz Q) (_p ec) ;;
    let y := (jy Q * i3) mod _p ec in
    Ok (mkPoint x y).

Definition _addJacobian (ec : EC) (Q R : _JacPoint) : _JacPoint :=
  if jz Q =? 0 then R
  else if jz R =? 0 then Q
  else
    let RZ2 := jz R * jz R in
    let RZ3 := RZ2 * jz R in
    let QZ2 := jz Q * jz Q in
    let QZ3 := QZ2 * jz Q in
    if (jx Q * RZ2) mod _p ec =? (jx R * QZ2) mod _p ec then
      if (jy Q * RZ3) mod _p ec =? (jy R * QZ3) mod _p ec then
        let QY2 := jy Q * jy Q in
        let W := (3 * jx Q * jx Q + _a ec * QZ2 * QZ2) mod _p ec in
        let V := (4 * jx Q * QY2) mod _p ec in
        let X := (W * W - 2 * V) mod _p ec in
        let Y := (W * (V - X) - 8 * QY2 * QY2) mod _p ec in
        let Z := (2 * jy Q * jz Q) mod _p ec in
        mkJac X Y Z
      else _JacPoint_default
    else
      let T := (jy Q * RZ3) mod _p ec in
      let U := (jy R * QZ3) mod _p ec in
      let W := (U - T) mod _p ec in
      let M := (jx Q * RZ2) mod _p ec in
      let N := (jx R * QZ2) mod _p ec in
      let V := (N - M) mod _p ec in
      let V2 := V * V in
      let V3 := V2 * V in
      let MV2 := M * V2 in
      let X := (W * W - V3 - 2 * MV2) mod _p ec in
      let Y := (W * (MV2 - X) - T * V3) mod _p ec in
      let Z := (V * jz Q * jz R) mod _p ec in
      mkJac X Y Z.

Definition _addAffine (ec : EC) (Q R : Point) : result Point :=
  if py R =? 0 then Ok Q
  else if py Q =? 0 then Ok R
  else
    (* the last three lines of the method, once [lam] is known *)
    let chord (lam : Z) : Point :=
      let x := (lam * lam - px Q - px R) mod _p ec in
      let y := (lam * (px Q - x) - py Q) mod _p ec in
      mkPoint x y in
    if px R =? px Q then
      if py R =? py Q then
        i <- mod_inv (2 * py Q) (_p ec) ;;
        Ok (chord (((3 * px Q * px Q + _a ec) * i) mod _p ec))
      else Ok Point_default
    else
      i <- mod_inv (px R - px Q) (_p ec) ;;
      Ok (chord (((py R - py Q) * i) mod _p ec)).

Definition add (ec : EC) (Q1 Q2 : Point) : result Point :=
  requireOnCurve ec Q1 ;;;
  requireOnCurve ec Q2 ;;;
  let QJ1 := _jac_from_aff Q1 in
  let QJ2 := _jac_from_aff Q2 in
  let R := _addJacobian ec QJ1 QJ2 in
  _affine_from_jac ec R.

Definition y {TS : TonelliShanks} (ec : EC) (x : Z) : result Z :=
  raise_if (negb ((0 <=? x) && (x <? _p ec))) (ValueError, XNotInRange) ;;;
  let y2 := _y2 ec x in
  mod_sqrt y2 (_p ec).

(** [flag not in (0, 1)] *)
Definition not_in_0_1 (flag : Z) : bool :=
  negb ((flag =? 0) || (flag =? 1)).

Definition yOdd {TS : TonelliShanks} (ec : EC) (x odd1even0 : Z) : result Z :=
  raise_if (not_in_0_1 odd1even0) (ValueError, FlagNotBool) ;;;
  root <- y ec x ;;
  Ok (if root mod 2 =? odd1even0 then root else _p ec - root).

Definition yHigh {TS : TonelliShanks} (ec : EC) (x high1low0 : Z) : result Z :=
  raise_if (not_in_0_1 high1low0) (ValueError, FlagNotBool) ;;;
  root <- y ec x ;;
  Ok (if Z.b2z (_p ec / 2 <? root) =? high1low0 then root
      else _p ec - root).

Definition yQuadraticResidue {TS : TonelliShanks} (ec : EC) (x quadRes : Z)
  : result Z :=
  raise_if (not_in_0_1 quadRes) (ValueError, FlagNotBool) ;;;
  raise_if (negb (pIsThreeModFour ec)) (ValueError, PNotThreeModFour) ;;;
  root <- y ec x ;;
  let legendre1 := legendre_symbol root (_p ec) in
  Ok (if legendre1 =? quadRes then root else _p ec - root).

End EC.

(** ** Scalar multiplication *)

(** The loop of [_pointMultJacobian], [while n > 0], by recursion on the
    binary representation of [n]: [n & 1] is the last digit ([xI] or
    [xH]) and [n >> 1] the remaining digits.  After the last digit the
    source doubles [Q] once more and leaves the loop; [_addJacobian]
    cannot raise, so that doubling is not observable. *)
Fixpoint _pointMultJacobian_loop (ec : EC) (n : positive) (R Q : _JacPoint)
  : _JacPoint :=
  match n with
  | xH => EC._addJacobian ec R Q
  | xO n' => _pointMultJacobian_loop ec n' R (EC._addJacobian ec Q Q)
  | xI n' =>
      _pointMultJacobian_loop ec n' (EC._addJacobian ec R Q)
        (EC._addJacobian ec Q Q)
  end.

Definition _pointMultJacobian (ec : EC) (n : Z) (Q : _JacPoint) : _JacPoint :=
  if jz Q =? 0 then _JacPoint_default
  else
    match n with
    | Zpos k => _pointMultJacobian_loop ec k _JacPoint_default Q
    | _ => _JacPoint_default
    end.

Definition pointMult (ec : EC) (n : Z) (Q : Point) : result Point :=
  EC.requireOnCurve ec Q ;;;
  let QJ := _jac_from_aff Q in
  let n := n mod ec_n ec in
  let R := _pointMultJacobian ec n QJ in
  EC._affine_from_jac ec R.

(** The loop of [DblScalarMult], [while msb > 0], by recursion on [msb]:
    the argument [m] is [msb - 1]. *)
Fixpoint DblScalarMult_loop (ec : EC) (QJ PJ : _JacPoint) (msb : nat)
  (u v : Z) (R : _JacPoint) : _JacPoint :=
  match msb with
  | O => R
  | S m =>
      let '(R, u) :=
        if Z.shiftr u (Z.of_nat m) =? 0 then (R, u)
        else (EC._addJacobian ec R QJ, u - 2 ^ (bit_length u - 1)) in
      let '(R, v) :=
        if Z.shiftr v (Z.of_nat m) =? 0 then (R, v)
        else (EC._addJacobian ec R PJ, v - 2 ^ (bit_length v - 1)) in
      let R := if (1 <? Z.of_nat msb) then EC._addJacobian ec R R else R in
      DblScalarMult_loop ec QJ PJ m u v R
  end.

Definition DblScalarMult (ec : EC) (u : Z) (Q : Point) (v : Z) (P : Point)
  : result Point :=
  if u =? 0 then
    if v =? 0 then Ok Point_default
    else
      EC.requireOnCurve ec P ;;;
      let PJ := _jac_from_aff P in
      let v := v mod ec_n ec in
      let R := _pointMultJacobian ec v PJ in
      EC._affine_from_jac ec R
  else
    EC.requireOnCurve ec Q ;;;
    if py Q =? 0 then
      EC.requireOnCurve ec P ;;;
      let PJ := _jac_from_aff P in
      let v := v mod ec_n ec in
      let R := _pointMultJacobian ec v PJ in
      EC._affine_from_jac ec R
    else
      let u := u mod ec_n ec in
      let QJ := _jac_from_aff Q in
      if v =? 0 then
        let R := _pointMultJacobian ec u QJ in
        EC._affine_from_jac ec R
      else
        EC.requireOnCurve ec P ;;;
        if py P =? 0 then
          let R := _pointMultJacobian ec u QJ in
          EC._affine_from_jac ec R
        else
          let v := v mod ec_n ec in
          let PJ := _jac_from_aff P in
          let R := _JacPoint_default in
          let msb := Z.max (bit_length u) (bit_length v) in
          let R := DblScalarMult_loop ec QJ PJ (Z.to_nat msb) u v R in
          EC._affine_from_jac ec R.

(** ** [EC.__init__] *)

Definition t_range : list Z := [80; 96; 112; 128; 192; 256].

(** [required_bits = {80:192, 96:192, 112:224, 128:256, 192:384, 256:521}] *)
Definition required_bits : list (Z * Z) :=
  [(80, 192); (96, 192); (112, 224); (128, 256); (192, 384); (256, 521)].

(** [required_bits[t]]; the source only looks up a [t] of [t_range], so
    the default is never used. *)
Definition required_bits_get (t : Z) : Z :=
  match find (fun kv => fst kv =? t) required_bits with
  | Some kv => snd kv
  | None => 0
  end.

(** [range(lo, hi)] *)
Definition range (lo hi : Z) : list Z :=
  map (fun i => lo + Z.of_nat i) (seq 0 (Z.to_nat (hi - lo))).

(** The constructor: the checks of SEC 1 v.2 3.1.1.2.1 in the order of
    the source; the first failing one raises.  [G] is the tuple the
    caller passes, whose length the constructor checks itself. *)
Definition EC__init__ {FL : PyFloat} (p a b : Z) (G : list Z) (n h t : Z)
  (all_checks : bool) : result EC :=
  (* 1) check that p is an odd prime *)
  raise_if (p mod 2 =? 0) (ValueError, PNotOdd) ;;;
  raise_if (negb (pow_mod 2 (p - 1) p =? 1)) (ValueError, PNotPrime) ;;;
  (* 1) check that p has enough bits *)
  let plen := bit_length p in
  (if negb (t =? 0) && all_checks then
     raise_if (negb (existsb (Z.eqb t) t_range))
       (UserWarning, BadSecurityLevel) ;;;
     raise_if (negb (plen =? required_bits_get t))
       (UserWarning, NotEnoughBits)
   else Ok tt) ;;;
  (* 2. check that a and b are integers in the interval [0, p-1] *)
  raise_if (negb ((0 <=? a) && (a <? p))) (ValueError, InvalidA) ;;;
  raise_if (negb ((0 <=? b) && (b <? p))) (ValueError, InvalidB) ;;;
  (* 3. Check that 4*a^3 + 27*b^2 <> 0 (mod p) *)
  let d := 4 * a * a * a + 27 * b * b in
  raise_if (d mod p =? 0) (ValueError, ZeroDiscriminant) ;;;
  (* 4. Check that yG^2 = xG^3 + a*xG + b (mod p) *)
  raise_if (negb (Nat.eqb (List.length G) 2)) (ValueError, GeneratorNotPair) ;;;
  let self :=
    mkEC p a b (mkPoint (nth 0 G 0) (nth 1 G 0)) n h t
      ((plen + 7) / 8) (p mod 4 =? 3) in
  on <- EC.isOnCurve self (PyTuple G) ;;
  raise_if (negb on) (ValueError, GeneratorNotOnCurve) ;;;
  (* 5. Check that n is prime *)
  raise_if ((n <? 2) || ((2 <? n) && negb (pow_mod 2 (n - 1) n =? 1)))
    (ValueError, NNotPrime) ;;;
  (* also check n with Hasse Theorem *)
  (if all_checks then
     delta <- hasse_delta p ;;
     raise_if (negb ((p + 1 - delta <=? n) && (n <=? p + 1 + delta)))
       (ValueError, NNotInHasse)
   else Ok tt) ;;;
  (* 6. Check cofactor *)
  exp_h <- expected_cofactor p n ;;
  raise_if (negb (h =? exp_h)) (ValueError, CofactorMismatch) ;;;
  raise_if (all_checks && negb (t =? 0) && (2 ^ (t / 8) <? h))
    (ValueError, CofactorTooBig) ;;;
  (* 7. Check that nG = Inf *)
  InfMinusG <- pointMult self (n - 1) (ec_G self) ;;
  Inf <- EC.add self InfMinusG (ec_G self) ;;
  raise_if (negb (py Inf =? 0)) (ValueError, NNotGroupOrder) ;;;
  (* 8. Check that n <> p *)
  raise_if (n =? p) (UserWarning, NEqualsP) ;;;
  (if all_checks then
     (* 8. Check that p^i % n <> 1 for all 1 <= i < 100 *)
     raise_if (existsb (fun i => pow_mod p i n =? 1) (range 1 100))
       (UserWarning, WeakCurve)
   else Ok tt) ;;;
  Ok self.

(** ** Reference instances of the two interfaces *)

(** The conversion of a positive int to a float, as [sqrt(p)] and
    [... // n] make it: the ints from [2^1024 - 2^970] on round to a
    value beyond the largest float and raise [OverflowError]. *)
Definition float_of_int (k : Z) : result Z :=
  if 2 ^ 1024 - 2 ^ 970 <=? k then Raise (OverflowError, FloatOverflow)
  else Ok k.

(** The floating point results at their exact real values, for the
    operands that convert to a float:
    [floor (2 sqrt p) = floor (sqrt (4 p))] and
    [floor ((sqrt p + 1)^2 / n) = floor ((p + 1 + floor (2 sqrt p)) / n)]. *)
Definition exact_float : PyFloat :=
  {| hasse_delta := fun p =>
       p' <- float_of_int p ;; Ok (Z.sqrt (4 * p'));
     expected_cofactor := fun p n =>
       p' <- float_of_int p ;;
       n' <- float_of_int n ;;
       Ok ((p' + 1 + Z.sqrt (4 * p')) / n') |}.

(** A square root by search, the smallest root in [[0, p)]: the simplest
    function with the contract of [TonelliShanks]. *)
Definition search_sqrt (a p : Z) : result Z :=
  match find (fun r => (r * r) mod p =? a mod p) (range 0 p) with
  | Some r => Ok r
  | None => Raise (ValueError, NoSquareRoot)
  end.

(** ** Vocabulary of the specification *)

Definition is_ok {A : Type} (r : result A) : bool :=
  match r with Ok _ => true | Raise _ => false end.

(** The exception class of a result, if it is one. *)
Definition raised_class {A : Type} (r : result A) : option pyclass :=
  match r with Ok _ => None | Raise e => Some (fst e) end.

(** "The argument has exactly two coordinates": a tuple of length two. *)
Definition two_coordinates (Q : pyobj) : bool :=
  match Q with
  | PyTuple items => Nat.eqb (List.length items) 2
  | PyOther _ => false
  end.

(** The attributes of the curve [__init__] builds from its arguments. *)
Definition EC_attributes (p a b : Z) (G : list Z) (n h t : Z) : EC :=
  mkEC p a b (mkPoint (nth 0 G 0) (nth 1 G 0)) n h t
    ((bit_length p + 7) / 8) (p mod 4 =? 3).

(** The probabilistic primality test of the constructor (Fermat, base 2). *)
Definition fermat_test (k : Z) : bool := pow_mod 2 (k - 1) k =? 1.

(** The constructor checks the specification lists as remaining with
    [all_checks = false], each as a boolean, in the specification's
    words. *)
Definition check_p_odd_prime (p : Z) : bool :=
  negb (p mod 2 =? 0) && fermat_test p.

Definition check_a_b_in_range (p a b : Z) : bool :=
  ((0 <=? a) && (a <? p)) && ((0 <=? b) && (b <? p)).

Definition check_discriminant (p a b : Z) : bool :=
  negb ((4 * a * a * a + 27 * b * b) mod p =? 0).

Definition check_G_on_curve (self : EC) (G : list Z) : bool :=
  Nat.eqb (List.length G) 2 &&
  match EC.isOnCurve self (PyTuple G) with
  | Ok on => on
  | Raise _ => false
  end.

Definition check_n_prime (n : Z) : bool :=
  (2 <=? n) && ((n =? 2) || fermat_test n).

(** The expected cofactor is computed, which fails when [sqrt(p)]
    overflows, and [h] is equal to it. *)
Definition check_cofactor {FL : PyFloat} (p n h : Z) : bool :=
  match expected_cofactor p n with
  | Ok exp_h => h =? exp_h
  | Raise _ => false
  end.

(** (n-1) G + G = infinity *)
Definition check_order (self : EC) : bool :=
  match (InfMinusG <- pointMult self (ec_n self - 1) (ec_G self) ;;
         EC.add self InfMinusG (ec_G self)) with
  | Ok Inf => py Inf =? 0
  | Raise _ => false
  end.

Definition check_n_not_p (p n : Z) : bool := negb (n =? p).

Definition remaining_checks {FL : PyFloat} (p a b : Z) (G : list Z) (n h t : Z)
  : bool :=
  let self := EC_attributes p a b G n h t in
  check_p_odd_prime p && check_a_b_in_range p a b &&
  check_discriminant p a b && check_G_on_curve self G &&
  check_n_prime n && check_cofactor p n h && check_order self &&
  check_n_not_p p n.

(** The checks the specification lists as skipped. *)
Definition check_security_level (p t : Z) : bool :=
  (t =? 0) ||
  (existsb (Z.eqb t) t_range && (bit_length p =? required_bits_get t)).

Definition check_cofactor_size (h t : Z) : bool :=
  (t =? 0) || (h <=? 2 ^ (t / 8)).

Definition check_hasse {FL : PyFloat} (p n : Z) : bool :=
  match hasse_delta p with
  | Ok delta => (p + 1 - delta <=? n) && (n <=? p + 1 + delta)
  | Raise _ => false
  end.

Definition check_p_i (p n : Z) : bool :=
  forallb (fun i => negb (pow_mod p i n =? 1)) (range 1 100).

Definition skipped_checks {FL : PyFloat} (p n h t : Z) : bool :=
  check_security_level p t && check_cofactor_size h t &&
  check_hasse p n && check_p_i p n.

(** Small curves used as concrete inputs.  [y^2 = x^3 + 1] over [F_11]:
    12 points, among them [(10, 0)] of order two and [(5, 4)] of order
    four; the generator [(0, 1)] has order 3. *)
Definition ec11 : EC := EC_attributes 11 0 1 [0; 1] 3 6 0.

(** [y^2 = x^3 + 3] over [F_7]: 13 points, a group of prime order
    generated by [(1, 2)], cofactor 1. *)
Definition ec7 : EC := EC_attributes 7 0 3 [1; 2] 13 1 0.

(** [y^2 = x^3 + x] over [F_3]: 4 points, and [(2, 1)] has order 4. *)
Definition ec3 : EC := EC_attributes 3 1 0 [2; 1] 2 3 0.

(** "Treating Legendre value p-1 as 0 for the comparison". *)
Definition legendre_flag (l p : Z) : Z := if l =? p - 1 then 0 else l.

(** [a] is a square modulo [p]: [mod_sqrt] has a root to return. *)
Definition quadratic_residue (a p : Z) : Prop :=
  exists r, (r * r) mod p = a mod p.

(** The cached attribute [pIsThreeModFour] says what it was set to. *)
Definition flag_cached (ec : EC) : Prop :=
  pIsThreeModFour ec = (_p ec mod 4 =? 3).

(** A finite point of the curve in the representation of the data
    model: coordinates in [[0, p)], y <> 0, on the curve. *)
Definition finite_point (ec : EC) (P : Point) : Prop :=
  0 <= px P < _p ec /\ 0 < py P < _p ec /\
  EC._y2 ec (px P) = (py P * py P) mod _p ec.

(** A point of the curve in canonical form: [Point()] or a finite
    point. *)
Definition curve_point (ec : EC) (P : Point) : Prop :=
  P = Point_default \/ finite_point ec P.

(** The canonical form of a point [isOnCurve] accepts: infinity becomes
    [Point()], x is reduced. *)
Definition canonical (ec : EC) (Q : Point) : Point :=
  if py Q =? 0 then Point_default else mkPoint (px Q mod _p ec) (py Q).

(** The Jacobian point [J] stands for the affine pair [P]: [Z = 0] for
    [Point()], else [X = x Z^2] and [Y = y Z^3] modulo p with [Z] and
    the pair reduced. *)
Definition jac_repr_weak (ec : EC) (J : _JacPoint) (P : Point) : Prop :=
  (jz J = 0 /\ P = Point_default) \/
  (0 < jz J < _p ec /\ 0 <= px P < _p ec /\ 0 <= py P < _p ec /\
   jx J mod _p ec = (px P * (jz J * jz J)) mod _p ec /\
   jy J mod _p ec = (py P * (jz J * jz J * jz J)) mod _p ec).

(** The same, for a pair that the affine functions read as what it is:
    y = 0 only for [Point()]. *)
Definition jac_repr (ec : EC) (J : _JacPoint) (P : Point) : Prop :=
  jac_repr_weak ec J P /\ (py P = 0 -> jz J = 0).

(** No point of the curve has y = 0: x^3 + a x + b has no root. *)
Definition no_order_two (ec : EC) : Prop :=
  forall x, EC._y2 ec x <> 0.

(** A Jacobian point of the curve: it stands for a canonical point. *)
Definition jac_curve_point (ec : EC) (J : _JacPoint) : Prop :=
  exists P, jac_repr ec J P /\ curve_point ec P.

(** The cases in which [_addAffine] answers for the point at infinity
    without a chord or a tangent: both arguments are infinity, or they
    are finite with the same x and different y. *)
Definition affine_sum_infinite (Q R : Point) : bool :=
  if py R =? 0 then py Q =? 0
  else if py Q =? 0 then false
  else (px R =? px Q) && negb (py R =? py Q).

(** ** The two scalar multiplication loops over an abstract group

    [G] with [op] and [e] is any type with a binary operation and a
    distinguished element; the loops below are the loops of
    [_pointMultJacobian] and [DblScalarMult] with [op] for
    [_addJacobian]. *)
Section AbstractLoops.
Context {G : Type} (op : G -> G -> G) (e : G).

(** k a, as a sum of k copies of a. *)
Fixpoint nmul (k : nat) (a : G) : G :=
  match k with
  | O => e
  | S k' => op a (nmul k' a)
  end.

Fixpoint double_and_add (n : positive) (r d : G) : G :=
  match n with
  | xH => op r d
  | xO n' => double_and_add n' r (op d d)
  | xI n' => double_and_add n' (op r d) (op d d)
  end.

Fixpoint shamir (q p : G) (msb : nat) (u v : Z) (r : G) : G :=
  match msb with
  | O => r
  | S m =>
      let '(r, u) :=
        if Z.shiftr u (Z.of_nat m) =? 0 then (r, u)
        else (op r q, u - 2 ^ (bit_length u - 1)) in
      let '(r, v) :=
        if Z.shiftr v (Z.of_nat m) =? 0 then (r, v)
        else (op r p, v - 2 ^ (bit_length v - 1)) in
      let r := if (1 <? Z.of_nat msb) then op r r else r in
      shamir q p m u v r
  end.

(** What the accumulator of Shamir's loop weighs when [msb] bits are
    left: 2^(msb - 1), the doubling after the last bit being skipped. *)
Definition lead (msb : nat) (r : G) : G :=
  match msb with
  | O => r
  | S m => nmul (Z.to_nat (2 ^ Z.of_nat m)) r
  end.

End AbstractLoops.

(** ** The affine law as an operation on the points of the curve *)

(** [_addAffine] as a total function; it does not raise on points of a
    curve over a prime field. *)
Definition affine_sum (ec : EC) (A B : Point) : Point :=
  match EC._addAffine ec A B with
  | Ok C => C
  | Raise _ => Point_default
  end.

(** [curve_point] as a boolean, and the points of the curve as a type. *)
Definition is_curve_point (ec : EC) (P : Point) : bool :=
  Point_eqb P Point_default ||
  (((0 <=? px P) && (px P <? _p ec)) && ((0 <? py P) && (py P <? _p ec)) &&
   (EC._y2 ec (px P) =? (py P * py P) mod _p ec)).

Definition CurvePoint (ec : EC) : Type :=
  {P : Point | is_curve_point ec P = true}.

(** A pair as a point of the curve: itself when it is one, else
    [Point()]. *)
Definition cp_of (ec : EC) (P : Point) : CurvePoint ec :=
  match is_curve_point ec P as b
        return is_curve_point ec P = b -> CurvePoint ec with
  | true => fun H => exist _ P H
  | false => fun _ => exist _ Point_default eq_refl
  end eq_refl.

Definition cp_zero (ec : EC) : CurvePoint ec := exist _ Point_default eq_refl.

(** The affine law on the points of the curve. *)
Definition cp_add (ec : EC) (A B : CurvePoint ec) : CurvePoint ec :=
  cp_of ec (affine_sum ec (proj1_sig A) (proj1_sig B)).

(** The Jacobian point [J] stands for the point [A] of the curve. *)
Definition cp_repr (ec : EC) (J : _JacPoint) (A : CurvePoint ec) : Prop :=
  jac_repr ec J (proj1_sig A).

(** ** The chord-and-tangent law over the field [Zmod p] *)

Definition fpoint (p : Z) : Type := option (Zmod p * Zmod p).

(** The third point of the line of slope [l] through (x1, y1) and a
    point of abscissa x2, reflected. *)
Definition fchord {p : Z} (l x1 y1 x2 : Zmod p) : fpoint p :=
  let x := (l * l - x1 - x2)%Zmod in
  Some (x, (l * (x1 - x) - y1)%Zmod).

Definition fadd {p : Z} (a : Zmod p) (P Q : fpoint p) : fpoint p :=
  match P, Q with
  | None, _ => Q
  | _, None => P
  | Some (x1, y1), Some (x2, y2) =>
      if Zmod.eqb x2 x1 then
        if Zmod.eqb y2 y1 then
          fchord (Zmod.mdiv (Zmod.of_Z p 3 * x1 * x1 + a) (Zmod.of_Z p 2 * y1))
            x1 y1 x1
        else None
      else fchord (Zmod.mdiv (y2 - y1) (x2 - x1)) x1 y1 x2
  end.

Definition fopp {p : Z} (P : fpoint p) : fpoint p :=
  match P with
  | None => None
  | Some (x, y) => Some (x, (- y)%Zmod)
  end.

(** On the curve y^2 = x^3 + a x + b. *)
Definition fon {p : Z} (a b : Zmod p) (P : fpoint p) : Prop :=
  match P with
  | None => True
  | Some (x, y) => (y * y = x * x * x + a * x + b)%Zmod
  end.

(** A point of the curve as a point over the field: [Point()] and
    every pair with y = 0 is infinity. *)
Definition emb (ec : EC) (P : Point) : fpoint (_p ec) :=
  if py P =? 0 then None
  else Some (Zmod.of_Z (_p ec) (px P), Zmod.of_Z (_p ec) (py P)).

(** ** The affine double-and-add *)

(** The loop of [_pointMultAffine], [while n > 0], by recursion on the
    binary representation of [n] as for [_pointMultJacobian]; [ec.add]
    can raise, so the doubling of [Q] after the last digit is kept. *)
Fixpoint _pointMultAffine_loop (ec : EC) (n : positive) (R Q : Point)
  : result Point :=
  match n with
  | xH => R' <- EC.add ec R Q ;; EC.add ec Q Q ;;; Ok R'
  | xO n' => Q' <- EC.add ec Q Q ;; _pointMultAffine_loop ec n' R Q'
  | xI n' =>
      R' <- EC.add ec R Q ;;
      Q' <- EC.add ec Q Q ;;
      _pointMultAffine_loop ec n' R' Q'
  end.

Definition _pointMultAffine (ec : EC) (n : Z) (Q : Point) : result Point :=
  if py Q =? 0 then Ok Q
  else
    match n with
    | Zpos k => _pointMultAffine_loop ec k Point_default Q
    | _ => Ok Point_default
    end.

(** ** The curve in Jacobian coordinates *)

(** Y^2 = X^3 + a X Z^4 + b Z^6 modulo p. *)
Definition on_jacobian (ec : EC) (J : _JacPoint) : Prop :=
  (jy J * jy J) mod _p ec =
  (jx J * jx J * jx J + _a ec * jx J * (jz J * jz J * jz J * jz J) +
   _b ec * (jz J * jz J * jz J * jz J * jz J * jz J)) mod _p ec.

(** A pair [isOnCurve] accepts, with its coordinates reduced. *)
Definition reduced_on_curve (ec : EC) (P : Point) : Prop :=
  EC.isOnCurve ec (tuple_of P) = Ok true /\
  0 <= px P < _p ec /\ 0 <= py P < _p ec.

(** Z is reduced modulo p. *)
Definition jz_reduced (ec : EC) (J : _JacPoint) : Prop := 0 <= jz J < _p ec.

(** * Properties *)

(** ** Results and exceptions *)

Lemma bind_Ok {A B : Type} (m : result A) (k : A -> result B) (b : B) :
  bind m k = Ok b -> exists a, m = Ok a /\ k a = Ok b.
Proof.
  destruct m as [a|e]; simpl; intros E; [eauto | discriminate].
Qed.

Lemma Ok_inj {A : Type} (a b : A) : Ok a = Ok b -> a = b.
Proof. intros E. injection E as E. exact E. Qed.

Lemma raise_if_Ok (c : bool) (e : exn) (u : unit) :
  raise_if c e = Ok u -> c = false.
Proof. destruct c; simpl; [discriminate | reflexivity]. Qed.

Lemma raise_if_false (e : exn) : raise_if false e = Ok tt.
Proof. reflexivity. Qed.

(** ** Arithmetic modulo [p]

    Congruences between the integer expressions of the source are
    settled in the ring [Zmod p]: [of_Z] is a ring morphism and
    [a mod p = b mod p] is [of_Z a = of_Z b]. *)

Ltac zmod_cst t :=
  lazymatch t with
  | Zmod.of_Z _ ?c => Zcst c
  | @Zmod.zero _ => constr:(0)
  | @Zmod.one _ => constr:(1)
  | _ => constr:(InitialRing.NotConstant)
  end.

Ltac push_of_Z :=
  repeat (first [ rewrite Zmod.of_Z_add | rewrite Zmod.of_Z_sub
                | rewrite Zmod.of_Z_mul | rewrite Zmod.of_Z_opp
                | rewrite Zmod.of_Z_mod ]).

Ltac push_of_Z_in H :=
  repeat (first [ rewrite Zmod.of_Z_add in H | rewrite Zmod.of_Z_sub in H
                | rewrite Zmod.of_Z_mul in H | rewrite Zmod.of_Z_opp in H
                | rewrite Zmod.of_Z_mod in H ]).

(** [congr]: a goal [a mod p = b mod p] becomes an equation of [Zmod p]. *)
Ltac congr := apply Zmod.of_Z_inj; push_of_Z.
Ltac congr_in H := apply Zmod.of_Z_inj in H; push_of_Z_in H.

Lemma of_Z_morph (m : Z) :
  ring_morph (R:=Zmod m) Zmod.zero Zmod.one Zmod.add Zmod.mul Zmod.sub
    Zmod.opp eq 0 1 Z.add Z.mul Z.sub Z.opp Z.eqb (Zmod.of_Z m).
Proof.
  split; intros.
  - apply Zmod.of_Z_0.
  - apply Zmod.of_Z_1.
  - apply Zmod.of_Z_add.
  - apply Zmod.of_Z_sub.
  - apply Zmod.of_Z_mul.
  - apply Zmod.of_Z_opp.
  - apply Z.eqb_eq in H. now subst.
Qed.

Section Membership.
Variable ec : EC.

Add Ring zmod_ring_m :
  (Zmod.ring_theory (_p ec))
  (morphism (of_Z_morph (_p ec)), constants [zmod_cst]).

Lemma _y2_mod (x : Z) : EC._y2 ec (x mod _p ec) = EC._y2 ec x.
Proof. unfold EC._y2. congr. reflexivity. Qed.

Lemma _y2_range (x : Z) : 0 < _p ec -> 0 <= EC._y2 ec x < _p ec.
Proof. intros Hp. unfold EC._y2. apply Z.mod_pos_bound. exact Hp. Qed.

End Membership.

(** ** The constructor *)

Lemma negb_orb_prime_test (n : Z) :
  negb ((n <? 2) || ((2 <? n) && negb (fermat_test n))) = check_n_prime n.
Proof.
  unfold check_n_prime.
  destruct (Z.ltb_spec n 2), (Z.leb_spec 2 n), (Z.ltb_spec 2 n), (Z.eqb_spec n 2);
    simpl; try lia; destruct (fermat_test n); reflexivity.
Qed.

Lemma existsb_negb_forallb {A : Type} (f : A -> bool) (l : list A) :
  negb (existsb f l) = forallb (fun i => negb (f i)) l.
Proof.
  induction l as [|i l IH]; simpl; [reflexivity|].
  rewrite negb_orb, IH. reflexivity.
Qed.

(** One [raise] of the constructor: case analysis on the condition. *)
Ltac init_step :=
  lazymatch goal with
  | |- context [bind (raise_if (negb ?c) _) _] =>
      destruct c; cbn [raise_if bind negb andb orb];
      rewrite ?andb_false_r; try reflexivity
  | |- context [bind (raise_if ?c _) _] =>
      destruct c; cbn [raise_if bind negb andb orb];
      rewrite ?andb_false_r; try reflexivity
  | |- context [bind (bind ?m _) _] =>
      destruct m; cbn [raise_if bind negb andb orb];
      rewrite ?andb_false_r; try reflexivity
  | |- context [bind ?m _] =>
      destruct m; cbn [raise_if bind negb andb orb];
      rewrite ?andb_false_r; try reflexivity
  end.

Section Init.
Context {FL : PyFloat}.
Variables (p a b : Z) (G : list Z) (n h t : Z).

Lemma EC__init___remaining :
  is_ok (EC__init__ p a b G n h t false) = remaining_checks p a b G n h t.
Proof.
  unfold EC__init__, remaining_checks, check_p_odd_prime, check_a_b_in_range,
    check_discriminant, check_G_on_curve, check_cofactor, check_order,
    check_n_not_p.
  fold (fermat_test p). fold (fermat_test n).
  rewrite <- negb_orb_prime_test.
  change (mkEC p a b (mkPoint (nth 0 G 0) (nth 1 G 0)) n h t
            ((bit_length p + 7) / 8) (p mod 4 =? 3))
    with (EC_attributes p a b G n h t).
  rewrite andb_false_r. cbn [andb ec_G ec_n EC_attributes]. cbv beta iota.
  repeat init_step.
Qed.

Lemma EC__init___all_checks :
  is_ok (EC__init__ p a b G n h t true) =
  remaining_checks p a b G n h t && skipped_checks p n h t.
Proof.
  unfold EC__init__, remaining_checks, skipped_checks, check_p_odd_prime,
    check_a_b_in_range, check_discriminant, check_G_on_curve, check_cofactor,
    check_order, check_n_not_p, check_security_level, check_cofactor_size,
    check_hasse, check_p_i.
  fold (fermat_test p). fold (fermat_test n).
  rewrite <- negb_orb_prime_test, <- existsb_negb_forallb.
  rewrite (Z.ltb_antisym h (2 ^ (t / 8))).
  change (mkEC p a b (mkPoint (nth 0 G 0) (nth 1 G 0)) n h t
            ((bit_length p + 7) / 8) (p mod 4 =? 3))
    with (EC_attributes p a b G n h t).
  rewrite andb_true_r. cbn [andb].
  cbn [ec_G ec_n EC_attributes].
  destruct (t =? 0); cbn [negb andb orb]; cbv beta iota;
    repeat init_step.
Qed.

Lemma EC__init___attributes (all_checks : bool) (ec : EC) :
  EC__init__ p a b G n h t all_checks = Ok ec ->
  ec = EC_attributes p a b G n h t.
Proof.
  unfold EC__init__. intros E.
  repeat (apply bind_Ok in E; destruct E as [? [_ E]]).
  injection E as <-. reflexivity.
Qed.

End Init.


(** Inputs that fail the Hasse bound, the p^i test and the
    security-level check, and nothing else. *)
Example all_checks_false_accepts :
  let _ := exact_float in
  check_hasse 11 3 = false /\ check_p_i 11 3 = false /\
  check_security_level 11 80 = false /\
  EC__init__ 11 0 1 [0; 1] 3 6 80 false =
    Ok (EC_attributes 11 0 1 [0; 1] 3 6 80) /\
  is_ok (EC__init__ 11 0 1 [0; 1] 3 6 80 true) = false.
Proof. vm_compute. repeat split. Qed.

(** The float expression of the cofactor check is evaluated with
    [all_checks = false] too: when it raises, after the checks before
    it have passed, the constructor raises the same exception. *)
Lemma EC__init___float_error {FL : PyFloat} (p a b : Z) (G : list Z)
  (n h t : Z) (e : exn) :
  check_p_odd_prime p = true -> check_a_b_in_range p a b = true ->
  check_discriminant p a b = true ->
  check_G_on_curve (EC_attributes p a b G n h t) G = true ->
  check_n_prime n = true ->
  expected_cofactor p n = Raise e ->
  EC__init__ p a b G n h t false = Raise e.
Proof.
  intros P AB D OnG N E. unfold EC__init__.
  fold (fermat_test p). fold (fermat_test n).
  change (mkEC p a b (mkPoint (nth 0 G 0) (nth 1 G 0)) n h t
            ((bit_length p + 7) / 8) (p mod 4 =? 3))
    with (EC_attributes p a b G n h t).
  apply andb_true_iff in P as [P1 P2]. apply negb_true_iff in P1.
  rewrite P1, P2, andb_false_r. cbn [negb raise_if bind].
  unfold check_a_b_in_range in AB. apply andb_true_iff in AB as [A B].
  rewrite A, B. cbn [negb raise_if bind].
  unfold check_discriminant in D. apply negb_true_iff in D. rewrite D.
  cbn [negb raise_if bind].
  unfold check_G_on_curve in OnG. apply andb_true_iff in OnG as [L On].
  rewrite L. cbn [negb raise_if bind].
  destruct (EC.isOnCurve _ _) as [on|]; [|discriminate On]. subst on.
  cbn [negb raise_if bind].
  rewrite <- negb_orb_prime_test in N. apply negb_true_iff in N. rewrite N.
  cbn [negb raise_if bind]. rewrite E. reflexivity.
Qed.

(** 2^(2^q - 2) = 1 modulo 2^q - 1 when q divides 2^q - 2: the Fermat
    test of the constructor accepts 2^q - 1 for every prime q. *)
Lemma fermat_test_mersenne (q : Z) :
  1 < q -> (2 ^ q - 2) mod q = 0 -> fermat_test (2 ^ q - 1) = true.
Proof.
  intros Hq D. unfold fermat_test, pow_mod. apply Z.eqb_eq.
  assert (P4 : 4 <= 2 ^ q).
  { change 4 with (2 ^ 2). apply Z.pow_le_mono_r; lia. }
  apply Z.mod_divide in D; [|lia]. destruct D as [k Hk].
  assert (K : 0 <= k) by nia.
  replace (2 ^ q - 1 - 1) with (q * k) by lia.
  rewrite Z.pow_mul_r by lia.
  rewrite <- Z.mod_pow_l.
  replace (2 ^ q mod (2 ^ q - 1)) with 1.
  - rewrite Z.pow_1_l by exact K. apply Z.mod_1_l. lia.
  - symmetry. replace (2 ^ q) with (1 + 1 * (2 ^ q - 1)) at 1 by ring.
    rewrite Z.mod_add by lia. apply Z.mod_1_l. lia.
Qed.

(** Beyond the range of a float: y^2 = x^3 + 1 over the Mersenne prime
    2^1279 - 1 with G = (0, 1) of order 3 passes every check up to the
    cofactor, where [sqrt(p)] raises [OverflowError], whatever
    [all_checks] skips. *)
Example EC__init___overflow (h : Z) :
  EC__init__ (FL:=exact_float) (2 ^ 1279 - 1) 0 1 [0; 1] 3 h 0 false =
  Raise (OverflowError, FloatOverflow).
Proof.
  apply EC__init___float_error.
  - unfold check_p_odd_prime. rewrite fermat_test_mersenne;
      [|lia|vm_compute; reflexivity].
    vm_compute. reflexivity.
  - vm_compute. reflexivity.
  - vm_compute. reflexivity.
  - unfold check_G_on_curve, EC.isOnCurve, EC._y2, EC_attributes.
    cbn [List.length Nat.eqb negb raise_if bind nth andb _p _a _b].
    vm_compute. reflexivity.
  - vm_compute. reflexivity.
  - vm_compute. reflexivity.
Qed.

(** ** Scalars zero *)

(** C10.  With both scalars zero [DblScalarMult] returns [Point()]
    whatever [Q] and [P] are: neither is checked. *)
Theorem DblScalarMult_zero_scalars (ec : EC) (Q P : Point) :
  DblScalarMult ec 0 Q 0 P = Ok Point_default.
Proof. reflexivity. Qed.

(** (1, 1) is not on y^2 = x^3 + 1 over [F_11]: it is rejected as soon
    as one scalar is not zero, and not looked at when both are. *)
Example DblScalarMult_zero_scalars_off_curve :
  EC.requireOnCurve ec11 (mkPoint 1 1) = Raise (ValueError, PointNotOnCurve) /\
  DblScalarMult ec11 0 (mkPoint 1 1) 0 (mkPoint 1 1) = Ok Point_default /\
  DblScalarMult ec11 1 (mkPoint 1 1) 0 (mkPoint 1 1) =
    Raise (ValueError, PointNotOnCurve) /\
  DblScalarMult ec11 0 (mkPoint 1 1) 1 (mkPoint 1 1) =
    Raise (ValueError, PointNotOnCurve).
Proof. repeat split. Qed.

(** ** [isOnCurve] *)

(** C4, as amended.  [isOnCurve] raises [TypeError] for a value that is
    not a tuple and [ValueError] for a tuple that has not two items; for
    a pair it is true when y = 0, raises [ValueError] when y is not in
    (0, p), and otherwise tells whether y^2 = x^3 + a x + b (mod p). *)
Theorem isOnCurve_cases (ec : EC) (Q : pyobj) :
  EC.isOnCurve ec Q =
  match Q with
  | PyOther _ => Raise (TypeError, PointNotTuple)
  | PyTuple [x; y] =>
      if y =? 0 then Ok true
      else if (0 <? y) && (y <? _p ec)
      then Ok ((y * y) mod _p ec =? (x * x * x + _a ec * x + _b ec) mod _p ec)
      else Raise (ValueError, YNotInRange)
  | PyTuple _ => Raise (ValueError, PointNotPair)
  end.
Proof.
  destruct Q as [[|x [|y [|z l]]]|ty]; try reflexivity.
  unfold EC.isOnCurve, EC._y2. cbn [List.length Nat.eqb negb raise_if bind nth].
  destruct (y =? 0); [reflexivity|].
  destruct ((0 <? y) && (y <? _p ec)); cbn [negb raise_if bind]; [|reflexivity].
  f_equal. rewrite Z.eqb_sym. f_equal. f_equal. ring.
Qed.

(** C4 as stated fails: a tuple of three items has not two coordinates
    and raises [ValueError], not [TypeError]. *)
Lemma isOnCurve_three_items :
  two_coordinates (PyTuple [1; 2; 3]) = false /\
  EC.isOnCurve ec11 (PyTuple [1; 2; 3]) = Raise (ValueError, PointNotPair) /\
  raised_class (EC.isOnCurve ec11 (PyTuple [1; 2; 3])) <> Some TypeError.
Proof. repeat split. discriminate. Qed.

(** C9.  [isOnCurve] does not look at the range of x: (x, y) and
    (x mod p, y) get the same answer, and so does every x + k p. *)
Theorem isOnCurve_x_unchecked (ec : EC) (x y : Z) :
  0 < y < _p ec ->
  EC.isOnCurve ec (PyTuple [x; y]) = EC.isOnCurve ec (PyTuple [x mod _p ec; y]) /\
  forall k, EC.isOnCurve ec (PyTuple [x + k * _p ec; y]) =
            EC.isOnCurve ec (PyTuple [x; y]).
Proof.
  intros Hy. split.
  - unfold EC.isOnCurve. cbn [List.length Nat.eqb negb raise_if bind nth].
    rewrite _y2_mod. reflexivity.
  - intros k. unfold EC.isOnCurve.
    cbn [List.length Nat.eqb negb raise_if bind nth].
    rewrite <- (_y2_mod ec (x + k * _p ec)), Z.mod_add by lia.
    rewrite _y2_mod. reflexivity.
Qed.

Lemma isOnCurve_x_unchecked_witness :
  0 < 4 < _p ec11 /\
  (EC.isOnCurve ec11 (PyTuple [16; 4]) =
   EC.isOnCurve ec11 (PyTuple [16 mod _p ec11; 4]) /\
   forall k, EC.isOnCurve ec11 (PyTuple [16 + k * _p ec11; 4]) =
             EC.isOnCurve ec11 (PyTuple [16; 4])).
Proof.
  split; [vm_compute; split; reflexivity|].
  apply (isOnCurve_x_unchecked ec11 16 4). vm_compute. split; reflexivity.
Defined.

(** ** Square roots modulo a prime *)

(** Trial division, to obtain [Z.prime] for a concrete modulus. *)
Lemma prime_by_trial (p : Z) :
  1 < p ->
  forallb (fun d => negb (p mod d =? 0)) (range 2 p) = true ->
  Z.prime p.
Proof.
  intros H1 H. split; [exact H1|].
  intros d Hd [k Hk].
  rewrite forallb_forall in H.
  assert (In d (range 2 p)) as Hin.
  { unfold range. apply in_map_iff. exists (Z.to_nat (d - 2)).
    split; [lia|]. apply in_seq. lia. }
  apply H in Hin. apply negb_true_iff in Hin. apply Z.eqb_neq in Hin.
  apply Hin. rewrite Hk. apply Z.mod_mul. lia.
Qed.

Lemma prime_11 : Z.prime 11.
Proof. apply prime_by_trial; [lia | reflexivity]. Qed.

Lemma pow_mod_mod_l (a e m : Z) : pow_mod (a mod m) e m = pow_mod a e m.
Proof. unfold pow_mod. apply Z.mod_pow_l. Qed.

Lemma pow_mod_pow (a e f m : Z) :
  0 <= e -> 0 <= f -> pow_mod (pow_mod a e m) f m = pow_mod a (e * f) m.
Proof.
  intros He Hf. unfold pow_mod.
  rewrite Z.mod_pow_l, Z.pow_mul_r by assumption. reflexivity.
Qed.

Lemma mod_mul_both (a b c d m : Z) :
  a mod m = c mod m -> b mod m = d mod m -> (a * b) mod m = (c * d) mod m.
Proof.
  intros H1 H2. rewrite (Zmult_mod a b), (Zmult_mod c d), H1, H2. reflexivity.
Qed.

(** Two square roots of the same residue modulo a prime are equal or
    opposite. *)
Lemma square_roots_prime (p r y : Z) :
  Z.prime p -> 0 <= r < p -> 0 < y < p ->
  (r * r) mod p = (y * y) mod p ->
  r = y \/ r = p - y.
Proof.
  intros Hp Hr Hy E.
  assert (D : (p | (r - y) * (r + y))).
  { apply Z.mod_divide; [lia|].
    replace ((r - y) * (r + y)) with (r * r - y * y) by ring.
    rewrite Zminus_mod, E, Z.sub_diag. apply Z.mod_0_l. lia. }
  apply Z.divide_prime_mul in D; [|exact Hp].
  destruct D as [[k Hk]|[k Hk]].
  - left. assert (k = 0) by nia. subst k. lia.
  - right. assert (k = 1) by nia. subst k. lia.
Qed.

(** Euler's criterion, the easy direction: a non-zero square has
    Legendre symbol 1. *)
Lemma legendre_symbol_square (p a r : Z) :
  Z.prime p -> p mod 2 = 1 ->
  (r * r) mod p = a mod p -> a mod p <> 0 ->
  legendre_symbol a p = 1.
Proof.
  intros Hp Hodd E Ha.
  pose proof (Z.prime_ge_2 _ Hp) as H2.
  unfold legendre_symbol.
  rewrite <- pow_mod_mod_l, <- E, pow_mod_mod_l.
  unfold pow_mod.
  assert (Hr : r mod p <> 0).
  { intros Hr. apply Ha. rewrite <- E, Zmult_mod, Hr. reflexivity. }
  replace (r * r) with (r ^ 2) by ring.
  rewrite <- Z.pow_mul_r by (try lia; apply Z.div_pos; lia).
  replace (2 * ((p - 1) / 2)) with (p - 1).
  - apply Z.fermat_nz; assumption.
  - pose proof (Z.div_mod (p - 1) 2 ltac:(lia)) as D.
    assert ((p - 1) mod 2 = 0).
    { rewrite Zminus_mod, Hodd. reflexivity. }
    lia.
Qed.

Section Roots.
Context {TS : TonelliShanks}.

(** The fast path of [mod_sqrt]: for p = 3 (mod 4) the power
    a^((p+1)/4) is a root of every a of Legendre symbol 1, and is
    itself of Legendre symbol 1. *)
Lemma fast_path_root (p a : Z) :
  2 < p -> p mod 4 = 3 -> legendre_symbol a p = 1 ->
  let x := pow_mod a ((p + 1) / 4) p in
  (x * x) mod p = a mod p /\ legendre_symbol x p = 1.
Proof.
  intros Hp H34 L x.
  pose proof (Z.div_mod p 4 ltac:(lia)) as D. rewrite H34 in D.
  set (k := p / 4) in *.
  assert (0 <= k) by (apply Z.div_pos; lia).
  assert (E1 : (p + 1) / 4 = k + 1).
  { replace (p + 1) with ((k + 1) * 4) by lia. apply Z.div_mul. lia. }
  assert (E2 : (p - 1) / 2 = 2 * k + 1).
  { replace (p - 1) with ((2 * k + 1) * 2) by lia. apply Z.div_mul. lia. }
  unfold legendre_symbol in *. rewrite E2 in *. subst x. rewrite E1.
  split.
  - unfold pow_mod in *.
    rewrite <- Zmult_mod.
    rewrite <- Z.pow_add_r by lia.
    replace (k + 1 + (k + 1)) with (1 + (2 * k + 1)) by lia.
    rewrite Z.pow_add_r, Z.pow_1_r by lia.
    rewrite Zmult_mod, L, Z.mul_1_r. apply Z.mod_mod. lia.
  - rewrite pow_mod_pow by lia.
    replace ((k + 1) * (2 * k + 1)) with ((2 * k + 1) * (k + 1)) by ring.
    rewrite <- pow_mod_pow by lia. rewrite L.
    unfold pow_mod. rewrite Z.pow_1_l by lia. apply Z.mod_1_l. lia.
Qed.

(** The opposite of a root of Legendre symbol 1 has Legendre symbol
    p - 1 when p = 3 (mod 4). *)
Lemma legendre_symbol_opposite (p x : Z) :
  2 < p -> p mod 4 = 3 -> legendre_symbol x p = 1 ->
  legendre_symbol (p - x) p = p - 1.
Proof.
  intros Hp H34 L.
  pose proof (Z.div_mod p 4 ltac:(lia)) as D. rewrite H34 in D.
  set (k := p / 4) in *.
  assert (0 <= k) by (apply Z.div_pos; lia).
  assert (E2 : (p - 1) / 2 = 2 * k + 1).
  { replace (p - 1) with ((2 * k + 1) * 2) by lia. apply Z.div_mul. lia. }
  unfold legendre_symbol, pow_mod in *. rewrite E2 in *.
  rewrite <- Z.mod_pow_l.
  replace ((p - x) mod p) with ((- x) mod p).
  - rewrite Z.mod_pow_l.
    rewrite Z.pow_opp_odd by (exists k; lia).
    rewrite <- (Z.mod_opp_mod_opp (- x ^ (2 * k + 1))), Z.opp_involutive, L.
    replace (- (1)) with (p - 1 + (-1) * p) by ring.
    rewrite Z.mod_add by lia. apply Z.mod_small. lia.
  - replace (p - x) with (- x + 1 * p) by ring. rewrite Z.mod_add; lia.
Qed.

(** [mod_sqrt] finds a root of every square, on both branches. *)
Lemma mod_sqrt_square (p y : Z) :
  Z.prime p -> 0 < y < p ->
  exists r, mod_sqrt ((y * y) mod p) p = Ok r /\
            0 <= r < p /\ (r * r) mod p = (y * y) mod p.
Proof.
  intros Hp Hy. pose proof (Z.prime_ge_2 _ Hp) as H2.
  assert (Hnz : (y * y) mod p <> 0).
  { intros E. apply Z.mod_divide in E; [|lia].
    apply Z.divide_prime_mul in E; [|exact Hp].
    destruct E as [E|E]; apply Z.divide_pos_le in E; lia. }
  unfold mod_sqrt. destruct (Z.eqb_spec (p mod 4) 3) as [H34|H34].
  - pose proof (Z.div_mod p 4 ltac:(lia)) as D. rewrite H34 in D.
    assert (0 <= p / 4) by (apply Z.div_pos; lia).
    assert (Hodd : p mod 2 = 1).
    { replace p with (1 + (2 * (p / 4) + 1) * 2) by lia.
      rewrite Z.mod_add by lia. reflexivity. }
    assert (L : legendre_symbol ((y * y) mod p) p = 1).
    { apply (legendre_symbol_square p _ y Hp Hodd).
      - rewrite Z.mod_mod by lia. reflexivity.
      - rewrite Z.mod_mod by lia. exact Hnz. }
    destruct (fast_path_root p ((y * y) mod p) ltac:(lia) H34 L) as [R _].
    cbv zeta in R. rewrite R, Z.eqb_refl.
    eexists. split; [reflexivity|]. split.
    + unfold pow_mod. apply Z.mod_pos_bound. lia.
    + rewrite R. apply Z.mod_mod. lia.
  - destruct (tonelli_shanks_complete ((y * y) mod p) p y Hp) as [r Hr].
    + rewrite Z.mod_mod by lia. reflexivity.
    + exists r. split; [exact Hr|].
      apply tonelli_shanks_sound in Hr. rewrite Z.mod_mod in Hr by lia.
      exact Hr.
Qed.

End Roots.

(** ** The reference square root meets the contract *)

Lemma In_range (lo hi i : Z) : In i (range lo hi) <-> lo <= i < hi.
Proof.
  unfold range. rewrite in_map_iff. split.
  - intros [k [<- Hk]]. apply in_seq in Hk. lia.
  - intros H. exists (Z.to_nat (i - lo)). split; [lia|]. apply in_seq. lia.
Qed.

Lemma search_sqrt_sound (a p r : Z) :
  search_sqrt a p = Ok r -> 0 <= r < p /\ (r * r) mod p = a mod p.
Proof.
  unfold search_sqrt.
  destruct (find _ _) as [r'|] eqn:E; [|discriminate].
  intros [= <-]. apply find_some in E. destruct E as [Hin E].
  apply In_range in Hin. apply Z.eqb_eq in E. split; assumption.
Qed.

Lemma search_sqrt_complete (a p r : Z) :
  Z.prime p -> (r * r) mod p = a mod p -> exists r', search_sqrt a p = Ok r'.
Proof.
  intros Hp E. pose proof (Z.prime_ge_2 _ Hp).
  unfold search_sqrt.
  destruct (find _ _) as [r'|] eqn:F; [eauto|].
  exfalso.
  assert (Hin : In (r mod p) (range 0 p))
    by (apply In_range; apply Z.mod_pos_bound; lia).
  pose proof (find_none _ _ F (r mod p) Hin) as N. cbv beta in N.
  apply Z.eqb_neq in N. apply N. rewrite <- Zmult_mod. exact E.
Qed.

Lemma search_sqrt_raises (a p : Z) (e : exn) :
  search_sqrt a p = Raise e -> e = (ValueError, NoSquareRoot).
Proof.
  unfold search_sqrt. destruct (find _ _); [discriminate|].
  intros [= <-]. reflexivity.
Qed.

#[local] Instance search_TonelliShanks : TonelliShanks :=
  {| tonelli_shanks := search_sqrt;
     tonelli_shanks_sound := search_sqrt_sound;
     tonelli_shanks_complete := search_sqrt_complete;
     tonelli_shanks_raises := search_sqrt_raises |}.

(** ** Breaking the y symmetry *)

Section TieBreak.
Context {TS : TonelliShanks}.
Variable ec : EC.

(** What [isOnCurve] has checked when it answers true for a finite
    point. *)
Lemma isOnCurve_true_finite (P : Point) :
  EC.isOnCurve ec (tuple_of P) = Ok true -> py P <> 0 ->
  0 < py P < _p ec /\ EC._y2 ec (px P) = (py P * py P) mod _p ec.
Proof.
  unfold EC.isOnCurve, tuple_of.
  cbn [List.length Nat.eqb negb raise_if bind nth].
  intros E Hy. destruct (Z.eqb_spec (py P) 0) as [|_]; [contradiction|].
  destruct (Z.ltb_spec 0 (py P)), (Z.ltb_spec (py P) (_p ec));
    cbn [negb andb raise_if bind] in E; try discriminate.
  injection E as E. apply Z.eqb_eq in E. split; [lia | exact E].
Qed.

Lemma odd_prime_mod_2 (p : Z) : Z.prime p -> p <> 2 -> p mod 2 = 1.
Proof.
  intros Hp H2. pose proof (Z.prime_ge_2 _ Hp).
  pose proof (Z.mod_pos_bound p 2 ltac:(lia)).
  destruct (Z.eq_dec (p mod 2) 0) as [E|E]; [|lia].
  exfalso. apply Z.mod_divide in E; [|lia].
  destruct Hp as [_ Hp]. apply (Hp 2); [lia | exact E].
Qed.

(** C7, as amended.  For an on-curve point with x in [0, p) and y <> 0
    on a curve over a prime field, [yOdd] gives y back from x and the
    parity of y. *)
Theorem yOdd_round_trip (P : Point) :
  Z.prime (_p ec) ->
  EC.isOnCurve ec (tuple_of P) = Ok true ->
  0 <= px P < _p ec -> py P <> 0 ->
  EC.yOdd ec (px P) (Z.land (py P) 1) = Ok (py P).
Proof.
  intros Hp On Hx Hy.
  pose proof (Z.prime_ge_2 _ Hp) as H2.
  destruct (isOnCurve_true_finite P On Hy) as [Hr E].
  assert (L : Z.land (py P) 1 = py P mod 2).
  { change 1 with (Z.ones 1) at 1. rewrite Z.land_ones by lia. reflexivity. }
  pose proof (Z.mod_pos_bound (py P) 2 ltac:(lia)) as Hb.
  unfold EC.yOdd, EC.not_in_0_1, EC.y. rewrite L.
  replace ((py P mod 2 =? 0) || (py P mod 2 =? 1)) with true
    by (destruct (Z.eqb_spec (py P mod 2) 0), (Z.eqb_spec (py P mod 2) 1);
        simpl; lia).
  replace ((0 <=? px P) && (px P <? _p ec)) with true
    by (destruct (Z.leb_spec 0 (px P)), (Z.ltb_spec (px P) (_p ec));
        simpl; lia).
  cbn [negb raise_if bind]. rewrite E.
  destruct (mod_sqrt_square (_p ec) (py P) Hp Hr) as [r [-> [Hrr R]]].
  cbn [bind]. f_equal.
  destruct (square_roots_prime _ _ _ Hp Hrr Hr R) as [->| ->].
  - rewrite Z.eqb_refl. reflexivity.
  - destruct (Z.eq_dec (_p ec) 2) as [E2|E2].
    + assert (py P = 1) by lia.
      replace (_p ec - py P) with (py P) by lia.
      rewrite Z.eqb_refl. reflexivity.
    + pose proof (odd_prime_mod_2 _ Hp E2) as Hodd.
      destruct (Z.eqb_spec ((_p ec - py P) mod 2) (py P mod 2)) as [C|C];
        [|ring].
      exfalso. rewrite Zminus_mod, Hodd in C.
      pose proof (Z.mod_pos_bound (py P) 2 ltac:(lia)).
      assert (py P mod 2 = 0 \/ py P mod 2 = 1) as [Z0|Z1] by lia.
      * rewrite Z0 in C. discriminate C.
      * rewrite Z1 in C. discriminate C.
Qed.

(** C1, as amended.  When p is not 3 (mod 4) [yQuadraticResidue] raises
    the [ValueError] "works only when p = 3 (mod 4)"; when it is, p is
    prime and x^3 + a x + b is a non-zero square modulo p, it returns the
    root whose Legendre symbol, with p - 1 read as 0, is [quadRes]. *)
Theorem yQuadraticResidue_nonzero_square (x quadRes : Z) :
  flag_cached ec -> quadRes = 0 \/ quadRes = 1 ->
  (_p ec mod 4 <> 3 ->
   EC.yQuadraticResidue ec x quadRes = Raise (ValueError, PNotThreeModFour)) /\
  (_p ec mod 4 = 3 -> Z.prime (_p ec) -> 0 <= x < _p ec ->
   quadratic_residue (EC._y2 ec x) (_p ec) -> EC._y2 ec x <> 0 ->
   exists r,
     EC.yQuadraticResidue ec x quadRes = Ok r /\
     0 < r < _p ec /\
     (r * r) mod _p ec = EC._y2 ec x /\
     legendre_flag (legendre_symbol r (_p ec)) (_p ec) = quadRes).
Proof.
  intros Hc Hq.
  assert (Hflag : EC.not_in_0_1 quadRes = false).
  { unfold EC.not_in_0_1. destruct Hq as [-> | ->]; reflexivity. }
  unfold EC.yQuadraticResidue. rewrite Hflag, Hc.
  cbn [raise_if bind]. split.
  - intros H34. apply Z.eqb_neq in H34. rewrite H34. reflexivity.
  - intros H34 Hp Hx [r0 Hr0] Hnz.
    pose proof (Z.prime_ge_2 _ Hp) as H2.
    pose proof (Z.div_mod (_p ec) 4 ltac:(lia)) as D. rewrite H34 in D.
    assert (0 <= _p ec / 4) by (apply Z.div_pos; lia).
    assert (Hodd : _p ec mod 2 = 1).
    { replace (_p ec) with (1 + (2 * (_p ec / 4) + 1) * 2) at 1 by lia.
      rewrite Z.mod_add by lia. reflexivity. }
    pose proof (_y2_range ec x ltac:(lia)) as Hy2.
    assert (Hmod : EC._y2 ec x mod _p ec = EC._y2 ec x)
      by (apply Z.mod_small; exact Hy2).
    assert (L : legendre_symbol (EC._y2 ec x) (_p ec) = 1).
    { apply (legendre_symbol_square _ _ r0 Hp Hodd Hr0). rewrite Hmod.
      exact Hnz. }
    destruct (fast_path_root (_p ec) (EC._y2 ec x) ltac:(lia) H34 L) as [R LR].
    cbv zeta in R, LR.
    apply Z.eqb_eq in H34 as H34b. rewrite H34b. cbn [negb raise_if bind].
    unfold EC.y.
    replace ((0 <=? x) && (x <? _p ec)) with true
      by (destruct (Z.leb_spec 0 x), (Z.ltb_spec x (_p ec)); simpl; lia).
    cbn [negb raise_if bind]. unfold mod_sqrt. rewrite H34b, R, Z.eqb_refl.
    cbn [bind]. rewrite LR.
    set (root := pow_mod (EC._y2 ec x) ((_p ec + 1) / 4) (_p ec)) in *.
    assert (Hroot : 0 < root < _p ec).
    { assert (0 <= root < _p ec) by (apply Z.mod_pos_bound; lia).
      destruct (Z.eq_dec root 0) as [E0|]; [|lia].
      exfalso. apply Hnz. rewrite <- Hmod, <- R, E0. apply Z.mod_0_l. lia. }
    destruct Hq as [-> | ->].
    + (* quadRes = 0: the other root *)
      change (1 =? 0) with false. cbv iota.
      exists (_p ec - root). split; [reflexivity|]. split; [lia|]. split.
      * rewrite <- Hmod, <- R.
        replace ((_p ec - root) * (_p ec - root))
          with (root * root + (_p ec - 2 * root) * _p ec) by ring.
        apply Z.mod_add. lia.
      * rewrite (legendre_symbol_opposite (_p ec) root ltac:(lia) H34 LR).
        unfold legendre_flag. rewrite Z.eqb_refl. reflexivity.
    + (* quadRes = 1: the root found *)
      change (1 =? 1) with true. cbv iota.
      exists root. split; [reflexivity|]. split; [lia|]. split.
      * rewrite R. exact Hmod.
      * rewrite LR. unfold legendre_flag.
        destruct (Z.eqb_spec 1 (_p ec - 1)); [lia | reflexivity].
Qed.

End TieBreak.

Lemma yOdd_round_trip_witness :
  EC.yOdd (TS:=search_TonelliShanks) ec11 (px (mkPoint 5 4))
    (Z.land (py (mkPoint 5 4)) 1) = Ok (py (mkPoint 5 4)).
Proof.
  apply (yOdd_round_trip (TS:=search_TonelliShanks) ec11 (mkPoint 5 4)).
  - exact prime_11.
  - reflexivity.
  - cbv [ec11 EC_attributes _p px]. lia.
  - discriminate.
Defined.

(** C7 as stated fails: [isOnCurve] accepts (16, 4) on the curve over
    [F_11], where [yOdd] raises for the x-coordinate. *)
Lemma yOdd_x_out_of_range :
  EC.isOnCurve ec11 (tuple_of (mkPoint 16 4)) = Ok true /\
  py (mkPoint 16 4) <> 0 /\
  EC.yOdd (TS:=search_TonelliShanks) ec11 (px (mkPoint 16 4))
    (Z.land (py (mkPoint 16 4)) 1) = Raise (ValueError, XNotInRange).
Proof. repeat split. discriminate. Qed.

Lemma yQuadraticResidue_nonzero_square_witness :
  EC.yQuadraticResidue (TS:=search_TonelliShanks) ec11 5 0 = Ok 7 /\
  EC.yQuadraticResidue (TS:=search_TonelliShanks) ec11 5 1 = Ok 4.
Proof.
  assert (C : flag_cached ec11) by reflexivity.
  assert (Q : quadratic_residue (EC._y2 ec11 5) (_p ec11))
    by (exists 4; reflexivity).
  assert (N : EC._y2 ec11 5 <> 0) by discriminate.
  assert (R : 0 <= 5 < _p ec11) by (cbv [ec11 EC_attributes _p]; lia).
  split.
  - destruct (proj2 (yQuadraticResidue_nonzero_square
                       (TS:=search_TonelliShanks) ec11 5 0 C (or_introl eq_refl))
                eq_refl prime_11 R Q N) as [r [E _]].
    rewrite E. f_equal. vm_compute in E. injection E as <-. reflexivity.
  - destruct (proj2 (yQuadraticResidue_nonzero_square
                       (TS:=search_TonelliShanks) ec11 5 1 C (or_intror eq_refl))
                eq_refl prime_11 R Q N) as [r [E _]].
    rewrite E. f_equal. vm_compute in E. injection E as <-. reflexivity.
Defined.

(** C1 as stated fails where the right-hand side is the square 0: for
    x = 10 on the curve over [F_11] the answer for [quadRes = 1] is p
    itself, which is no field element and has Legendre symbol 0. *)
Lemma yQuadraticResidue_zero_square :
  _p ec11 mod 4 = 3 /\ 0 <= 10 < _p ec11 /\
  quadratic_residue (EC._y2 ec11 10) (_p ec11) /\
  EC.yQuadraticResidue (TS:=search_TonelliShanks) ec11 10 1 = Ok 11 /\
  legendre_flag (legendre_symbol 11 (_p ec11)) (_p ec11) <> 1.
Proof.
  split; [reflexivity|]. split; [cbv [ec11 EC_attributes _p]; lia|].
  split; [exists 0; reflexivity|]. split; [reflexivity | discriminate].
Qed.

(** ** The field [Zmod p] and the inverse of [mod_inv] *)

Lemma mod_inv_Ok (p a : Z) :
  Z.prime p -> a mod p <> 0 -> mod_inv a p = Ok (Z.invmod a p).
Proof.
  intros Hp Ha. unfold mod_inv.
  assert (C : Z.coprime p a).
  { apply Z.coprime_prime_l; [exact Hp|].
    intros D. apply Ha. apply Z.mod_divide; [|exact D].
    pose proof (Z.prime_ge_2 _ Hp). lia. }
  unfold Z.coprime in C. rewrite Z.gcd_comm, C. reflexivity.
Qed.

Lemma of_Z_invmod (p a : Z) :
  Zmod.of_Z p (Z.invmod a p) = Zmod.inv (Zmod.of_Z p a).
Proof.
  apply Zmod.unsigned_inj.
  rewrite Zmod.unsigned_inv, !Zmod.unsigned_of_Z, Z.invmod_mod_l.
  apply Z.mod_invmod.
Qed.

Lemma of_Z_nonzero (p a : Z) : a mod p <> 0 <-> Zmod.of_Z p a <> Zmod.zero.
Proof.
  rewrite <- Zmod.of_Z_0, Zmod.of_Z_inj, Zmod_0_l. reflexivity.
Qed.

Lemma of_Z_small_nonzero (p a : Z) :
  0 < a < p -> Zmod.of_Z p a <> Zmod.zero.
Proof.
  intros H. apply of_Z_nonzero. rewrite Z.mod_small; lia.
Qed.

Lemma of_Z_small_inj (p a b : Z) :
  0 <= a < p -> 0 <= b < p -> Zmod.of_Z p a = Zmod.of_Z p b -> a = b.
Proof.
  intros Ha Hb E. apply Zmod.of_Z_inj in E.
  rewrite !Z.mod_small in E; assumption.
Qed.

(** ** The Jacobian group law refines the affine one *)

Section Jacobian.
Variable ec : EC.
Hypothesis prime_p : Z.prime (_p ec).
Hypothesis odd_p : 2 < _p ec.

Add Field zmod_field_j :
  (Zmod.field_theory (_p ec) prime_p)
  (morphism (of_Z_morph (_p ec)), constants [zmod_cst]).

Lemma of_Z_2_nonzero : Zmod.of_Z (_p ec) 2 <> Zmod.zero.
Proof. apply of_Z_small_nonzero. lia. Qed.

Lemma mul_nonzero (x y : Zmod (_p ec)) :
  x <> Zmod.zero -> y <> Zmod.zero -> Zmod.mul x y <> Zmod.zero.
Proof.
  intros Hx Hy E. apply Zmod.mul_0_iff_prime in E; [|exact prime_p].
  destruct E; contradiction.
Qed.

(** A reduced coordinate is what its class modulo p says. *)
Lemma mod_eq_small (e v : Z) :
  0 <= v < _p ec -> Zmod.of_Z (_p ec) e = Zmod.of_Z (_p ec) v -> e mod _p ec = v.
Proof.
  intros Hv E. apply Zmod.of_Z_inj in E. rewrite E. apply Z.mod_small. exact Hv.
Qed.

(** [_affine_from_jac] on a point with [Z <> 0], from the classes of the
    coordinates. *)
Lemma _affine_from_jac_finite (J : _JacPoint) (x y : Z) :
  jz J mod _p ec <> 0 -> 0 <= x < _p ec -> 0 <= y < _p ec ->
  Zmod.of_Z (_p ec) (jx J) =
    Zmod.mul (Zmod.of_Z (_p ec) x)
      (Zmod.mul (Zmod.of_Z (_p ec) (jz J)) (Zmod.of_Z (_p ec) (jz J))) ->
  Zmod.of_Z (_p ec) (jy J) =
    Zmod.mul (Zmod.of_Z (_p ec) y)
      (Zmod.mul (Zmod.mul (Zmod.of_Z (_p ec) (jz J)) (Zmod.of_Z (_p ec) (jz J)))
         (Zmod.of_Z (_p ec) (jz J))) ->
  EC._affine_from_jac ec J = Ok (mkPoint x y).
Proof.
  intros Hz Hx Hy EX EY.
  assert (Hz0 : jz J <> 0) by (intros E; apply Hz; rewrite E; apply Z.mod_0_l; lia).
  pose proof (proj1 (of_Z_nonzero _ _) Hz) as Fz.
  unfold EC._affine_from_jac.
  apply Z.eqb_neq in Hz0. rewrite Hz0.
  rewrite mod_inv_Ok; [|exact prime_p|].
  2:{ apply of_Z_nonzero. push_of_Z. apply mul_nonzero; exact Fz. }
  cbn [bind].
  rewrite mod_inv_Ok; [|exact prime_p|].
  2:{ apply of_Z_nonzero. push_of_Z. repeat apply mul_nonzero; exact Fz. }
  cbn [bind]. f_equal. f_equal.
  - apply mod_eq_small; [exact Hx|]. push_of_Z. rewrite of_Z_invmod. push_of_Z.
    rewrite EX. field. exact Fz.
  - apply mod_eq_small; [exact Hy|]. push_of_Z. rewrite of_Z_invmod. push_of_Z.
    rewrite EY. field. exact Fz.
Qed.

Lemma _affine_from_jac_repr (J : _JacPoint) (P : Point) :
  jac_repr_weak ec J P -> EC._affine_from_jac ec J = Ok P.
Proof.
  intros [[Hz ->]|[Hz [Hx [Hy [EX EY]]]]].
  - unfold EC._affine_from_jac. rewrite Hz. reflexivity.
  - destruct P as [x y]. cbn [px py] in *.
    apply _affine_from_jac_finite.
    + rewrite Z.mod_small; lia.
    + exact Hx.
    + exact Hy.
    + congr_in EX. exact EX.
    + congr_in EY. exact EY.
Qed.

Lemma jac_repr_finite (J : _JacPoint) (P : Point) :
  jac_repr ec J P -> jz J <> 0 ->
  0 < jz J < _p ec /\ 0 <= px P < _p ec /\ 0 < py P < _p ec /\
  Zmod.of_Z (_p ec) (jx J) =
    Zmod.mul (Zmod.of_Z (_p ec) (px P))
      (Zmod.mul (Zmod.of_Z (_p ec) (jz J)) (Zmod.of_Z (_p ec) (jz J))) /\
  Zmod.of_Z (_p ec) (jy J) =
    Zmod.mul (Zmod.of_Z (_p ec) (py P))
      (Zmod.mul (Zmod.mul (Zmod.of_Z (_p ec) (jz J)) (Zmod.of_Z (_p ec) (jz J)))
         (Zmod.of_Z (_p ec) (jz J))).
Proof.
  intros [[[Hz _]|[Hz [Hx [Hy [EX EY]]]]] Hy0] Hnz; [contradiction|].
  congr_in EX. congr_in EY. repeat split; try lia; try assumption.
Qed.

Lemma jac_repr_infinite (J : _JacPoint) (P : Point) :
  jac_repr ec J P -> jz J = 0 -> P = Point_default.
Proof.
  intros [[[_ H]|[Hz _]] _] E; [exact H | lia].
Qed.

Lemma mul_cancel_small (x y : Z) (c : Zmod (_p ec)) :
  c <> Zmod.zero -> 0 <= x < _p ec -> 0 <= y < _p ec ->
  Zmod.mul (Zmod.of_Z (_p ec) x) c = Zmod.mul (Zmod.of_Z (_p ec) y) c ->
  x = y.
Proof.
  intros Hc Hx Hy E.
  apply Zmod.mul_cancel_r_prime in E; [|exact prime_p|exact Hc].
  apply of_Z_small_inj in E; assumption.
Qed.

(** [_addJacobian] on the representatives of two affine pairs computes a
    representative of what [_addAffine] returns for the pairs. *)
Lemma _addJacobian_refines (A B : _JacPoint) (PA PB : Point) :
  jac_repr ec A PA -> jac_repr ec B PB ->
  exists C, EC._addAffine ec PA PB = Ok C /\
            jac_repr_weak ec (EC._addJacobian ec A B) C /\
            (affine_sum_infinite PA PB = true ->
             jz (EC._addJacobian ec A B) = 0).
Proof.
  intros RA RB.
  unfold EC._addJacobian, EC._addAffine, affine_sum_infinite.
  destruct (Z.eqb_spec (jz A) 0) as [ZA|ZA].
  { (* A is infinity *)
    pose proof (jac_repr_infinite _ _ RA ZA) as ->. cbn [py Point_default].
    destruct (Z.eqb_spec (jz B) 0) as [ZB|ZB].
    - pose proof (jac_repr_infinite _ _ RB ZB) as ->. cbn [py Point_default].
      exists Point_default. split; [reflexivity|].
      split; [left; tauto | intros _; exact ZB].
    - destruct (jac_repr_finite _ _ RB ZB) as [? [? [? _]]].
      destruct (Z.eqb_spec (py PB) 0); [lia|].
      change (0 =? 0) with true. cbv iota.
      exists PB. split; [reflexivity|].
      split; [apply RB | discriminate]. }
  destruct (jac_repr_finite _ _ RA ZA) as [HZ1 [Hx1 [Hy1 [EX1 EY1]]]].
  destruct (Z.eqb_spec (jz B) 0) as [ZB|ZB].
  { pose proof (jac_repr_infinite _ _ RB ZB) as ->. cbn [py Point_default].
    change (0 =? 0) with true. cbv iota.
    exists PA. split; [reflexivity|]. split; [apply RA|].
    destruct (jac_repr_finite _ _ RA ZA) as [_ [_ [Hy _]]].
    destruct (Z.eqb_spec (py PA) 0); [lia | discriminate]. }
  destruct (jac_repr_finite _ _ RB ZB) as [HZ2 [Hx2 [Hy2 [EX2 EY2]]]].
  destruct A as [X1 Y1 Z1], B as [X2 Y2 Z2], PA as [x1 y1], PB as [x2 y2].
  cbn [jx jy jz px py] in *.
  pose proof (of_Z_small_nonzero _ _ HZ1) as FZ1.
  pose proof (of_Z_small_nonzero _ _ HZ2) as FZ2.
  pose proof (of_Z_small_nonzero _ _ Hy1) as Fy1.
  pose proof (of_Z_small_nonzero _ _ Hy2) as Fy2.
  destruct (Z.eqb_spec y2 0); [lia|]. destruct (Z.eqb_spec y1 0); [lia|].
  (* the two comparisons of the Jacobian law decide x1 = x2 and y1 = y2 *)
  assert (C1 : (X1 * (Z2 * Z2)) mod _p ec = (X2 * (Z1 * Z1)) mod _p ec <-> x2 = x1).
  { split.
    - intros E. congr_in E. rewrite EX1, EX2 in E. symmetry.
      apply (mul_cancel_small x1 x2
               (Zmod.mul (Zmod.mul (Zmod.of_Z (_p ec) Z1) (Zmod.of_Z (_p ec) Z1))
                  (Zmod.mul (Zmod.of_Z (_p ec) Z2) (Zmod.of_Z (_p ec) Z2))));
        [repeat apply mul_nonzero; assumption | assumption | assumption |].
      ring_simplify. ring_simplify in E. rewrite E. ring.
    - intros ->. congr. rewrite EX1, EX2. ring. }
  assert (C2 : (Y1 * (Z2 * Z2 * Z2)) mod _p ec = (Y2 * (Z1 * Z1 * Z1)) mod _p ec
               <-> y2 = y1).
  { split.
    - intros E. congr_in E. rewrite EY1, EY2 in E. symmetry.
      apply (mul_cancel_small y1 y2
               (Zmod.mul
                  (Zmod.mul (Zmod.mul (Zmod.of_Z (_p ec) Z1) (Zmod.of_Z (_p ec) Z1))
                     (Zmod.of_Z (_p ec) Z1))
                  (Zmod.mul (Zmod.mul (Zmod.of_Z (_p ec) Z2) (Zmod.of_Z (_p ec) Z2))
                     (Zmod.of_Z (_p ec) Z2))));
        [repeat apply mul_nonzero; assumption | lia | lia |].
      ring_simplify. ring_simplify in E. rewrite E. ring.
    - intros ->. congr. rewrite EY1, EY2. ring. }
  destruct (Z.eqb_spec ((X1 * (Z2 * Z2)) mod _p ec) ((X2 * (Z1 * Z1)) mod _p ec))
    as [E1|E1].
  - apply C1 in E1 as ->. rewrite Z.eqb_refl.
    destruct (Z.eqb_spec ((Y1 * (Z2 * Z2 * Z2)) mod _p ec)
                ((Y2 * (Z1 * Z1 * Z1)) mod _p ec)) as [E2|E2].
    + (* doubling *)
      apply C2 in E2 as ->. rewrite Z.eqb_refl.
      assert (F2y : Zmod.of_Z (_p ec) (2 * y1) <> Zmod.zero).
      { push_of_Z. apply mul_nonzero; [apply of_Z_2_nonzero | exact Fy1]. }
      rewrite mod_inv_Ok; [|exact prime_p|apply of_Z_nonzero; exact F2y].
      cbn [bind]. eexists. split; [reflexivity|].
      split; [|discriminate]. right.
      cbn [jx jy jz px py].
      assert (FZ' : Zmod.of_Z (_p ec) (2 * Y1 * Z1) <> Zmod.zero).
      { push_of_Z. rewrite EY1.
        repeat apply mul_nonzero; try assumption. apply of_Z_2_nonzero. }
      split.
      { pose proof (Z.mod_pos_bound (2 * Y1 * Z1) (_p ec) ltac:(lia)).
        apply of_Z_nonzero in FZ'. lia. }
      split; [apply Z.mod_pos_bound; lia|].
      split; [apply Z.mod_pos_bound; lia|].
      split.
      * congr. rewrite !of_Z_invmod. push_of_Z. rewrite EX1, EY1.
        push_of_Z_in F2y. field. split; [exact Fy1 | apply of_Z_2_nonzero].
      * congr. rewrite !of_Z_invmod. push_of_Z. rewrite EX1, EY1.
        push_of_Z_in F2y. field. split; [exact Fy1 | apply of_Z_2_nonzero].
    + (* opposite points *)
      destruct (Z.eqb_spec y2 y1) as [E|_]; [apply C2 in E; contradiction|].
      exists Point_default. split; [reflexivity|].
      split; [left; split; reflexivity | reflexivity].
  - (* different x *)
    destruct (Z.eqb_spec x2 x1) as [E|NE]; [apply C1 in E; contradiction|].
    assert (Fdx : Zmod.of_Z (_p ec) (x2 - x1) <> Zmod.zero).
    { apply of_Z_nonzero. intros E.
      apply Z.mod_divide in E; [|lia]. destruct E as [k Hk].
      assert (k = 0) by nia. lia. }
    rewrite mod_inv_Ok; [|exact prime_p|apply of_Z_nonzero; exact Fdx].
    cbn [bind]. eexists. split; [reflexivity|].
    split; [|discriminate]. right.
    cbn [jx jy jz px py].
    assert (FZ' : Zmod.of_Z (_p ec)
                    ((X2 * (Z1 * Z1)) mod _p ec - (X1 * (Z2 * Z2)) mod _p ec)
                  <> Zmod.zero).
    { push_of_Z. rewrite EX1, EX2. push_of_Z_in Fdx.
      intros E. apply Fdx.
      apply (Zmod.mul_cancel_r_prime
               (Zmod.mul (Zmod.mul (Zmod.of_Z (_p ec) Z1) (Zmod.of_Z (_p ec) Z1))
                  (Zmod.mul (Zmod.of_Z (_p ec) Z2) (Zmod.of_Z (_p ec) Z2))));
        [exact prime_p | repeat apply mul_nonzero; assumption |].
      ring_simplify. ring_simplify in E. rewrite <- E. ring. }
    split.
    { match goal with |- 0 < ?e mod _ < _ =>
        pose proof (Z.mod_pos_bound e (_p ec) ltac:(lia)) as Hb;
        assert (Zmod.of_Z (_p ec) e <> Zmod.zero) as Hn
      end.
      { push_of_Z. push_of_Z_in FZ'. repeat apply mul_nonzero; assumption. }
      apply of_Z_nonzero in Hn. lia. }
    split; [apply Z.mod_pos_bound; lia|].
    split; [apply Z.mod_pos_bound; lia|].
    split.
    * congr. rewrite !of_Z_invmod. push_of_Z. rewrite EX1, EX2, EY1, EY2.
      push_of_Z_in Fdx. field. exact Fdx.
    * congr. rewrite !of_Z_invmod. push_of_Z. rewrite EX1, EX2, EY1, EY2.
      push_of_Z_in Fdx. field. exact Fdx.
Qed.

(** [_jac_from_aff] of an accepted point stands for its canonical
    form. *)
Lemma _jac_from_aff_repr (Q : Point) :
  EC.isOnCurve ec (tuple_of Q) = Ok true ->
  jac_repr ec (_jac_from_aff Q) (canonical ec Q).
Proof.
  intros On. unfold _jac_from_aff, canonical.
  destruct (Z.eqb_spec (py Q) 0) as [E|E].
  - split; [left; split; reflexivity | reflexivity].
  - destruct (isOnCurve_true_finite ec Q On E) as [Hy _].
    split; [|cbn [py]; intros; contradiction].
    right. cbn [jx jy jz px py].
    split; [lia|]. split; [apply Z.mod_pos_bound; lia|]. split; [lia|].
    split; congr; ring.
Qed.

Lemma canonical_finite (Q : Point) :
  0 <= px Q < _p ec -> py Q <> 0 -> canonical ec Q = Q.
Proof.
  intros Hx Hy. unfold canonical.
  destruct (Z.eqb_spec (py Q) 0); [contradiction|].
  rewrite Z.mod_small by exact Hx. destruct Q; reflexivity.
Qed.

(** C3, as amended.  On a curve over a prime field, p > 2, for on-curve
    [Q] and [R] with x in [0, p): [_addAffine] and the Jacobian path
    both return, and return the same point, except when both arguments
    are the point at infinity, where [_addAffine] returns [Q] as it is
    and the Jacobian path [Point()]. *)
Theorem _addAffine_agrees_with_Jacobian (Q R : Point) :
  EC.isOnCurve ec (tuple_of Q) = Ok true ->
  EC.isOnCurve ec (tuple_of R) = Ok true ->
  0 <= px Q < _p ec -> 0 <= px R < _p ec ->
  exists A J,
    EC._addAffine ec Q R = Ok A /\
    EC._affine_from_jac ec
      (EC._addJacobian ec (_jac_from_aff Q) (_jac_from_aff R)) = Ok J /\
    if (py Q =? 0) && (py R =? 0) then A = Q /\ J = Point_default
    else A = J.
Proof.
  intros OnQ OnR HxQ HxR.
  pose proof (_jac_from_aff_repr Q OnQ) as RQ.
  pose proof (_jac_from_aff_repr R OnR) as RR.
  destruct (Z.eqb_spec (py Q) 0) as [EQ|EQ], (Z.eqb_spec (py R) 0) as [ER|ER];
    cbn [andb].
  - exists Q, Point_default.
    unfold EC._addAffine, _jac_from_aff. rewrite EQ, ER. cbn.
    repeat split.
  - exists R, R.
    assert (EA : EC._addAffine ec Q R = Ok R).
    { unfold EC._addAffine. apply Z.eqb_neq in ER. rewrite ER.
      rewrite EQ. reflexivity. }
    split; [exact EA|]. split; [|reflexivity].
    rewrite (canonical_finite R HxR ER) in RR.
    unfold _jac_from_aff at 1. rewrite EQ. cbn [Z.eqb].
    unfold EC._addJacobian. cbn [jz _JacPoint_default Z.eqb].
    apply _affine_from_jac_repr. apply RR.
  - exists Q, Q.
    assert (EA : EC._addAffine ec Q R = Ok Q).
    { unfold EC._addAffine. rewrite ER. reflexivity. }
    split; [exact EA|]. split; [|reflexivity].
    rewrite (canonical_finite Q HxQ EQ) in RQ.
    unfold _jac_from_aff at 2. rewrite ER. cbn [Z.eqb].
    unfold EC._addJacobian.
    assert (jz (_jac_from_aff Q) = 1) as ->.
    { unfold _jac_from_aff. apply Z.eqb_neq in EQ. rewrite EQ. reflexivity. }
    cbn [jz _JacPoint_default Z.eqb].
    apply _affine_from_jac_repr. apply RQ.
  - rewrite (canonical_finite Q HxQ EQ) in RQ.
    rewrite (canonical_finite R HxR ER) in RR.
    destruct (_addJacobian_refines _ _ _ _ RQ RR) as [C [EA [RC _]]].
    exists C, C. split; [exact EA|]. split; [|reflexivity].
    apply _affine_from_jac_repr. exact RC.
Qed.

End Jacobian.

Lemma _addAffine_agrees_with_Jacobian_witness :
  exists A J,
    EC._addAffine ec11 (mkPoint 5 4) (mkPoint 0 1) = Ok A /\
    EC._affine_from_jac ec11
      (EC._addJacobian ec11 (_jac_from_aff (mkPoint 5 4))
         (_jac_from_aff (mkPoint 0 1))) = Ok J /\
    A = J.
Proof.
  apply (_addAffine_agrees_with_Jacobian ec11 prime_11 ltac:(reflexivity)
           (mkPoint 5 4) (mkPoint 0 1)).
  - reflexivity.
  - reflexivity.
  - cbv [ec11 EC_attributes _p px]. lia.
  - cbv [ec11 EC_attributes _p px]. lia.
Defined.

(** C3 as stated fails for the point at infinity written with another
    x: [_addAffine] returns it unchanged, the Jacobian path returns
    [Point()]. *)
Lemma _addAffine_keeps_infinity_encoding :
  EC.isOnCurve ec11 (tuple_of (mkPoint 5 0)) = Ok true /\
  EC.isOnCurve ec11 (tuple_of (mkPoint 1 0)) = Ok true /\
  EC._addAffine ec11 (mkPoint 5 0) (mkPoint 1 0) = Ok (mkPoint 5 0) /\
  EC._affine_from_jac ec11
    (EC._addJacobian ec11 (_jac_from_aff (mkPoint 5 0))
       (_jac_from_aff (mkPoint 1 0))) = Ok (mkPoint 1 0) /\
  mkPoint 5 0 <> mkPoint 1 0.
Proof. repeat split. discriminate. Qed.

(** It fails also for a finite point [isOnCurve] accepts with x out of
    range: the affine law divides by the difference p of the x's. *)
Lemma _addAffine_x_out_of_range :
  EC.isOnCurve ec11 (tuple_of (mkPoint 16 4)) = Ok true /\
  EC._addAffine ec11 (mkPoint 16 4) (mkPoint 5 4) = Raise (ValueError, NoInverse) /\
  EC._affine_from_jac ec11
    (EC._addJacobian ec11 (_jac_from_aff (mkPoint 16 4))
       (_jac_from_aff (mkPoint 5 4))) = Ok (mkPoint 10 0).
Proof. repeat split. Qed.

(** ** The curve is closed under the group law *)

Section Closure.
Variable ec : EC.
Hypothesis prime_p : Z.prime (_p ec).
Hypothesis odd_p : 2 < _p ec.

Add Field zmod_field_c :
  (Zmod.field_theory (_p ec) prime_p)
  (morphism (of_Z_morph (_p ec)), constants [zmod_cst]).

Lemma finite_point_equation (P : Point) :
  finite_point ec P ->
  Zmod.mul (Zmod.of_Z (_p ec) (py P)) (Zmod.of_Z (_p ec) (py P)) =
  Zmod.add
    (Zmod.mul
       (Zmod.add (Zmod.mul (Zmod.of_Z (_p ec) (px P)) (Zmod.of_Z (_p ec) (px P)))
          (Zmod.of_Z (_p ec) (_a ec)))
       (Zmod.of_Z (_p ec) (px P)))
    (Zmod.of_Z (_p ec) (_b ec)).
Proof.
  intros [_ [_ E]]. unfold EC._y2 in E. congr_in E. symmetry. exact E.
Qed.

(** What [_addAffine] returns for two points of the curve is [Point()]
    or satisfies the curve equation. *)
Lemma _addAffine_on_curve (PA PB C : Point) :
  curve_point ec PA -> curve_point ec PB ->
  EC._addAffine ec PA PB = Ok C ->
  if affine_sum_infinite PA PB then C = Point_default
  else 0 <= px C < _p ec /\ 0 <= py C < _p ec /\
       EC._y2 ec (px C) = (py C * py C) mod _p ec.
Proof.
  intros [->|FA] [->|FB]; unfold EC._addAffine, affine_sum_infinite.
  - cbn. intros [= <-]. reflexivity.
  - destruct FB as [Hx [Hy E]]. cbn [py Point_default].
    destruct (Z.eqb_spec (py PB) 0); [lia|]. cbn.
    intros [= <-]. repeat split; try lia; exact E.
  - destruct FA as [Hx [Hy E]]. cbn [py Point_default]. cbn.
    destruct (Z.eqb_spec (py PA) 0); [lia|].
    intros [= <-]. repeat split; try lia; exact E.
  - pose proof (finite_point_equation _ FA) as EA.
    pose proof (finite_point_equation _ FB) as EB.
    destruct FA as [Hx1 [Hy1 _]], FB as [Hx2 [Hy2 _]].
    destruct PA as [x1 y1], PB as [x2 y2]. cbn [px py] in *.
    pose proof (of_Z_small_nonzero _ _ Hy1) as Fy1.
    destruct (Z.eqb_spec y2 0); [lia|]. destruct (Z.eqb_spec y1 0); [lia|].
    destruct (Z.eqb_spec x2 x1) as [->|NE].
    + destruct (Z.eqb_spec y2 y1) as [->|_].
      * (* tangent *)
        assert (F2y : Zmod.of_Z (_p ec) (2 * y1) <> Zmod.zero).
        { push_of_Z. apply mul_nonzero; [exact prime_p| |exact Fy1].
          apply of_Z_2_nonzero. exact odd_p. }
        rewrite mod_inv_Ok; [|exact prime_p|apply of_Z_nonzero; exact F2y].
        cbn [bind]. cbv [andb negb]. intros E. apply Ok_inj in E. subst C.
        cbn [px py].
        split; [apply Z.mod_pos_bound; lia|].
        split; [apply Z.mod_pos_bound; lia|].
        unfold EC._y2. congr. rewrite !of_Z_invmod. push_of_Z.
        assert (Hb : Zmod.of_Z (_p ec) (_b ec) =
                     Zmod.sub
                       (Zmod.mul (Zmod.of_Z (_p ec) y1) (Zmod.of_Z (_p ec) y1))
                       (Zmod.mul
                          (Zmod.add
                             (Zmod.mul (Zmod.of_Z (_p ec) x1) (Zmod.of_Z (_p ec) x1))
                             (Zmod.of_Z (_p ec) (_a ec)))
                          (Zmod.of_Z (_p ec) x1))).
        { rewrite EA. ring. }
        rewrite Hb. field.
        split; [exact Fy1 | apply of_Z_2_nonzero; exact odd_p].
      * intros [= <-]. reflexivity.
    + (* chord *)
      assert (Fdx : Zmod.of_Z (_p ec) (x2 - x1) <> Zmod.zero).
      { apply of_Z_nonzero. intros E.
        apply Z.mod_divide in E; [|lia]. destruct E as [k Hk].
        assert (k = 0) by nia. lia. }
      rewrite mod_inv_Ok; [|exact prime_p|apply of_Z_nonzero; exact Fdx].
      cbn [bind]. cbv [andb negb]. intros E. apply Ok_inj in E. subst C.
        cbn [px py].
      split; [apply Z.mod_pos_bound; lia|].
      split; [apply Z.mod_pos_bound; lia|].
      unfold EC._y2. congr. rewrite !of_Z_invmod. push_of_Z.
      push_of_Z_in Fdx.
      set (X1 := Zmod.of_Z (_p ec) x1) in *.
      set (X2 := Zmod.of_Z (_p ec) x2) in *.
      set (Y1 := Zmod.of_Z (_p ec) y1) in *.
      set (Y2 := Zmod.of_Z (_p ec) y2) in *.
      set (a := Zmod.of_Z (_p ec) (_a ec)) in *.
      set (b := Zmod.of_Z (_p ec) (_b ec)) in *.
      assert (Hb : b = Zmod.sub (Zmod.mul Y1 Y1)
                         (Zmod.mul (Zmod.add (Zmod.mul X1 X1) a) X1)).
      { rewrite EA. ring. }
      assert (Ha : a =
                   Zmod.mdiv
                     (Zmod.sub (Zmod.sub (Zmod.mul Y2 Y2) (Zmod.mul Y1 Y1))
                        (Zmod.sub (Zmod.mul (Zmod.mul X2 X2) X2)
                           (Zmod.mul (Zmod.mul X1 X1) X1)))
                     (Zmod.sub X2 X1)).
      { apply (Zmod.mul_cancel_r_prime (Zmod.sub X2 X1));
          [exact prime_p | exact Fdx |].
        rewrite EA, EB. field. exact Fdx. }
      clearbody a b. subst b. subst a. field. exact Fdx.
Qed.

Section NoOrderTwo.
Hypothesis no_y0 : no_order_two ec.

Lemma _addAffine_closed (PA PB C : Point) :
  curve_point ec PA -> curve_point ec PB ->
  EC._addAffine ec PA PB = Ok C ->
  curve_point ec C /\ (py C = 0 -> affine_sum_infinite PA PB = true).
Proof.
  intros CA CB E.
  pose proof (_addAffine_on_curve _ _ _ CA CB E) as H.
  destruct (affine_sum_infinite PA PB).
  - subst C. split; [left|]; reflexivity.
  - destruct H as [Hx [Hy On]].
    assert (py C <> 0).
    { intros E0. apply (no_y0 (px C)). rewrite On, E0. apply Z.mod_0_l. lia. }
    split; [|intros; contradiction].
    right. split; [exact Hx|]. split; [lia | exact On].
Qed.

(** The point the Jacobian sum stands for is the affine sum, a point of
    the curve. *)
Lemma _addJacobian_closed (A B : _JacPoint) (PA PB : Point) :
  jac_repr ec A PA -> jac_repr ec B PB ->
  curve_point ec PA -> curve_point ec PB ->
  exists C, EC._addAffine ec PA PB = Ok C /\ curve_point ec C /\
            jac_repr ec (EC._addJacobian ec A B) C.
Proof.
  intros RA RB CA CB.
  destruct (_addJacobian_refines ec prime_p odd_p _ _ _ _ RA RB)
    as [C [E [W I]]].
  destruct (_addAffine_closed _ _ _ CA CB E) as [CC Y0].
  exists C. split; [exact E|]. split; [exact CC|]. split; [exact W|].
  intros Hy. apply I, Y0, Hy.
Qed.

Lemma _addJacobian_curve_point (A B : _JacPoint) :
  jac_curve_point ec A -> jac_curve_point ec B ->
  jac_curve_point ec (EC._addJacobian ec A B).
Proof.
  intros [PA [RA CA]] [PB [RB CB]].
  destruct (_addJacobian_closed _ _ _ _ RA RB CA CB) as [C [_ [CC RC]]].
  exists C. split; assumption.
Qed.

End NoOrderTwo.
End Closure.

(** ** Scalar multiplication stays on the curve *)

Section ScalarMult.
Variable ec : EC.
Hypothesis prime_p : Z.prime (_p ec).
Hypothesis odd_p : 2 < _p ec.
Hypothesis no_y0 : no_order_two ec.

Lemma requireOnCurve_Ok (Q : Point) (u : unit) :
  EC.requireOnCurve ec Q = Ok u -> EC.isOnCurve ec (tuple_of Q) = Ok true.
Proof.
  unfold EC.requireOnCurve.
  destruct (EC.isOnCurve ec (tuple_of Q)) as [[|]|e]; cbn;
    [reflexivity | discriminate | discriminate].
Qed.

Lemma isOnCurve_canonical (Q : Point) :
  EC.isOnCurve ec (tuple_of Q) = Ok true -> curve_point ec (canonical ec Q).
Proof.
  intros On. unfold canonical.
  destruct (Z.eqb_spec (py Q) 0) as [E|E]; [left; reflexivity|].
  destruct (isOnCurve_true_finite ec Q On E) as [Hy Eq].
  right. split; cbn [px py].
  - apply Z.mod_pos_bound. lia.
  - split; [exact Hy|]. rewrite _y2_mod. exact Eq.
Qed.

Lemma _jac_from_aff_curve_point (Q : Point) :
  EC.isOnCurve ec (tuple_of Q) = Ok true ->
  jac_curve_point ec (_jac_from_aff Q).
Proof.
  intros On. exists (canonical ec Q). split.
  - apply _jac_from_aff_repr; assumption.
  - apply isOnCurve_canonical. exact On.
Qed.

Lemma _JacPoint_default_curve_point : jac_curve_point ec _JacPoint_default.
Proof.
  exists Point_default. split; [|left; reflexivity].
  split; [left; split; reflexivity | reflexivity].
Qed.

Lemma _pointMultJacobian_loop_curve_point (n : positive) :
  forall R Q, jac_curve_point ec R -> jac_curve_point ec Q ->
  jac_curve_point ec (_pointMultJacobian_loop ec n R Q).
Proof.
  induction n as [n IH|n IH|]; intros R Q HR HQ; cbn [_pointMultJacobian_loop].
  - apply IH; apply _addJacobian_curve_point; assumption.
  - apply IH; [exact HR|]. apply _addJacobian_curve_point; assumption.
  - apply _addJacobian_curve_point; assumption.
Qed.

Lemma _pointMultJacobian_curve_point (n : Z) (Q : _JacPoint) :
  jac_curve_point ec Q -> jac_curve_point ec (_pointMultJacobian ec n Q).
Proof.
  intros HQ. unfold _pointMultJacobian.
  destruct (jz Q =? 0); [apply _JacPoint_default_curve_point|].
  destruct n as [|k|k]; try apply _JacPoint_default_curve_point.
  apply _pointMultJacobian_loop_curve_point;
    [apply _JacPoint_default_curve_point | exact HQ].
Qed.

Lemma DblScalarMult_loop_curve_point (QJ PJ : _JacPoint) (msb : nat) :
  jac_curve_point ec QJ -> jac_curve_point ec PJ ->
  forall u v R, jac_curve_point ec R ->
  jac_curve_point ec (DblScalarMult_loop ec QJ PJ msb u v R).
Proof.
  intros HQ HP. induction msb as [|m IH]; intros u v R HR;
    cbn [DblScalarMult_loop]; [exact HR|].
  destruct (Z.shiftr u (Z.of_nat m) =? 0), (Z.shiftr v (Z.of_nat m) =? 0),
    (1 <? Z.of_nat (S m)); cbv beta iota zeta; apply IH;
    repeat first [assumption | apply _addJacobian_curve_point].
Qed.

Lemma _affine_from_jac_curve_point (J : _JacPoint) :
  jac_curve_point ec J ->
  exists P, EC._affine_from_jac ec J = Ok P /\ curve_point ec P.
Proof.
  intros [P [[W _] CP]]. exists P. split; [|exact CP].
  apply _affine_from_jac_repr; assumption.
Qed.

Lemma curve_point_infinity (P : Point) :
  curve_point ec P -> py P = 0 -> P = Point_default.
Proof. intros [->|[_ [Hy _]]] E; [reflexivity | lia]. Qed.

(** What [add], [pointMult] and [DblScalarMult] return is a point of
    the curve in canonical form. *)
Lemma add_curve_point (Q1 Q2 P : Point) :
  EC.add ec Q1 Q2 = Ok P -> curve_point ec P.
Proof.
  unfold EC.add. intros E.
  apply bind_Ok in E. destruct E as [u1 [On1 E]].
  apply bind_Ok in E. destruct E as [u2 [On2 E]].
  apply requireOnCurve_Ok in On1, On2.
  destruct (_affine_from_jac_curve_point
              (EC._addJacobian ec (_jac_from_aff Q1) (_jac_from_aff Q2)))
    as [P' [E' CP]].
  - apply _addJacobian_curve_point; try assumption;
      apply _jac_from_aff_curve_point; assumption.
  - rewrite E' in E. apply Ok_inj in E. subst P'. exact CP.
Qed.

Lemma pointMult_curve_point (k : Z) (Q P : Point) :
  pointMult ec k Q = Ok P -> curve_point ec P.
Proof.
  unfold pointMult. intros E.
  apply bind_Ok in E. destruct E as [u1 [On1 E]].
  apply requireOnCurve_Ok in On1.
  destruct (_affine_from_jac_curve_point
              (_pointMultJacobian ec (k mod ec_n ec) (_jac_from_aff Q)))
    as [P' [E' CP]].
  - apply _pointMultJacobian_curve_point, _jac_from_aff_curve_point. exact On1.
  - rewrite E' in E. apply Ok_inj in E. subst P'. exact CP.
Qed.

Lemma DblScalarMult_curve_point (u v : Z) (Q P S : Point) :
  DblScalarMult ec u Q v P = Ok S -> curve_point ec S.
Proof.
  assert (PM : forall k T S',
             EC.requireOnCurve ec T ;;;
             EC._affine_from_jac ec
               (_pointMultJacobian ec (k mod ec_n ec) (_jac_from_aff T)) = Ok S' ->
             curve_point ec S').
  { intros k T S' E. apply (pointMult_curve_point k T). exact E. }
  unfold DblScalarMult.
  destruct (u =? 0).
  { destruct (v =? 0).
    - intros E. apply Ok_inj in E. subst S. left. reflexivity.
    - apply PM. }
  intros E. apply bind_Ok in E. destruct E as [u1 [OnQ E]].
  destruct (py Q =? 0); [revert E; apply PM|].
  assert (PQ : forall S',
             EC._affine_from_jac ec
               (_pointMultJacobian ec (u mod ec_n ec) (_jac_from_aff Q)) = Ok S' ->
             curve_point ec S').
  { intros S' E'. apply (pointMult_curve_point u Q). unfold pointMult.
    rewrite OnQ. exact E'. }
  destruct (v =? 0); [revert E; apply PQ|].
  apply bind_Ok in E. destruct E as [u2 [OnP E]].
  destruct (py P =? 0); [revert E; apply PQ|].
  apply requireOnCurve_Ok in OnQ, OnP.
  match type of E with EC._affine_from_jac ec ?J = _ =>
    destruct (_affine_from_jac_curve_point J) as [P' [E' CP]]
  end.
  - apply DblScalarMult_loop_curve_point;
      try (apply _jac_from_aff_curve_point; assumption).
    apply _JacPoint_default_curve_point.
  - rewrite E' in E. apply Ok_inj in E. subst P'. exact CP.
Qed.

(** C8, as amended.  On a curve over a prime field, p > 2, without a
    point of order two, a result of [add], [pointMult] or
    [DblScalarMult] with y = 0 is the canonical [Point()], whatever the
    encoding of infinity in the arguments. *)
Theorem infinity_is_canonical :
  (forall Q1 Q2 P, EC.add ec Q1 Q2 = Ok P -> py P = 0 -> P = Point_default) /\
  (forall k Q P, pointMult ec k Q = Ok P -> py P = 0 -> P = Point_default) /\
  (forall u Q v P S,
     DblScalarMult ec u Q v P = Ok S -> py S = 0 -> S = Point_default).
Proof.
  split; [|split].
  - intros Q1 Q2 P E. apply curve_point_infinity.
    exact (add_curve_point _ _ _ E).
  - intros k Q P E. apply curve_point_infinity.
    exact (pointMult_curve_point _ _ _ E).
  - intros u Q v P S E. apply curve_point_infinity.
    exact (DblScalarMult_curve_point _ _ _ _ _ E).
Qed.

End ScalarMult.

(** ** The order of the generator *)

Lemma prime_7 : Z.prime 7.
Proof. apply prime_by_trial; [lia | reflexivity]. Qed.

Lemma no_order_two_by_enumeration (ec : EC) :
  0 < _p ec ->
  forallb (fun x => negb (EC._y2 ec x =? 0)) (range 0 (_p ec)) = true ->
  no_order_two ec.
Proof.
  intros Hp H x. rewrite forallb_forall in H.
  rewrite <- _y2_mod.
  assert (Hin : In (x mod _p ec) (range 0 (_p ec)))
    by (apply In_range, Z.mod_pos_bound; exact Hp).
  apply H in Hin. apply negb_true_iff in Hin. apply Z.eqb_neq in Hin.
  exact Hin.
Qed.

Lemma no_order_two_ec7 : no_order_two ec7.
Proof. apply no_order_two_by_enumeration; reflexivity. Qed.

Section Constructed.
Context {FL : PyFloat}.
Variables (p a b : Z) (G : list Z) (n h t : Z) (all_checks : bool).
Variable ec : EC.
Hypothesis built : EC__init__ p a b G n h t all_checks = Ok ec.

Lemma built_attributes : ec = EC_attributes p a b G n h t.
Proof. exact (EC__init___attributes p a b G n h t all_checks ec built). Qed.

Lemma built_remaining : remaining_checks p a b G n h t = true.
Proof.
  pose proof (EC__init___remaining p a b G n h t) as R0.
  pose proof (EC__init___all_checks p a b G n h t) as R1.
  destruct all_checks; rewrite built in *; cbn [is_ok] in *.
  - symmetry in R1. apply andb_true_iff in R1. apply R1.
  - symmetry. exact R0.
Qed.

Lemma built_checks :
  p mod 2 <> 0 /\ 2 <= n /\
  EC.isOnCurve ec (tuple_of (ec_G ec)) = Ok true /\
  exists M Inf, pointMult ec (ec_n ec - 1) (ec_G ec) = Ok M /\
                EC.add ec M (ec_G ec) = Ok Inf /\ py Inf = 0.
Proof.
  pose proof built_remaining as R. rewrite built_attributes.
  unfold remaining_checks in R. cbv zeta in R.
  repeat (apply andb_true_iff in R; destruct R as [R ?]).
  split.
  { apply negb_true_iff, Z.eqb_neq in R. exact R. }
  split.
  { unfold check_n_prime in *.
    match goal with H : (2 <=? n) && _ = true |- _ =>
      apply andb_true_iff in H; destruct H as [H _]; apply Z.leb_le in H;
      exact H end. }
  split.
  { unfold check_G_on_curve in *.
    match goal with H : Nat.eqb (List.length G) 2 && _ = true |- _ =>
      apply andb_true_iff in H; destruct H as [L On] end.
    apply Nat.eqb_eq in L.
    destruct G as [|gx [|gy [|gz G']]]; try discriminate.
    unfold tuple_of. cbn [EC_attributes ec_G px py nth].
    destruct (EC.isOnCurve _ _) as [[|]|]; [reflexivity|discriminate..]. }
  unfold check_order in *.
  match goal with H : match ?m with Ok _ => _ | Raise _ => _ end = true |- _ =>
    destruct m as [Inf|] eqn:E; [|discriminate];
    apply Z.eqb_eq in H; rename H into HInf end.
  apply bind_Ok in E. destruct E as [M [EM EI]].
  exists M, Inf. repeat split; assumption.
Qed.

Lemma built_n : ec_n ec = n /\ _p ec = p.
Proof. rewrite built_attributes. split; reflexivity. Qed.

(** n G is infinity: the scalar is reduced to zero before the loop. *)
Lemma pointMult_order : pointMult ec (ec_n ec) (ec_G ec) = Ok Point_default.
Proof.
  destruct built_checks as [_ [Hn [On _]]].
  destruct built_n as [En _].
  unfold pointMult, EC.requireOnCurve. rewrite On. cbn [negb raise_if bind].
  rewrite Z.mod_same by lia.
  unfold _pointMultJacobian. destruct (jz _ =? 0); reflexivity.
Qed.

(** (n - 1) G is the opposite of G. *)
Lemma pointMult_order_minus_one :
  Z.prime (_p ec) -> no_order_two ec ->
  py (ec_G ec) <> 0 -> 0 <= px (ec_G ec) < _p ec ->
  exists M, pointMult ec (ec_n ec - 1) (ec_G ec) = Ok M /\
            EC.opposite ec (ec_G ec) = Ok M.
Proof.
  intros Hp No Hy Hx.
  destruct built_checks as [Hodd [Hn [On [M [Inf [EM [EI HI]]]]]]].
  destruct built_n as [_ Ep].
  assert (odd_p : 2 < _p ec).
  { pose proof (Z.prime_ge_2 _ Hp). destruct (Z.eq_dec (_p ec) 2) as [E|]; [|lia].
    exfalso. apply Hodd. rewrite <- Ep, E. reflexivity. }
  exists M. split; [exact EM|].
  pose proof (pointMult_curve_point ec Hp odd_p No _ _ _ EM) as CM.
  pose proof (add_curve_point ec Hp odd_p No _ _ _ EI) as CI.
  pose proof (curve_point_infinity ec _ CI HI) as ->.
  (* the sum in affine terms *)
  assert (CanM : canonical ec M = M).
  { destruct CM as [->|[HxM [HyM _]]]; [reflexivity|].
    apply canonical_finite; lia. }
  assert (OnM : EC.isOnCurve ec (tuple_of M) = Ok true).
  { unfold EC.add in EI. apply bind_Ok in EI. destruct EI as [u [R _]].
    exact (requireOnCurve_Ok ec _ _ R). }
  pose proof (_jac_from_aff_repr ec Hp odd_p M OnM) as RM.
  pose proof (_jac_from_aff_repr ec Hp odd_p _ On) as RG.
  rewrite CanM in RM. rewrite (canonical_finite ec _ Hx Hy) in RG.
  pose proof (isOnCurve_canonical ec odd_p _ On) as CG.
  rewrite (canonical_finite ec _ Hx Hy) in CG.
  destruct (_addJacobian_closed ec Hp odd_p No _ _ _ _ RM RG CM CG)
    as [C [EA [CC RC]]].
  assert (C = Point_default) as ->.
  { unfold EC.add in EI. apply bind_Ok in EI. destruct EI as [u1 [_ EI]].
    apply bind_Ok in EI. destruct EI as [u2 [_ EI]].
    rewrite (_affine_from_jac_repr ec Hp odd_p _ _ (proj1 RC)) in EI.
    apply Ok_inj in EI. exact EI. }
  destruct (_addAffine_closed ec Hp odd_p No _ _ _ CM CG EA) as [_ Inf0].
  specialize (Inf0 eq_refl). unfold affine_sum_infinite in Inf0.
  destruct (Z.eqb_spec (py (ec_G ec)) 0) as [|_]; [contradiction|].
  destruct (Z.eqb_spec (py M) 0) as [|HyM]; [discriminate|].
  apply andb_true_iff in Inf0. destruct Inf0 as [Ex Ey].
  apply Z.eqb_eq in Ex. apply negb_true_iff, Z.eqb_neq in Ey.
  (* both on the curve with the same x: opposite y *)
  destruct CM as [->|[HxM [HyM' EqM]]]; [cbn in HyM; contradiction|].
  destruct CG as [EG|[_ [HyG EqG]]]; [rewrite EG in Hy; cbn in Hy; contradiction|].
  assert (Sq : (py M * py M) mod _p ec = (py (ec_G ec) * py (ec_G ec)) mod _p ec).
  { rewrite <- EqM, <- EqG, Ex. reflexivity. }
  destruct (square_roots_prime (_p ec) (py M) (py (ec_G ec)) Hp ltac:(lia) HyG Sq)
    as [E|E];
    [symmetry in E; contradiction|].
  unfold EC.opposite, EC.requireOnCurve. rewrite On. cbn [negb raise_if bind].
  destruct (Z.eqb_spec (py (ec_G ec)) 0) as [|_]; [contradiction|].
  f_equal. destruct M as [mx my]. cbn [px py] in *. subst. reflexivity.
Qed.

End Constructed.

(** C5, as amended.  For every successfully constructed curve
    [pointMult(ec, n, G)] is [Point()], and [pointMult] reduces its scalar
    modulo n; when moreover p is prime, no point of the curve has y = 0
    and G is finite with x in [0, p), [pointMult(ec, n - 1, G)] is
    [opposite(G)]. *)
Theorem generator_order {FL : PyFloat} (p a b : Z) (G : list Z) (n h t : Z)
  (all_checks : bool) (ec : EC) :
  EC__init__ p a b G n h t all_checks = Ok ec ->
  pointMult ec (ec_n ec) (ec_G ec) = Ok Point_default /\
  (forall k Q, pointMult ec k Q = pointMult ec (k mod ec_n ec) Q) /\
  (Z.prime (_p ec) -> no_order_two ec ->
   py (ec_G ec) <> 0 -> 0 <= px (ec_G ec) < _p ec ->
   exists M, pointMult ec (ec_n ec - 1) (ec_G ec) = Ok M /\
             EC.opposite ec (ec_G ec) = Ok M).
Proof.
  intros B. split; [|split].
  - exact (pointMult_order p a b G n h t all_checks ec B).
  - intros k Q. unfold pointMult.
    destruct (built_checks p a b G n h t all_checks ec B) as [_ [Hn _]].
    destruct (built_n p a b G n h t all_checks ec B) as [En _].
    rewrite Z.mod_mod by lia. reflexivity.
  - exact (pointMult_order_minus_one p a b G n h t all_checks ec B).
Qed.

Lemma generator_order_witness :
  pointMult ec7 (ec_n ec7) (ec_G ec7) = Ok Point_default /\
  (forall k Q, pointMult ec7 k Q = pointMult ec7 (k mod ec_n ec7) Q) /\
  exists M, pointMult ec7 (ec_n ec7 - 1) (ec_G ec7) = Ok M /\
            EC.opposite ec7 (ec_G ec7) = Ok M.
Proof.
  destruct (generator_order (FL:=exact_float) 7 0 3 [1; 2] 13 1 0 false ec7
              eq_refl) as [H1 [H2 H3]].
  split; [exact H1|]. split; [exact H2|].
  apply H3.
  - exact prime_7.
  - exact no_order_two_ec7.
  - discriminate.
  - cbn. lia.
Defined.

(** C5 as stated fails on three successfully constructed curves: with a
    generator of order four and n = 2 ((n-1)G + G has y = 0, which the
    constructor takes for infinity), with the point at infinity written
    (5, 0) as generator, and with a generator whose x is not reduced. *)
Lemma generator_order_fails :
  (EC__init__ (FL:=exact_float) 3 1 0 [2; 1] 2 3 0 false = Ok ec3 /\
   pointMult ec3 (ec_n ec3 - 1) (ec_G ec3) = Ok (mkPoint 2 1) /\
   EC.opposite ec3 (ec_G ec3) = Ok (mkPoint 2 2)) /\
  (let ec := EC_attributes 11 0 1 [5; 0] 3 6 0 in
   EC__init__ (FL:=exact_float) 11 0 1 [5; 0] 3 6 0 false = Ok ec /\
   pointMult ec (ec_n ec - 1) (ec_G ec) = Ok (mkPoint 1 0) /\
   EC.opposite ec (ec_G ec) = Ok (mkPoint 5 0)) /\
  (let ec := EC_attributes 11 0 1 [11; 1] 3 6 0 in
   EC__init__ (FL:=exact_float) 11 0 1 [11; 1] 3 6 0 false = Ok ec /\
   pointMult ec (ec_n ec - 1) (ec_G ec) = Ok (mkPoint 0 10) /\
   EC.opposite ec (ec_G ec) = Ok (mkPoint 11 10)).
Proof. vm_compute. repeat split. Qed.

(** ** The encoding of infinity in results *)

Lemma infinity_is_canonical_witness :
  (forall Q1 Q2 P, EC.add ec7 Q1 Q2 = Ok P -> py P = 0 -> P = Point_default) /\
  (forall k Q P, pointMult ec7 k Q = Ok P -> py P = 0 -> P = Point_default) /\
  (forall u Q v P S,
     DblScalarMult ec7 u Q v P = Ok S -> py S = 0 -> S = Point_default).
Proof.
  apply (infinity_is_canonical ec7 prime_7 ltac:(reflexivity) no_order_two_ec7).
Defined.

(** C8 as stated fails on a curve with a point of order two: twice the
    point (5, 4) of order four is (10, 0), a result with y = 0 that is
    not [Point()], from each of the three functions. *)
Lemma order_two_result_not_canonical :
  EC__init__ (FL:=exact_float) 11 0 1 [0; 1] 3 6 0 false = Ok ec11 /\
  EC.isOnCurve ec11 (tuple_of (mkPoint 5 4)) = Ok true /\
  EC.add ec11 (mkPoint 5 4) (mkPoint 5 4) = Ok (mkPoint 10 0) /\
  pointMult ec11 2 (mkPoint 5 4) = Ok (mkPoint 10 0) /\
  DblScalarMult ec11 1 (mkPoint 5 4) 1 (mkPoint 5 4) = Ok (mkPoint 10 0) /\
  mkPoint 10 0 <> Point_default.
Proof. vm_compute. repeat split. discriminate. Qed.

(** ** Double-and-add and Shamir's trick in a commutative monoid *)

(** The test [u >> (msb - 1)] of Shamir's loop on a scalar of at most
    m + 1 bits, and the bit it clears. *)
Lemma top_bit (u m : Z) :
  0 <= m -> 0 <= u < 2 ^ (m + 1) ->
  ((Z.shiftr u m =? 0) = true /\ u < 2 ^ m) \/
  ((Z.shiftr u m =? 0) = false /\ 2 ^ m <= u /\
   u - 2 ^ (bit_length u - 1) = u - 2 ^ m).
Proof.
  intros Hm Hu.
  pose proof (Z.pow_pos_nonneg 2 m ltac:(lia) Hm) as P2.
  rewrite Z.shiftr_div_pow2 by exact Hm.
  destruct (Z.lt_ge_cases u (2 ^ m)) as [L|L].
  - left. split; [|exact L]. apply Z.eqb_eq. apply Z.div_small. lia.
  - right. split; [|split; [exact L|]].
    + apply Z.eqb_neq. intros E.
      apply Z.div_small_iff in E; lia.
    + unfold bit_length. destruct (Z.eqb_spec u 0) as [->|_]; [lia|].
      rewrite Z.abs_eq by lia.
      rewrite (Z.log2_unique u m); [|lia|unfold Z.succ; lia].
      replace (m + 1 - 1) with m by lia. reflexivity.
Qed.

Section CommutativeMonoid.
Context {G : Type} (op : G -> G -> G) (e : G).
Context {op_assoc : Associative eq op} {op_comm : Commutative eq op}
  {op_unit : Unit eq op e}.

#[local] Instance op_proper : Proper (eq ==> eq ==> eq) op.
Proof. intros a a' -> b b' ->. reflexivity. Qed.

Lemma nmul_add (j k : nat) (a : G) :
  nmul op e (j + k) a = op (nmul op e j a) (nmul op e k a).
Proof.
  induction j as [|j IH]; cbn [nmul Nat.add].
  - aac_reflexivity.
  - rewrite IH. aac_reflexivity.
Qed.

Lemma nmul_op (k : nat) (a b : G) :
  nmul op e k (op a b) = op (nmul op e k a) (nmul op e k b).
Proof.
  induction k as [|k IH]; cbn [nmul].
  - aac_reflexivity.
  - rewrite IH. aac_reflexivity.
Qed.

Lemma nmul_e (k : nat) : nmul op e k e = e.
Proof.
  induction k as [|k IH]; cbn [nmul]; [reflexivity|].
  rewrite IH. aac_reflexivity.
Qed.

Lemma nmul_double (k : nat) (a : G) :
  nmul op e k (op a a) = nmul op e (k + k) a.
Proof. rewrite nmul_op, nmul_add. reflexivity. Qed.

(** The loop of [_pointMultJacobian] adds n times [d] to [r]. *)
Lemma double_and_add_correct (n : positive) :
  forall r d, double_and_add op n r d = op r (nmul op e (Pos.to_nat n) d).
Proof.
  induction n as [n IH|n IH|]; intros r d; cbn [double_and_add].
  - rewrite IH, nmul_double, Pos2Nat.inj_xI.
    replace (S (2 * Pos.to_nat n)) with (1 + (Pos.to_nat n + Pos.to_nat n))%nat
      by lia.
    cbn [nmul Nat.add]. aac_reflexivity.
  - rewrite IH, nmul_double, Pos2Nat.inj_xO.
    replace (2 * Pos.to_nat n)%nat with (Pos.to_nat n + Pos.to_nat n)%nat by lia.
    reflexivity.
  - change (Pos.to_nat 1) with 1%nat. cbn [nmul]. aac_reflexivity.
Qed.

Lemma nmul_to_nat_add (a b : Z) (x : G) :
  0 <= a -> 0 <= b ->
  nmul op e (Z.to_nat (a + b)) x =
  op (nmul op e (Z.to_nat a) x) (nmul op e (Z.to_nat b) x).
Proof.
  intros Ha Hb. rewrite Z2Nat.inj_add by assumption. apply nmul_add.
Qed.

(** Shamir's loop on scalars of at most [msb] bits. *)
Lemma shamir_correct (q p : G) (msb : nat) :
  forall u v r,
    0 <= u < 2 ^ Z.of_nat msb -> 0 <= v < 2 ^ Z.of_nat msb ->
    shamir op q p msb u v r =
    op (lead op e msb r)
       (op (nmul op e (Z.to_nat u) q) (nmul op e (Z.to_nat v) p)).
Proof.
  induction msb as [|m IH]; intros u v r Hu Hv.
  - change (2 ^ Z.of_nat 0) with 1 in *.
    assert (u = 0) as -> by lia. assert (v = 0) as -> by lia.
    cbn. aac_reflexivity.
  - cbn [shamir].
    assert (Hu' : 0 <= u < 2 ^ (Z.of_nat m + 1))
      by (rewrite Nat2Z.inj_succ in Hu; exact Hu).
    assert (Hv' : 0 <= v < 2 ^ (Z.of_nat m + 1))
      by (rewrite Nat2Z.inj_succ in Hv; exact Hv).
    destruct (top_bit u (Z.of_nat m) ltac:(lia) Hu')
      as [[-> Hu1]|[-> [Hu1 Eu]]];
      destruct (top_bit v (Z.of_nat m) ltac:(lia) Hv')
        as [[-> Hv1]|[-> [Hv1 Ev]]];
      cbv beta iota zeta; rewrite ?Eu, ?Ev.
    all: rewrite Nat2Z.inj_succ, Z.pow_succ_r in Hu, Hv by lia.
    all: pose proof (Z.pow_pos_nonneg 2 (Z.of_nat m) ltac:(lia) ltac:(lia)) as P2.
    all: destruct m as [|m'];
      [ change (1 <? Z.of_nat 1) with false; cbv iota; cbn [shamir lead];
        change (2 ^ Z.of_nat 0) with 1 in *
      | replace (1 <? Z.of_nat (S (S m'))) with true
          by (symmetry; apply Z.ltb_lt; lia);
        cbv iota; rewrite IH by lia; cbn [lead];
        rewrite nmul_double, <- Z2Nat.inj_add by lia;
        replace (2 ^ Z.of_nat m' + 2 ^ Z.of_nat m')
          with (2 ^ Z.of_nat (S m'))
          by (rewrite (Nat2Z.inj_succ m'), Z.pow_succ_r by lia; lia) ].
    (* no bit *)
    + assert (u = 0) as -> by lia. assert (v = 0) as -> by lia.
      change (Z.to_nat 1) with 1%nat. change (Z.to_nat 0) with 0%nat.
      cbn [nmul]. aac_reflexivity.
    + reflexivity.
    (* the bit of v *)
    + assert (u = 0) as -> by lia. assert (v = 1) as -> by lia.
      change (Z.to_nat 1) with 1%nat. change (Z.to_nat 0) with 0%nat.
      cbn [nmul]. aac_reflexivity.
    + rewrite nmul_op.
      replace v with (2 ^ Z.of_nat (S m') + (v - 2 ^ Z.of_nat (S m'))) at 2 by lia.
      rewrite nmul_to_nat_add by lia. aac_reflexivity.
    (* the bit of u *)
    + assert (u = 1) as -> by lia. assert (v = 0) as -> by lia.
      change (Z.to_nat 1) with 1%nat. change (Z.to_nat 0) with 0%nat.
      cbn [nmul]. aac_reflexivity.
    + rewrite nmul_op.
      replace u with (2 ^ Z.of_nat (S m') + (u - 2 ^ Z.of_nat (S m'))) at 2 by lia.
      rewrite nmul_to_nat_add by lia. aac_reflexivity.
    (* both bits *)
    + assert (u = 1) as -> by lia. assert (v = 1) as -> by lia.
      change (Z.to_nat 1) with 1%nat. change (Z.to_nat 0) with 0%nat.
      cbn [nmul]. aac_reflexivity.
    + rewrite !nmul_op.
      replace u with (2 ^ Z.of_nat (S m') + (u - 2 ^ Z.of_nat (S m'))) at 2 by lia.
      replace v with (2 ^ Z.of_nat (S m') + (v - 2 ^ Z.of_nat (S m'))) at 2 by lia.
      rewrite !nmul_to_nat_add by lia. aac_reflexivity.
Qed.

End CommutativeMonoid.

(** ** The group law over the field [Zmod p]

    Associativity of the chord-and-tangent law on a curve
    y^2 = x^3 + a x + b without a point of order two, over [Zmod p] for
    a prime p > 2.  The algebra is four identities of rational
    functions, for the four ways in which (P + Q) + R and P + (Q + R)
    can be made of chords and tangents; the rest is the cancellation
    law - P + (P + Q) = Q and an analysis of cases. *)

Lemma Some_pair_inj {A B : Type} (x x' : A) (y y' : B) :
  Some (x, y) = Some (x', y') -> x = x' /\ y = y'.
Proof.
  intros E. split.
  - exact (f_equal (fun o => match o with Some (u, _) => u | None => x end) E).
  - exact (f_equal (fun o => match o with Some (_, v) => v | None => y end) E).
Qed.

Section FieldLaw.
Variable p : Z.
Hypothesis prime_p : Z.prime p.
Hypothesis odd_p : 2 < p.
Variables a b : Zmod p.
Hypothesis no_root :
  forall x : Zmod p, (x * x * x + a * x + b)%Zmod <> Zmod.zero.

Add Field zmod_field_l : (Zmod.field_theory p prime_p)
  (morphism (of_Z_morph p), constants [zmod_cst]).

Local Open Scope Zmod_scope.
Local Notation "P +' Q" := (fadd a P Q) (at level 50, left associativity).

Lemma two_nonzero : Zmod.of_Z p 2 <> 0.
Proof. apply of_Z_small_nonzero. lia. Qed.

Lemma fmul_zero (x y : Zmod p) : x * y = 0 -> x = 0 \/ y = 0.
Proof. intros H. apply (Zmod.mul_0_iff_prime prime_p). exact H. Qed.

Lemma fmul_nonzero (x y : Zmod p) : x <> 0 -> y <> 0 -> x * y <> 0.
Proof. intros Hx Hy H. destruct (fmul_zero _ _ H); contradiction. Qed.

Lemma fsub_nonzero (x y : Zmod p) : x <> y -> x - y <> 0.
Proof.
  intros H E. apply H.
  replace x with ((x - y) + y) by ring. rewrite E. ring.
Qed.

Lemma fsub_zero (x y : Zmod p) : x - y = 0 -> x = y.
Proof.
  intros E. replace x with ((x - y) + y) by ring. rewrite E. ring.
Qed.

Lemma on_y_nonzero (x y : Zmod p) : fon a b (Some (x, y)) -> y <> 0.
Proof.
  cbn. intros E Hy. apply (no_root x). rewrite <- E, Hy. ring.
Qed.

Lemma on_2y_nonzero (x y : Zmod p) :
  fon a b (Some (x, y)) -> Zmod.of_Z p 2 * y <> 0.
Proof.
  intros H.
  apply fmul_nonzero; [apply two_nonzero | exact (on_y_nonzero _ _ H)].
Qed.

Lemma y_not_opp (x y : Zmod p) : fon a b (Some (x, y)) -> y <> - y.
Proof.
  intros H E. apply (on_2y_nonzero _ _ H).
  replace (Zmod.of_Z p 2 * y) with (y - - y) by ring. rewrite <- E. ring.
Qed.

Lemma same_x (x y1 y2 : Zmod p) :
  fon a b (Some (x, y1)) -> fon a b (Some (x, y2)) -> y2 = y1 \/ y2 = - y1.
Proof.
  cbn. intros E1 E2.
  assert (H : (y2 - y1) * (y2 + y1) = 0) by ring [E1 E2].
  destruct (fmul_zero _ _ H) as [H0|H0]; [left|right].
  - replace y2 with ((y2 - y1) + y1) by ring. rewrite H0. ring.
  - replace y2 with ((y2 + y1) - y1) by ring. rewrite H0. ring.
Qed.

Lemma fopp_nonzero (x : Zmod p) : x <> 0 -> - x <> 0.
Proof.
  intros H E. apply H. replace x with (- - x) by ring. rewrite E. ring.
Qed.

Ltac fnz :=
  repeat match goal with |- _ /\ _ => split end;
  first [ assumption | apply two_nonzero | apply fopp_nonzero; assumption
        | idtac ].

(** A side condition of [field] that is the numerator of a non-zero
    quotient [N]. *)
Ltac fnz_by N :=
  let Hc := fresh "Hc" in
  intro Hc; apply N; field_simplify_eq;
  [ etransitivity; [|exact Hc]; ring | fnz ].

Ltac fnz_hyps :=
  fnz;
  try match goal with
      | N : _ <> 0 |- _ <> 0 => solve [fnz_by N]
      end.

Lemma fadd_chord (x1 y1 x2 y2 : Zmod p) :
  x2 <> x1 ->
  Some (x1, y1) +' Some (x2, y2) =
  fchord (Zmod.mdiv (y2 - y1) (x2 - x1)) x1 y1 x2.
Proof.
  intros N. unfold fadd. destruct (Zmod.eqb_spec x2 x1); [contradiction|].
  reflexivity.
Qed.

Lemma fadd_tangent (x y : Zmod p) :
  Some (x, y) +' Some (x, y) =
  fchord (Zmod.mdiv (Zmod.of_Z p 3 * x * x + a) (Zmod.of_Z p 2 * y)) x y x.
Proof. unfold fadd. rewrite !Zmod.eqb_refl. reflexivity. Qed.

Lemma fadd_opp_r (P : fpoint p) : fon a b P -> P +' fopp P = None.
Proof.
  destruct P as [[x y]|]; [|reflexivity]. intros H. unfold fadd, fopp.
  rewrite Zmod.eqb_refl.
  destruct (Zmod.eqb_spec (- y) y) as [E|_]; [|reflexivity].
  exfalso. apply (y_not_opp x y H). symmetry. exact E.
Qed.

Lemma fopp_fopp (P : fpoint p) : fopp (fopp P) = P.
Proof.
  destruct P as [[x y]|]; [|reflexivity]. cbn. do 2 f_equal. ring.
Qed.

Lemma fon_fopp (P : fpoint p) : fon a b P -> fon a b (fopp P).
Proof.
  destruct P as [[x y]|]; [|trivial]. cbn. intros E. ring [E].
Qed.

(** Two finite points of the curve are equal, opposite, or have
    different abscissas. *)
Lemma trichotomy (x1 y1 x2 y2 : Zmod p) :
  fon a b (Some (x1, y1)) -> fon a b (Some (x2, y2)) ->
  Some (x2, y2) = Some (x1, y1) \/ Some (x2, y2) = fopp (Some (x1, y1)) \/
  x2 <> x1.
Proof.
  intros H1 H2. destruct (Zmod.eqb_spec x2 x1) as [->|N]; [|auto].
  destruct (same_x _ _ _ H1 H2) as [->| ->]; auto.
Qed.

Lemma fadd_None_l (P : fpoint p) : None +' P = P.
Proof. reflexivity. Qed.

Lemma fadd_None_r (P : fpoint p) : P +' None = P.
Proof. destruct P as [[x y]|]; reflexivity. Qed.

Lemma fadd_on (P Q : fpoint p) : fon a b P -> fon a b Q -> fon a b (P +' Q).
Proof.
  destruct P as [[x1 y1]|]; [|trivial].
  destruct Q as [[x2 y2]|]; [|trivial]. intros H1 H2.
  destruct (trichotomy _ _ _ _ H1 H2) as [E|[E|N]].
  - injection E as -> ->. rewrite fadd_tangent.
    pose proof (on_y_nonzero _ _ H1). cbn in *. unfold Zmod.mdiv.
    field [H1]. fnz.
  - rewrite E, fadd_opp_r by assumption. exact I.
  - rewrite fadd_chord by assumption. apply fsub_nonzero in N.
    cbn in *. field [H1 H2]. fnz.
Qed.

Lemma fadd_comm (P Q : fpoint p) :
  fon a b P -> fon a b Q -> P +' Q = Q +' P.
Proof.
  destruct P as [[x1 y1]|]; [|intros; rewrite fadd_None_r; reflexivity].
  destruct Q as [[x2 y2]|]; [|reflexivity]. intros H1 H2.
  destruct (trichotomy _ _ _ _ H1 H2) as [E|[E|N]].
  - injection E as -> ->. reflexivity.
  - rewrite E, fadd_opp_r by assumption.
    rewrite <- (fopp_fopp (Some (x1, y1))) at 2.
    rewrite fadd_opp_r by (apply fon_fopp; assumption). reflexivity.
  - rewrite !fadd_chord by congruence.
    assert (x2 - x1 <> 0) by (apply fsub_nonzero; assumption).
    assert (x1 - x2 <> 0) by (apply fsub_nonzero; congruence).
    unfold fchord. do 2 f_equal; field; fnz.
Qed.

Lemma fopp_fadd (P Q : fpoint p) :
  fon a b P -> fon a b Q -> fopp (P +' Q) = fopp P +' fopp Q.
Proof.
  destruct P as [[x1 y1]|]; [|reflexivity].
  destruct Q as [[x2 y2]|]; [|reflexivity]. intros H1 H2.
  destruct (trichotomy _ _ _ _ H1 H2) as [E|[E|N]].
  - injection E as -> ->. cbn [fopp]. rewrite !fadd_tangent.
    pose proof (on_y_nonzero _ _ H1).
    unfold fchord. cbn [fopp]. do 2 f_equal; field; fnz.
  - rewrite E, fadd_opp_r by assumption.
    rewrite fadd_opp_r by (apply fon_fopp; assumption). reflexivity.
  - cbn [fopp]. rewrite !fadd_chord by assumption.
    apply fsub_nonzero in N.
    unfold fchord. cbn [fopp]. do 2 f_equal; field; fnz.
Qed.

Lemma cancel_tangent_chord (x1 y1 : Zmod p) :
  fon a b (Some (x1, y1)) ->
  let l := Zmod.mdiv (Zmod.of_Z p 3 * x1 * x1 + a) (Zmod.of_Z p 2 * y1) in
  let x4 := l * l - x1 - x1 in
  let y4 := l * (x1 - x4) - y1 in
  x4 <> x1 ->
  fchord (Zmod.mdiv (y4 - - y1) (x4 - x1)) x1 (- y1) x4 = Some (x1, y1).
Proof.
  intros H1 l x4 y4 N.
  pose proof (on_y_nonzero _ _ H1) as Y1. cbn in H1.
  apply fsub_nonzero in N.
  unfold fchord. subst l x4 y4. 
  do 2 f_equal. 
  - field [H1]. all: fnz_hyps.
  - field [H1]. all: fnz_hyps.
Qed.

Lemma cancel_chord_chord (x1 y1 x2 y2 : Zmod p) :
  fon a b (Some (x1, y1)) -> fon a b (Some (x2, y2)) -> x2 <> x1 ->
  let l := Zmod.mdiv (y2 - y1) (x2 - x1) in
  let x4 := l * l - x1 - x2 in
  let y4 := l * (x1 - x4) - y1 in
  x4 <> x1 ->
  fchord (Zmod.mdiv (y4 - - y1) (x4 - x1)) x1 (- y1) x4 = Some (x2, y2).
Proof.
  intros H1 H2 N12 l x4 y4 N.
  cbn in H1, H2. apply fsub_nonzero in N, N12.
  unfold fchord. subst l x4 y4.
  do 2 f_equal.
  - field [H1 H2]. all: fnz_hyps.
  - field [H1 H2]. all: fnz_hyps.
Qed.

(** The chord through two points of the curve meets it at x1, x2 and
    x4: the derivative at x1 of the cubic they are the roots of. *)
Lemma tangent_identity (x1 y1 x2 y2 : Zmod p) :
  fon a b (Some (x1, y1)) -> fon a b (Some (x2, y2)) -> x2 <> x1 ->
  let l := Zmod.mdiv (y2 - y1) (x2 - x1) in
  let x4 := l * l - x1 - x2 in
  Zmod.of_Z p 3 * x1 * x1 + a - Zmod.of_Z p 2 * l * y1 = (x1 - x2) * (x1 - x4).
Proof.
  intros H1 H2 N12 l x4. cbn in H1, H2. apply fsub_nonzero in N12.
  subst l x4. field [H1 H2]. fnz.
Qed.

(** The chord through P and Q is tangent at P when P + Q = -P: then
    2 (-P) = Q. *)
Lemma cancel_chord_tangent (x1 y1 x2 y2 : Zmod p) :
  fon a b (Some (x1, y1)) -> fon a b (Some (x2, y2)) -> x2 <> x1 ->
  let l := Zmod.mdiv (y2 - y1) (x2 - x1) in
  l * l - x1 - x2 = x1 ->
  fchord (Zmod.mdiv (Zmod.of_Z p 3 * x1 * x1 + a) (Zmod.of_Z p 2 * - y1))
    x1 (- y1) x1 = Some (x2, y2).
Proof.
  intros H1 H2 N12 l Hx.
  pose proof (tangent_identity _ _ _ _ H1 H2 N12) as T. cbv zeta in T.
  fold l in T. rewrite Hx in T.
  pose proof (on_y_nonzero _ _ H1) as Y1.
  assert (Hl : l * (x2 - x1) = y2 - y1).
  { subst l. field. apply fsub_nonzero. exact N12. }
  assert (Ht : Zmod.of_Z p 3 * x1 * x1 + a = Zmod.of_Z p 2 * l * y1).
  { apply fsub_zero. rewrite T. ring. }
  rewrite Ht.
  replace (Zmod.mdiv (Zmod.of_Z p 2 * l * y1) (Zmod.of_Z p 2 * - y1)) with (- l)
    by (field; fnz).
  assert (Hx2 : - l * - l - x1 - x1 = x2).
  { apply fsub_zero.
    replace (- l * - l - x1 - x1 - x2) with (l * l - x1 - x2 - x1) by ring.
    rewrite Hx. ring. }
  unfold fchord. rewrite Hx2. do 2 f_equal.
  replace (- l * (x1 - x2) - - y1) with (l * (x2 - x1) + y1) by ring.
  rewrite Hl. ring.
Qed.

(** - P + (P + Q) = Q *)
Lemma fadd_cancel (P Q : fpoint p) :
  fon a b P -> fon a b Q -> fopp P +' (P +' Q) = Q.
Proof.
  destruct P as [[x1 y1]|]; [|reflexivity].
  destruct Q as [[x2 y2]|].
  2:{ intros H1 _. rewrite fadd_None_r.
      rewrite <- (fopp_fopp (Some (x1, y1))) at 2.
      apply fadd_opp_r, fon_fopp, H1. }
  intros H1 H2.
  pose proof (fon_fopp _ H1) as H1'. cbn [fopp] in H1'.
  destruct (trichotomy _ _ _ _ H1 H2) as [E|[E|N12]].
  - (* Q = P *)
    injection E as -> ->. rewrite fadd_tangent.
    set (l := Zmod.mdiv _ _).
    pose proof (fadd_on _ _ H1 H1) as H4. rewrite fadd_tangent in H4.
    fold l in H4. unfold fchord in H4 |- *.
    set (x4 := l * l - x1 - x1) in *. set (y4 := l * (x1 - x4) - y1) in *.
    cbn [fopp].
    destruct (trichotomy _ _ _ _ H1' H4) as [E|[E|N]].
    + (* 2P = -P *)
      rewrite E.
      change (Some (x1, - y1)) with (fopp (Some (x1, y1))).
      rewrite <- fopp_fadd by assumption.
      rewrite fadd_tangent. fold l. unfold fchord. fold x4 y4.
      rewrite E. apply (fopp_fopp (Some (x1, y1))).
    + (* 2P = P *)
      exfalso. cbn [fopp] in E. apply Some_pair_inj in E as [Ex Ey].
      assert (y4 = - y1) by (subst y4; rewrite Ex; ring).
      apply (y_not_opp _ _ H1).
      transitivity y4; [rewrite Ey; ring | assumption].
    + rewrite fadd_chord by assumption.
      apply (cancel_tangent_chord x1 y1 H1 N).
  - (* Q = -P *)
    rewrite E, fadd_opp_r by assumption. apply fadd_None_r.
  - rewrite fadd_chord by assumption.
    set (l := Zmod.mdiv _ _).
    pose proof (fadd_on _ _ H1 H2) as H4.
    rewrite fadd_chord in H4 by assumption.
    fold l in H4. unfold fchord in H4 |- *.
    set (x4 := l * l - x1 - x2) in *. set (y4 := l * (x1 - x4) - y1) in *.
    cbn [fopp].
    destruct (trichotomy _ _ _ _ H1' H4) as [E|[E|N]].
    + (* P + Q = -P *)
      rewrite E, fadd_tangent. apply Some_pair_inj in E as [Ex _].
      apply (cancel_chord_tangent x1 y1 x2 y2 H1 H2 N12 Ex).
    + exfalso. cbn [fopp] in E. apply Some_pair_inj in E as [Ex Ey].
      assert (y4 = - y1) by (subst y4; rewrite Ex; ring).
      apply (y_not_opp _ _ H1).
      transitivity y4; [rewrite Ey; ring | assumption].
    + rewrite fadd_chord by assumption.
      apply (cancel_chord_chord x1 y1 x2 y2 H1 H2 N12 N).
Qed.

Lemma fadd_cancel_opp (P Q : fpoint p) :
  fon a b P -> fon a b Q -> P +' (fopp P +' Q) = Q.
Proof.
  intros HP HQ. rewrite <- (fopp_fopp P) at 1.
  apply fadd_cancel; [apply fon_fopp|]; assumption.
Qed.

Lemma fadd_inj_l (P Q R : fpoint p) :
  fon a b P -> fon a b Q -> fon a b R -> P +' Q = P +' R -> Q = R.
Proof.
  intros HP HQ HR E.
  rewrite <- (fadd_cancel P Q), <- (fadd_cancel P R), E by assumption.
  reflexivity.
Qed.

(** Associativity when the four sums are chords. *)
Lemma assoc_chords (x1 y1 x2 y2 x3 y3 : Zmod p) :
  fon a b (Some (x1, y1)) -> fon a b (Some (x2, y2)) ->
  fon a b (Some (x3, y3)) ->
  x2 <> x1 -> x3 <> x2 ->
  let l12 := Zmod.mdiv (y2 - y1) (x2 - x1) in
  let x4 := l12 * l12 - x1 - x2 in
  let y4 := l12 * (x1 - x4) - y1 in
  let l23 := Zmod.mdiv (y3 - y2) (x3 - x2) in
  let x5 := l23 * l23 - x2 - x3 in
  let y5 := l23 * (x2 - x5) - y2 in
  x3 <> x4 -> x5 <> x1 ->
  fchord (Zmod.mdiv (y3 - y4) (x3 - x4)) x4 y4 x3 =
  fchord (Zmod.mdiv (y5 - y1) (x5 - x1)) x1 y1 x5.
Proof.
  intros H1 H2 H3 N12 N23 l12 x4 y4 l23 x5 y5 N34 N51.
  cbn in H1, H2, H3. apply fsub_nonzero in N12, N23, N34, N51.
  unfold fchord. subst l12 x4 y4 l23 x5 y5.
  do 2 f_equal.
  - field [H1 H2 H3]. all: fnz_hyps.
  - field [H1 H2 H3]. all: fnz_hyps.
Qed.

(** (P + P) + R = P + (P + R), a tangent and three chords. *)
Lemma assoc_tangent_chords (x1 y1 x3 y3 : Zmod p) :
  fon a b (Some (x1, y1)) -> fon a b (Some (x3, y3)) ->
  x3 <> x1 ->
  let l11 := Zmod.mdiv (Zmod.of_Z p 3 * x1 * x1 + a) (Zmod.of_Z p 2 * y1) in
  let x4 := l11 * l11 - x1 - x1 in
  let y4 := l11 * (x1 - x4) - y1 in
  let l13 := Zmod.mdiv (y3 - y1) (x3 - x1) in
  let x5 := l13 * l13 - x1 - x3 in
  let y5 := l13 * (x1 - x5) - y1 in
  x3 <> x4 -> x5 <> x1 ->
  fchord (Zmod.mdiv (y3 - y4) (x3 - x4)) x4 y4 x3 =
  fchord (Zmod.mdiv (y5 - y1) (x5 - x1)) x1 y1 x5.
Proof.
  intros H1 H3 N13 l11 x4 y4 l13 x5 y5 N34 N51.
  pose proof (on_y_nonzero _ _ H1) as Y1.
  cbn in H1, H3. apply fsub_nonzero in N13, N34, N51.
  unfold fchord. subst l11 x4 y4 l13 x5 y5.
  do 2 f_equal.
  - field [H1 H3]. all: fnz_hyps.
  - field [H1 H3]. all: fnz_hyps.
Qed.

(** A chord and a tangent by their slope: with the slope as a
    variable, y2 and a are polynomials and the curve equations hold by
    themselves. *)
Lemma chord_parameters (x1 y1 x2 y2 : Zmod p) :
  fon a b (Some (x1, y1)) -> fon a b (Some (x2, y2)) -> x2 <> x1 ->
  let l := Zmod.mdiv (y2 - y1) (x2 - x1) in
  y2 = y1 + l * (x2 - x1) /\
  a = Zmod.of_Z p 2 * l * y1 + l * l * (x2 - x1) - x2 * x2 - x1 * x2 - x1 * x1.
Proof.
  intros H1 H2 N12 l. cbn in H1, H2. apply fsub_nonzero in N12.
  assert (Hy2 : y2 = y1 + l * (x2 - x1)) by (subst l; field; exact N12).
  split; [exact Hy2|]. clearbody l. rewrite Hy2 in H2.
  apply fsub_zero.
  assert (M : (x2 - x1) *
              (a - (Zmod.of_Z p 2 * l * y1 + l * l * (x2 - x1) - x2 * x2 -
                    x1 * x2 - x1 * x1)) = 0).
  { transitivity
      ((x2 * x2 * x2 + a * x2 + b) - (x1 * x1 * x1 + a * x1 + b) -
       ((y1 + l * (x2 - x1)) * (y1 + l * (x2 - x1)) - y1 * y1)); [ring|].
    rewrite <- H1, <- H2. ring. }
  destruct (fmul_zero _ _ M) as [Z0|Z0]; [contradiction | exact Z0].
Qed.

Lemma tangent_parameters (x1 y1 : Zmod p) :
  fon a b (Some (x1, y1)) ->
  let l := Zmod.mdiv (Zmod.of_Z p 3 * x1 * x1 + a) (Zmod.of_Z p 2 * y1) in
  a = Zmod.of_Z p 2 * l * y1 - Zmod.of_Z p 3 * x1 * x1.
Proof.
  intros H1 l. pose proof (on_y_nonzero _ _ H1) as Y1.
  subst l. field. fnz.
Qed.

(** (P + Q) + (P + Q) = P + (Q + (P + Q)), a tangent at the sum. *)
Lemma assoc_chord_tangent (x1 y1 x2 y2 : Zmod p) :
  fon a b (Some (x1, y1)) -> fon a b (Some (x2, y2)) ->
  x2 <> x1 ->
  let l12 := Zmod.mdiv (y2 - y1) (x2 - x1) in
  let x4 := l12 * l12 - x1 - x2 in
  let y4 := l12 * (x1 - x4) - y1 in
  let l24 := Zmod.mdiv (y4 - y2) (x4 - x2) in
  let x5 := l24 * l24 - x2 - x4 in
  let y5 := l24 * (x2 - x5) - y2 in
  y4 <> 0 -> x4 <> x2 -> x5 <> x1 ->
  fchord (Zmod.mdiv (Zmod.of_Z p 3 * x4 * x4 + a) (Zmod.of_Z p 2 * y4))
    x4 y4 x4 =
  fchord (Zmod.mdiv (y5 - y1) (x5 - x1)) x1 y1 x5.
Proof.
  intros H1 H2 N12 l12 x4 y4 l24 x5 y5 Y4 N42 N51.
  destruct (chord_parameters _ _ _ _ H1 H2 N12) as [Hy2 Ha].
  fold l12 in Hy2, Ha. clearbody l12.
  apply fsub_nonzero in N42, N51.
  unfold fchord. subst x4 y4 l24 x5 y5.
  rewrite Hy2 in N51 |- *. rewrite Ha. clear Hy2 Ha H1 H2.
  do 2 f_equal.
  - field. all: fnz_hyps.
  - field. all: fnz_hyps.
Qed.

(** (P + P) + (P + P) = P + (P + (P + P)) *)
Lemma assoc_tangent_tangent (x1 y1 : Zmod p) :
  fon a b (Some (x1, y1)) ->
  let l11 := Zmod.mdiv (Zmod.of_Z p 3 * x1 * x1 + a) (Zmod.of_Z p 2 * y1) in
  let x4 := l11 * l11 - x1 - x1 in
  let y4 := l11 * (x1 - x4) - y1 in
  let l14 := Zmod.mdiv (y4 - y1) (x4 - x1) in
  let x5 := l14 * l14 - x1 - x4 in
  let y5 := l14 * (x1 - x5) - y1 in
  y4 <> 0 -> x4 <> x1 -> x5 <> x1 ->
  fchord (Zmod.mdiv (Zmod.of_Z p 3 * x4 * x4 + a) (Zmod.of_Z p 2 * y4))
    x4 y4 x4 =
  fchord (Zmod.mdiv (y5 - y1) (x5 - x1)) x1 y1 x5.
Proof.
  intros H1 l11 x4 y4 l14 x5 y5 Y4 N41 N51.
  pose proof (tangent_parameters _ _ H1) as Ha.
  fold l11 in Ha. clearbody l11.
  apply fsub_nonzero in N41, N51.
  unfold fchord. subst x4 y4 l14 x5 y5.
  rewrite Ha. clear Ha H1.
  do 2 f_equal.
  - field. all: fnz_hyps.
  - field. all: fnz_hyps.
Qed.

(** The same four lemmas on sums. *)
Ltac name_sum E :=
  first [ rewrite fadd_tangent in E | rewrite fadd_chord in E by assumption ];
  unfold fchord in E; cbv zeta in E;
  apply Some_pair_inj in E; destruct E as [? ?]; subst.

Lemma fadd_assoc_chords (x1 y1 x2 y2 x3 y3 x4 y4 x5 y5 : Zmod p) :
  fon a b (Some (x1, y1)) -> fon a b (Some (x2, y2)) ->
  fon a b (Some (x3, y3)) ->
  x2 <> x1 -> x3 <> x2 ->
  Some (x1, y1) +' Some (x2, y2) = Some (x4, y4) ->
  Some (x2, y2) +' Some (x3, y3) = Some (x5, y5) ->
  x3 <> x4 -> x5 <> x1 ->
  Some (x4, y4) +' Some (x3, y3) = Some (x1, y1) +' Some (x5, y5).
Proof.
  intros H1 H2 H3 N12 N23 E4 E5 N34 N51.
  rewrite !fadd_chord by assumption.
  name_sum E4. name_sum E5.
  apply (assoc_chords x1 y1 x2 y2 x3 y3); assumption.
Qed.

Lemma fadd_assoc_tangent_chords (x1 y1 x3 y3 x4 y4 x5 y5 : Zmod p) :
  fon a b (Some (x1, y1)) -> fon a b (Some (x3, y3)) ->
  x3 <> x1 ->
  Some (x1, y1) +' Some (x1, y1) = Some (x4, y4) ->
  Some (x1, y1) +' Some (x3, y3) = Some (x5, y5) ->
  x3 <> x4 -> x5 <> x1 ->
  Some (x4, y4) +' Some (x3, y3) = Some (x1, y1) +' Some (x5, y5).
Proof.
  intros H1 H3 N13 E4 E5 N34 N51.
  rewrite !fadd_chord by assumption.
  name_sum E4. name_sum E5.
  apply (assoc_tangent_chords x1 y1 x3 y3); assumption.
Qed.

Lemma fadd_assoc_chord_tangent (x1 y1 x2 y2 x4 y4 x5 y5 : Zmod p) :
  fon a b (Some (x1, y1)) -> fon a b (Some (x2, y2)) ->
  x2 <> x1 ->
  Some (x1, y1) +' Some (x2, y2) = Some (x4, y4) ->
  x4 <> x2 ->
  Some (x2, y2) +' Some (x4, y4) = Some (x5, y5) ->
  x5 <> x1 ->
  Some (x4, y4) +' Some (x4, y4) = Some (x1, y1) +' Some (x5, y5).
Proof.
  intros H1 H2 N12 E4 N42 E5 N51.
  assert (Y4 : y4 <> 0).
  { apply (on_y_nonzero x4). rewrite <- E4. apply fadd_on; assumption. }
  rewrite fadd_tangent, fadd_chord by assumption.
  name_sum E4. name_sum E5.
  apply (assoc_chord_tangent x1 y1 x2 y2); assumption.
Qed.

Lemma fadd_assoc_tangent_tangent (x1 y1 x4 y4 x5 y5 : Zmod p) :
  fon a b (Some (x1, y1)) ->
  Some (x1, y1) +' Some (x1, y1) = Some (x4, y4) ->
  x4 <> x1 ->
  Some (x1, y1) +' Some (x4, y4) = Some (x5, y5) ->
  x5 <> x1 ->
  Some (x4, y4) +' Some (x4, y4) = Some (x1, y1) +' Some (x5, y5).
Proof.
  intros H1 E4 N41 E5 N51.
  assert (Y4 : y4 <> 0).
  { apply (on_y_nonzero x4). rewrite <- E4. apply fadd_on; assumption. }
  rewrite fadd_tangent, fadd_chord by assumption.
  name_sum E4. name_sum E5.
  apply (assoc_tangent_tangent x1 y1); assumption.
Qed.

(** *** Associativity *)

(** Two finite points are opposite, or their sum is finite: a tangent
    or a chord. *)
Lemma opp_or_sum (x1 y1 x2 y2 : Zmod p) :
  fon a b (Some (x1, y1)) -> fon a b (Some (x2, y2)) ->
  Some (x2, y2) = fopp (Some (x1, y1)) \/
  exists x4 y4,
    Some (x1, y1) +' Some (x2, y2) = Some (x4, y4) /\
    (Some (x2, y2) = Some (x1, y1) \/ x2 <> x1).
Proof.
  intros H1 H2. destruct (trichotomy _ _ _ _ H1 H2) as [E|[E|N]].
  - right. rewrite E, fadd_tangent. unfold fchord. eauto.
  - left. exact E.
  - right. rewrite fadd_chord by assumption. unfold fchord. eauto.
Qed.

Lemma fadd_not_r (x1 y1 : Zmod p) (Q : fpoint p) :
  fon a b (Some (x1, y1)) -> fon a b Q -> Some (x1, y1) +' Q <> Q.
Proof.
  intros H1 HQ E.
  assert (A : Some (x1, y1) = None); [|discriminate A].
  apply (fadd_inj_l Q); try assumption; [exact I|].
  rewrite fadd_None_r, fadd_comm by assumption. exact E.
Qed.

Lemma fadd_move (P Q R : fpoint p) :
  fon a b P -> fon a b Q -> P +' Q = R -> Q = fopp P +' R.
Proof.
  intros HP HQ E. rewrite <- E. symmetry. apply fadd_cancel; assumption.
Qed.

Lemma not_fopp_self (x y : Zmod p) :
  fon a b (Some (x, y)) -> Some (x, y) <> fopp (Some (x, y)).
Proof.
  intros H E. cbn [fopp] in E. apply Some_pair_inj in E as [_ E].
  exact (y_not_opp _ _ H E).
Qed.

(** (P + Q) + (P + Q) = P + (Q + (P + Q)) *)
Lemma fadd_assoc_sum (P Q : fpoint p) :
  fon a b P -> fon a b Q -> (P +' Q) +' (P +' Q) = P +' (Q +' (P +' Q)).
Proof.
  intros HP HQ.
  destruct P as [[x1 y1]|]; [|reflexivity].
  destruct Q as [[x2 y2]|]; [|rewrite !fadd_None_r; reflexivity].
  pose proof (fadd_on _ _ HP HQ) as HS.
  destruct (opp_or_sum _ _ _ _ HP HQ) as [E|[x4 [y4 [E4 C12]]]].
  { rewrite E, fadd_opp_r by assumption.
    rewrite fadd_None_r, fadd_opp_r by assumption. reflexivity. }
  rewrite E4 in HS |- *.
  destruct (opp_or_sum _ _ _ _ HQ HS) as [E|[x5 [y5 [E5 C24]]]].
  { (* P + Q = -Q *)
    rewrite E, fadd_opp_r, fadd_None_r by assumption.
    rewrite fadd_comm in E4 by assumption.
    rewrite (fadd_move _ _ _ HQ HP E4), E. reflexivity. }
  assert (N42 : x4 <> x2).
  { destruct C24 as [C|C]; [|exact C].
    exfalso. apply (fadd_not_r x1 y1 (Some (x2, y2)) HP HQ). congruence. }
  pose proof (fadd_on _ _ HQ HS) as HT. rewrite E5 in HT |- *.
  destruct (opp_or_sum _ _ _ _ HP HT) as [E|[x6 [y6 [_ C15]]]].
  { (* Q + (P + Q) = -P *)
    exfalso. apply (not_fopp_self _ _ HS).
    rewrite E in E5. apply fadd_move in E5; try assumption.
    rewrite E5 at 1.
    rewrite <- fopp_fadd, (fadd_comm _ _ HQ HP), E4 by assumption.
    reflexivity. }
  assert (N51 : x5 <> x1).
  { destruct C15 as [C|C]; [|exact C].
    exfalso. apply (not_fopp_self _ _ HQ).
    rewrite C in E5. apply fadd_move in E5; try assumption.
    apply (fadd_inj_l (Some (x1, y1))); try assumption;
      [apply fon_fopp; assumption|].
    rewrite E4, E5. apply fadd_comm; [apply fon_fopp|]; assumption. }
  destruct C12 as [C|N12].
  - apply Some_pair_inj in C as [-> ->].
    apply (fadd_assoc_tangent_tangent x1 y1 x4 y4 x5 y5); assumption.
  - apply (fadd_assoc_chord_tangent x1 y1 x2 y2 x4 y4 x5 y5); assumption.
Qed.

Theorem fadd_assoc (P Q R : fpoint p) :
  fon a b P -> fon a b Q -> fon a b R ->
  (P +' Q) +' R = P +' (Q +' R).
Proof.
  intros HP HQ HR.
  destruct P as [[x1 y1]|]; [|reflexivity].
  destruct Q as [[x2 y2]|]; [|rewrite fadd_None_r; reflexivity].
  destruct R as [[x3 y3]|]; [|rewrite !fadd_None_r; reflexivity].
  pose proof (fadd_on _ _ HP HQ) as HS.
  pose proof (fadd_on _ _ HQ HR) as HT.
  destruct (opp_or_sum _ _ _ _ HP HQ) as [E|[x4 [y4 [E4 C12]]]].
  { (* Q = -P *)
    rewrite E, fadd_opp_r by assumption. rewrite fadd_None_l.
    symmetry. apply fadd_cancel_opp; assumption. }
  destruct (opp_or_sum _ _ _ _ HQ HR) as [E|[x5 [y5 [E5 C23]]]].
  { (* R = -Q *)
    rewrite E, fadd_opp_r, fadd_None_r by assumption.
    rewrite (fadd_comm _ _ HS (fon_fopp _ HQ)), (fadd_comm _ _ HP HQ).
    apply fadd_cancel; assumption. }
  rewrite E4 in HS |- *. rewrite E5 in HT |- *.
  destruct (opp_or_sum _ _ _ _ HS HR) as [E|[x6 [y6 [_ C43]]]].
  { (* R = -(P + Q) *)
    rewrite E, fadd_opp_r by assumption.
    assert (ET : Some (x5, y5) = fopp (Some (x1, y1))).
    { rewrite <- E5, E, <- E4, fopp_fadd, (fadd_comm (fopp _) (fopp _))
        by (try apply fon_fopp; assumption).
      apply fadd_cancel_opp; [|apply fon_fopp]; assumption. }
    rewrite ET, fadd_opp_r by assumption. reflexivity. }
  destruct (opp_or_sum _ _ _ _ HP HT) as [E|[x7 [y7 [_ C15]]]].
  { (* Q + R = -P *)
    rewrite E, fadd_opp_r by assumption.
    assert (EP : Some (x1, y1) = fopp (Some (x2, y2)) +' fopp (Some (x3, y3))).
    { rewrite <- fopp_fadd, E5, E by assumption.
      symmetry. apply (fopp_fopp (Some (x1, y1))). }
    assert (ES : Some (x4, y4) = fopp (Some (x3, y3))).
    { rewrite <- E4. rewrite EP at 1.
      rewrite fadd_comm
        by (try apply fadd_on; try apply fon_fopp; assumption).
      apply fadd_cancel_opp; [|apply fon_fopp]; assumption. }
    rewrite ES, fadd_comm by (try apply fon_fopp; assumption).
    apply fadd_opp_r. assumption. }
  destruct C43 as [C|N34].
  { (* R = P + Q *)
    apply Some_pair_inj in C as [-> ->].
    pose proof (fadd_assoc_sum _ _ HP HQ) as A.
    rewrite E4, E5 in A. exact A. }
  destruct C15 as [C|N51].
  { (* P = Q + R *)
    apply Some_pair_inj in C as [-> ->].
    pose proof (fadd_assoc_sum _ _ HR HQ) as A.
    rewrite (fadd_comm _ _ HR HQ), E5, (fadd_comm _ _ HQ HP), E4 in A.
    rewrite (fadd_comm _ _ HS HR). symmetry. exact A. }
  destruct C12 as [C12|N12], C23 as [C23|N23].
  - (* P = Q = R *)
    apply Some_pair_inj in C12 as [-> ->].
    apply Some_pair_inj in C23 as [-> ->].
    rewrite E4 in E5. rewrite <- E5. apply fadd_comm; assumption.
  - (* P = Q *)
    apply Some_pair_inj in C12 as [-> ->].
    apply (fadd_assoc_tangent_chords x1 y1 x3 y3 x4 y4 x5 y5); assumption.
  - (* Q = R *)
    apply Some_pair_inj in C23 as [-> ->].
    rewrite (fadd_comm _ _ HS HQ), (fadd_comm _ _ HP HT).
    symmetry.
    apply (fadd_assoc_tangent_chords x2 y2 x1 y1 x5 y5 x4 y4);
      try assumption; try congruence.
    rewrite fadd_comm; assumption.
  - apply (fadd_assoc_chords x1 y1 x2 y2 x3 y3 x4 y4 x5 y5); assumption.
Qed.
End FieldLaw.

(** ** The points of the curve as a commutative monoid *)

Lemma Point_eqb_eq (P Q : Point) : Point_eqb P Q = true <-> P = Q.
Proof.
  unfold Point_eqb. rewrite andb_true_iff, !Z.eqb_eq.
  destruct P as [x1 y1], Q as [x2 y2]; cbn [px py]. split.
  - intros [-> ->]. reflexivity.
  - intros [= -> ->]. split; reflexivity.
Qed.

Lemma is_curve_point_iff (ec : EC) (P : Point) :
  is_curve_point ec P = true <-> curve_point ec P.
Proof.
  unfold is_curve_point, curve_point, finite_point.
  rewrite orb_true_iff, Point_eqb_eq, !andb_true_iff, Z.leb_le, !Z.ltb_lt,
    Z.eqb_eq.
  tauto.
Qed.

Lemma CurvePoint_eq (ec : EC) (A B : CurvePoint ec) :
  proj1_sig A = proj1_sig B -> A = B.
Proof.
  destruct A as [a Ha], B as [b Hb]. cbn [proj1_sig]. intros ->.
  f_equal. apply Eqdep_dec.UIP_dec. apply Bool.bool_dec.
Qed.

Section Group.
Variable ec : EC.
Hypothesis prime_p : Z.prime (_p ec).
Hypothesis odd_p : 2 < _p ec.
Hypothesis no_y0 : no_order_two ec.

Add Field zmod_field_g :
  (Zmod.field_theory (_p ec) prime_p)
  (morphism (of_Z_morph (_p ec)), constants [zmod_cst]).

(** On points of the curve [_addAffine] returns, a point of the curve. *)
Lemma _addAffine_total (A B : Point) :
  curve_point ec A -> curve_point ec B ->
  EC._addAffine ec A B = Ok (affine_sum ec A B) /\
  curve_point ec (affine_sum ec A B).
Proof.
  intros CA CB.
  assert (RA : jac_repr ec (_jac_from_aff A) A).
  { destruct CA as [->|[Hx [Hy E]]].
    - split; [left; split; reflexivity | reflexivity].
    - unfold _jac_from_aff. destruct (Z.eqb_spec (py A) 0); [lia|].
      split; [|cbn [jz]; lia]. right. cbn [jx jy jz].
      repeat split; try lia; f_equal; ring. }
  assert (RB : jac_repr ec (_jac_from_aff B) B).
  { destruct CB as [->|[Hx [Hy E]]].
    - split; [left; split; reflexivity | reflexivity].
    - unfold _jac_from_aff. destruct (Z.eqb_spec (py B) 0); [lia|].
      split; [|cbn [jz]; lia]. right. cbn [jx jy jz].
      repeat split; try lia; f_equal; ring. }
  destruct (_addJacobian_closed ec prime_p odd_p no_y0 _ _ _ _ RA RB CA CB)
    as [C [E [CC _]]].
  unfold affine_sum. rewrite E. split; [reflexivity | exact CC].
Qed.

Lemma affine_sum_comm (A B : Point) :
  curve_point ec A -> curve_point ec B ->
  affine_sum ec A B = affine_sum ec B A.
Proof.
  intros [->|FA] [->|FB]; unfold affine_sum, EC._addAffine.
  - reflexivity.
  - destruct FB as [_ [Hy _]]. cbn [py Point_default].
    destruct (Z.eqb_spec (py B) 0); [lia|]. reflexivity.
  - destruct FA as [_ [Hy _]]. cbn [py Point_default].
    destruct (Z.eqb_spec (py A) 0); [lia|]. reflexivity.
  - destruct FA as [Hx1 [Hy1 _]], FB as [Hx2 [Hy2 _]].
    destruct A as [x1 y1], B as [x2 y2]. cbn [px py] in *.
    destruct (Z.eqb_spec y2 0); [lia|]. destruct (Z.eqb_spec y1 0); [lia|].
    rewrite (Z.eqb_sym x1 x2), (Z.eqb_sym y1 y2).
    destruct (Z.eqb_spec x2 x1) as [->|NE].
    + destruct (Z.eqb_spec y2 y1) as [->|_]; reflexivity.
    + assert (F21 : Zmod.of_Z (_p ec) (x2 - x1) <> Zmod.zero).
      { apply of_Z_nonzero. intros E.
        apply Z.mod_divide in E; [|lia]. destruct E as [k Hk].
        assert (k = 0) by nia. lia. }
      assert (F12 : Zmod.of_Z (_p ec) (x1 - x2) <> Zmod.zero).
      { apply of_Z_nonzero. intros E.
        apply Z.mod_divide in E; [|lia]. destruct E as [k Hk].
        assert (k = 0) by nia. lia. }
      rewrite !mod_inv_Ok
        by (try exact prime_p; apply of_Z_nonzero; assumption).
      cbn [bind]. push_of_Z_in F21. push_of_Z_in F12.
      f_equal; congr; rewrite !of_Z_invmod; push_of_Z; field;
        split; assumption.
Qed.

Lemma affine_sum_zero_l (A : Point) :
  curve_point ec A -> affine_sum ec Point_default A = A.
Proof.
  intros [->|[_ [Hy _]]]; unfold affine_sum, EC._addAffine; [reflexivity|].
  cbn [py Point_default]. destruct (Z.eqb_spec (py A) 0); [lia|]. reflexivity.
Qed.

(** *** From the field to the pairs of integers *)

Lemma no_order_two_no_root (x : Zmod (_p ec)) :
  (x * x * x + Zmod.of_Z (_p ec) (_a ec) * x + Zmod.of_Z (_p ec) (_b ec))%Zmod
  <> Zmod.zero.
Proof.
  intros E. apply (no_y0 (Zmod.unsigned x)). unfold EC._y2.
  rewrite <- (Zmod_0_l (_p ec)). apply Zmod.of_Z_inj.
  push_of_Z. rewrite Zmod.of_Z_unsigned, Zmod.of_Z_0, <- E. ring.
Qed.

Lemma emb_on (A : Point) :
  curve_point ec A ->
  fon (Zmod.of_Z (_p ec) (_a ec)) (Zmod.of_Z (_p ec) (_b ec)) (emb ec A).
Proof.
  intros [->|F]; [exact I|]. unfold emb.
  destruct (Z.eqb_spec (py A) 0) as [E|_]; [destruct F as [_ [Hy _]]; lia|].
  cbn [fon]. rewrite (finite_point_equation ec A F). ring.
Qed.

Lemma emb_inj (A B : Point) :
  curve_point ec A -> curve_point ec B -> emb ec A = emb ec B -> A = B.
Proof.
  intros [->|[Hx1 [Hy1 _]]] [->|[Hx2 [Hy2 _]]]; unfold emb;
    cbn [py Point_default Z.eqb];
    repeat match goal with
           | |- context [?y =? 0] => destruct (Z.eqb_spec y 0); [lia|]
           end;
    try discriminate; [reflexivity|].
  intros E. apply Some_pair_inj in E as [Ex Ey].
  apply of_Z_small_inj in Ex, Ey; try lia.
  destruct A as [x1 y1], B as [x2 y2]. cbn [px py] in *. congruence.
Qed.

(** [affine_sum] is the law of the field on the points of the curve. *)
Lemma emb_affine_sum (A B : Point) :
  curve_point ec A -> curve_point ec B ->
  emb ec (affine_sum ec A B) =
  fadd (Zmod.of_Z (_p ec) (_a ec)) (emb ec A) (emb ec B).
Proof.
  intros CA CB.
  destruct (_addAffine_total A B CA CB) as [E CC].
  destruct (_addAffine_closed ec prime_p odd_p no_y0 A B _ CA CB E) as [_ I].
  revert E I CC. generalize (affine_sum ec A B). intros C E I CC.
  assert (Y : forall P, curve_point ec P -> py P = 0 -> emb ec P = None).
  { intros P _ Y0. unfold emb. rewrite Y0. reflexivity. }
  assert (F : forall P, curve_point ec P -> py P <> 0 ->
              0 <= px P < _p ec /\ 0 < py P < _p ec /\
              emb ec P =
              Some (Zmod.of_Z (_p ec) (px P), Zmod.of_Z (_p ec) (py P))).
  { intros P [->|[Hx [Hy _]]] Y0; [cbn in Y0; lia|].
    split; [exact Hx|]. split; [exact Hy|]. unfold emb.
    destruct (Z.eqb_spec (py P) 0); [lia | reflexivity]. }
  unfold EC._addAffine, affine_sum_infinite in E, I.
  destruct (Z.eqb_spec (py B) 0) as [YB|YB].
  { apply Ok_inj in E. subst C. rewrite (Y B CB YB).
    destruct (emb ec A) as [[x y]|]; reflexivity. }
  destruct (Z.eqb_spec (py A) 0) as [YA|YA].
  { apply Ok_inj in E. subst C. rewrite (Y A CA YA). reflexivity. }
  destruct (F A CA YA) as [Hx1 [Hy1 ->]].
  destruct (F B CB YB) as [Hx2 [Hy2 ->]].
  unfold fadd.
  destruct (Z.eqb_spec (px B) (px A)) as [EX|EX].
  - rewrite EX, Zmod.eqb_refl.
    destruct (Z.eqb_spec (py B) (py A)) as [EY|EY].
    + rewrite EY, Zmod.eqb_refl.
      rewrite mod_inv_Ok in E;
        [|exact prime_p
         |apply of_Z_nonzero; push_of_Z; apply fmul_nonzero;
          [exact prime_p | apply of_Z_small_nonzero; lia
          | apply of_Z_small_nonzero; lia]].
      cbn [bind] in E. apply Ok_inj in E.
      assert (YC : py C <> 0) by (intros H; specialize (I H); discriminate I).
      destruct (F C CC YC) as [_ [_ ->]]. subst C. cbn [px py].
      unfold fchord. rewrite EX. do 2 f_equal; push_of_Z;
        rewrite !of_Z_invmod; push_of_Z; unfold Zmod.mdiv; ring.
    + apply Ok_inj in E. subst C.
      destruct (Zmod.eqb_spec (Zmod.of_Z (_p ec) (py B))
                              (Zmod.of_Z (_p ec) (py A))) as [H|_];
        [|reflexivity].
      apply of_Z_small_inj in H; [contradiction | lia | lia].
  - destruct (Zmod.eqb_spec (Zmod.of_Z (_p ec) (px B))
                            (Zmod.of_Z (_p ec) (px A))) as [H|H].
    { apply of_Z_small_inj in H; [contradiction | lia | lia]. }
    rewrite mod_inv_Ok in E;
      [|exact prime_p
       |apply of_Z_nonzero; push_of_Z; apply (fsub_nonzero _ prime_p);
        exact H].
    cbn [bind] in E. apply Ok_inj in E.
    assert (YC : py C <> 0) by (intros H0; specialize (I H0); discriminate I).
    destruct (F C CC YC) as [_ [_ ->]]. subst C. cbn [px py].
    unfold fchord. do 2 f_equal; push_of_Z;
      rewrite !of_Z_invmod; push_of_Z; unfold Zmod.mdiv; ring.
Qed.

(** The chord-and-tangent law of [_addAffine] is associative on the
    points of the curve. *)
Lemma affine_sum_assoc (A B C : Point) :
  curve_point ec A -> curve_point ec B -> curve_point ec C ->
  affine_sum ec (affine_sum ec A B) C = affine_sum ec A (affine_sum ec B C).
Proof.
  intros CA CB CC.
  pose proof (proj2 (_addAffine_total A B CA CB)) as CAB.
  pose proof (proj2 (_addAffine_total B C CB CC)) as CBC.
  apply emb_inj; try (apply _addAffine_total; assumption).
  rewrite !emb_affine_sum by assumption.
  apply (fadd_assoc (_p ec) prime_p odd_p _ _ no_order_two_no_root);
    apply emb_on; assumption.
Qed.

Lemma cp_of_proj (P : Point) :
  is_curve_point ec P = true -> proj1_sig (cp_of ec P) = P.
Proof.
  intros H. unfold cp_of.
  generalize (eq_refl (is_curve_point ec P)).
  generalize (is_curve_point ec P) at 2 3.
  intros [|] E; [reflexivity | congruence].
Qed.

Lemma CurvePoint_curve_point (A : CurvePoint ec) : curve_point ec (proj1_sig A).
Proof. apply is_curve_point_iff. exact (proj2_sig A). Qed.

Lemma cp_add_proj (A B : CurvePoint ec) :
  proj1_sig (cp_add ec A B) = affine_sum ec (proj1_sig A) (proj1_sig B).
Proof.
  apply cp_of_proj, is_curve_point_iff, _addAffine_total;
    apply CurvePoint_curve_point.
Qed.

#[local] Instance cp_add_assoc : Associative eq (cp_add ec).
Proof.
  intros A B C. apply CurvePoint_eq. rewrite !cp_add_proj.
  symmetry. apply affine_sum_assoc; apply CurvePoint_curve_point.
Qed.

#[local] Instance cp_add_comm : Commutative eq (cp_add ec).
Proof.
  intros A B. apply CurvePoint_eq. rewrite !cp_add_proj.
  apply affine_sum_comm; apply CurvePoint_curve_point.
Qed.

#[local] Instance cp_add_unit : Unit eq (cp_add ec) (cp_zero ec).
Proof.
  split; intros A; apply CurvePoint_eq; rewrite cp_add_proj;
    cbn [cp_zero proj1_sig].
  - apply affine_sum_zero_l, CurvePoint_curve_point.
  - rewrite affine_sum_comm;
      [apply affine_sum_zero_l, CurvePoint_curve_point
      |apply CurvePoint_curve_point | left; reflexivity].
Qed.

Hypothesis n_pos : 0 < ec_n ec.

Declare Scope cp_scope.
Notation "A + B" := (cp_add ec A B) : cp_scope.
Notation "k ** A" := (nmul (cp_add ec) (cp_zero ec) k A)
  (at level 40) : cp_scope.
Local Open Scope cp_scope.

Lemma curve_point_CurvePoint (P : Point) :
  curve_point ec P -> exists A : CurvePoint ec, proj1_sig A = P.
Proof.
  intros C. apply is_curve_point_iff in C. exists (exist _ P C). reflexivity.
Qed.

Lemma cp_repr_default : cp_repr ec _JacPoint_default (cp_zero ec).
Proof. split; [left; split; reflexivity | reflexivity]. Qed.

Lemma cp_repr_infinity (J : _JacPoint) (A : CurvePoint ec) :
  cp_repr ec J A -> jz J = 0 -> A = cp_zero ec.
Proof.
  intros [[[_ E]|[Hz _]] _] Z0; [|lia].
  apply CurvePoint_eq. exact E.
Qed.

Lemma _addJacobian_cp_add (J K : _JacPoint) (A B : CurvePoint ec) :
  cp_repr ec J A -> cp_repr ec K B ->
  cp_repr ec (EC._addJacobian ec J K) (A + B).
Proof.
  intros RA RB.
  destruct (_addJacobian_closed ec prime_p odd_p no_y0 _ _ _ _ RA RB
              (CurvePoint_curve_point A) (CurvePoint_curve_point B))
    as [C [E [_ R]]].
  unfold cp_repr. rewrite cp_add_proj. unfold affine_sum. rewrite E. exact R.
Qed.

Lemma _pointMultJacobian_loop_double_and_add (n : positive) :
  forall R Q r q, cp_repr ec R r -> cp_repr ec Q q ->
  cp_repr ec (_pointMultJacobian_loop ec n R Q)
    (double_and_add (cp_add ec) n r q).
Proof.
  induction n as [n IH|n IH|]; intros R Q r q HR HQ;
    cbn [_pointMultJacobian_loop double_and_add].
  - apply IH; apply _addJacobian_cp_add; assumption.
  - apply IH; [exact HR|]. apply _addJacobian_cp_add; assumption.
  - apply _addJacobian_cp_add; assumption.
Qed.

Lemma DblScalarMult_loop_shamir (QJ PJ : _JacPoint) (q p : CurvePoint ec)
  (msb : nat) :
  cp_repr ec QJ q -> cp_repr ec PJ p ->
  forall u v R r, cp_repr ec R r ->
  cp_repr ec (DblScalarMult_loop ec QJ PJ msb u v R)
          (shamir (cp_add ec) q p msb u v r).
Proof.
  intros HQ HP. induction msb as [|m IH]; intros u v R r HR;
    cbn [DblScalarMult_loop shamir]; [exact HR|].
  destruct (Z.shiftr u (Z.of_nat m) =? 0), (Z.shiftr v (Z.of_nat m) =? 0),
    (1 <? Z.of_nat (S m)); cbv beta iota zeta; apply IH;
    repeat first [assumption | apply _addJacobian_cp_add].
Qed.

(** [_pointMultJacobian] with a scalar n >= 0 adds n copies of the
    point. *)
Lemma _pointMultJacobian_nmul (n : Z) (Q : _JacPoint) (q : CurvePoint ec) :
  0 <= n -> cp_repr ec Q q ->
  cp_repr ec (_pointMultJacobian ec n Q) (Z.to_nat n ** q).
Proof.
  intros Hn HQ. unfold _pointMultJacobian.
  destruct (Z.eqb_spec (jz Q) 0) as [Z0|_].
  - rewrite (cp_repr_infinity Q q HQ Z0), (nmul_e (cp_add ec) (cp_zero ec)).
    apply cp_repr_default.
  - destruct n as [|k|k]; [apply cp_repr_default | | lia].
    rewrite Z2Nat.inj_pos.
    replace (Pos.to_nat k ** q) with ((cp_zero ec) + Pos.to_nat k ** q)
      by aac_reflexivity.
    rewrite <- (double_and_add_correct (cp_add ec) (cp_zero ec)).
    apply _pointMultJacobian_loop_double_and_add;
      [apply cp_repr_default | exact HQ].
Qed.

Lemma _affine_from_jac_cp (J : _JacPoint) (A : CurvePoint ec) :
  cp_repr ec J A -> EC._affine_from_jac ec J = Ok (proj1_sig A).
Proof. intros [W _]. apply _affine_from_jac_repr; assumption. Qed.

Lemma requireOnCurve_on (Q : Point) :
  EC.isOnCurve ec (tuple_of Q) = Ok true -> EC.requireOnCurve ec Q = Ok tt.
Proof. intros On. unfold EC.requireOnCurve. rewrite On. reflexivity. Qed.

(** A pair [isOnCurve] accepts stands for a point of the curve. *)
Lemma _jac_from_aff_cp (Q : Point) :
  EC.isOnCurve ec (tuple_of Q) = Ok true ->
  exists q : CurvePoint ec,
    cp_repr ec (_jac_from_aff Q) q /\ (py Q = 0 -> q = cp_zero ec).
Proof.
  intros On.
  destruct (curve_point_CurvePoint (canonical ec Q)) as [q Eq].
  { apply isOnCurve_canonical; assumption. }
  exists q. split.
  - unfold cp_repr. rewrite Eq. apply _jac_from_aff_repr; assumption.
  - intros Y0. apply CurvePoint_eq. rewrite Eq. unfold canonical.
    rewrite Y0. reflexivity.
Qed.

Lemma CurvePoint_isOnCurve (A : CurvePoint ec) :
  EC.isOnCurve ec (tuple_of (proj1_sig A)) = Ok true.
Proof.
  destruct (CurvePoint_curve_point A) as [->|[Hx [Hy E]]]; [reflexivity|].
  unfold EC.isOnCurve, tuple_of.
  cbn [List.length Nat.eqb negb raise_if bind nth].
  destruct (Z.eqb_spec (py (proj1_sig A)) 0); [lia|].
  destruct (Z.ltb_spec 0 (py (proj1_sig A))); [|lia].
  destruct (Z.ltb_spec (py (proj1_sig A)) (_p ec)); [|lia].
  cbn [andb negb raise_if bind]. rewrite E, Z.eqb_refl. reflexivity.
Qed.

Lemma _jac_from_aff_CurvePoint (A : CurvePoint ec) :
  cp_repr ec (_jac_from_aff (proj1_sig A)) A.
Proof.
  destruct (_jac_from_aff_cp _ (CurvePoint_isOnCurve A)) as [q [R I]].
  assert (E : q = A); [|subst q; exact R].
  apply CurvePoint_eq.
  destruct (Z.eqb_spec (py (proj1_sig A)) 0) as [Y|Y].
  - rewrite (I Y). symmetry. apply (curve_point_infinity ec);
      [apply CurvePoint_curve_point | exact Y].
  - revert R. unfold cp_repr, _jac_from_aff.
    destruct (Z.eqb_spec (py (proj1_sig A)) 0) as [|_]; [contradiction|].
    cbn [jx jy jz].
    intros [[[Z0 _]|[_ [Hx [Hy [EX EY]]]]] _];
      cbn [jx jy jz] in *; [lia|].
    destruct (CurvePoint_curve_point A) as [D|[HxA [HyA _]]];
      [rewrite D in Y; cbn in Y; lia|].
    rewrite Z.mul_1_r in EX. rewrite !Z.mul_1_r in EY.
    rewrite !Z.mod_small in EX, EY by lia.
    destruct (proj1_sig q) as [x1 y1], (proj1_sig A) as [x2 y2].
    cbn [px py] in *. congruence.
Qed.

(** The values of [pointMult], [add] and [DblScalarMult]. *)
Lemma pointMult_value (k : Z) (Q : Point) (q : CurvePoint ec) :
  EC.isOnCurve ec (tuple_of Q) = Ok true ->
  cp_repr ec (_jac_from_aff Q) q ->
  pointMult ec k Q = Ok (proj1_sig (Z.to_nat (k mod ec_n ec) ** q)).
Proof.
  intros On R. unfold pointMult. rewrite (requireOnCurve_on Q On).
  cbn [bind]. cbv zeta. apply _affine_from_jac_cp, _pointMultJacobian_nmul;
    [apply Z.mod_pos_bound; exact n_pos | exact R].
Qed.

Lemma add_value (A B : CurvePoint ec) :
  EC.add ec (proj1_sig A) (proj1_sig B) = Ok (proj1_sig (A + B)).
Proof.
  unfold EC.add.
  rewrite !requireOnCurve_on by apply CurvePoint_isOnCurve.
  cbn [bind]. cbv zeta.
  apply _affine_from_jac_cp, _addJacobian_cp_add;
    apply _jac_from_aff_CurvePoint.
Qed.

Lemma bit_length_bound (k : Z) : 0 <= k -> k < 2 ^ bit_length k.
Proof.
  intros Hk. unfold bit_length. destruct (Z.eqb_spec k 0) as [->|N]; [lia|].
  rewrite Z.abs_eq by exact Hk. apply Z.log2_spec. lia.
Qed.

Lemma bit_length_nonneg (k : Z) : 0 <= bit_length k.
Proof.
  unfold bit_length. destruct (k =? 0); [lia|].
  pose proof (Z.log2_nonneg (Z.abs k)). lia.
Qed.

Lemma DblScalarMult_value (u v : Z) (Q P : Point) (q p : CurvePoint ec) :
  EC.isOnCurve ec (tuple_of Q) = Ok true ->
  EC.isOnCurve ec (tuple_of P) = Ok true ->
  cp_repr ec (_jac_from_aff Q) q -> (py Q = 0 -> q = cp_zero ec) ->
  cp_repr ec (_jac_from_aff P) p -> (py P = 0 -> p = cp_zero ec) ->
  DblScalarMult ec u Q v P =
  Ok (proj1_sig
        (Z.to_nat (u mod ec_n ec) ** q + Z.to_nat (v mod ec_n ec) ** p)).
Proof.
  intros OnQ OnP RQ IQ RP IP.
  pose proof (pointMult_value u Q q OnQ RQ) as MQ.
  pose proof (pointMult_value v P p OnP RP) as MP.
  unfold pointMult in MQ, MP.
  rewrite requireOnCurve_on in MQ, MP by assumption.
  cbn [bind] in MQ, MP. cbv zeta in MQ, MP.
  unfold DblScalarMult. rewrite !requireOnCurve_on by assumption.
  cbn [bind]. cbv zeta.
  destruct (Z.eqb_spec u 0) as [->|Hu].
  { rewrite Zmod_0_l. change (Z.to_nat 0) with 0%nat. cbn [nmul].
    destruct (Z.eqb_spec v 0) as [->|Hv].
    - rewrite Zmod_0_l. reflexivity.
    - rewrite MP. apply (f_equal (fun X => Ok (proj1_sig X))).
      aac_reflexivity. }
  destruct (Z.eqb_spec (py Q) 0) as [YQ|YQ].
  { rewrite MP, (IQ YQ), (nmul_e (cp_add ec) (cp_zero ec)).
    apply (f_equal (fun X => Ok (proj1_sig X))). aac_reflexivity. }
  destruct (Z.eqb_spec v 0) as [->|Hv].
  { rewrite MQ, Zmod_0_l. change (Z.to_nat 0) with 0%nat. cbn [nmul].
    apply (f_equal (fun X => Ok (proj1_sig X))). aac_reflexivity. }
  destruct (Z.eqb_spec (py P) 0) as [YP|YP].
  { rewrite MQ, (IP YP), (nmul_e (cp_add ec) (cp_zero ec)).
    apply (f_equal (fun X => Ok (proj1_sig X))). aac_reflexivity. }
  pose proof (Z.mod_pos_bound u (ec_n ec) n_pos) as Bu.
  pose proof (Z.mod_pos_bound v (ec_n ec) n_pos) as Bv.
  set (u' := u mod ec_n ec) in *. set (v' := v mod ec_n ec) in *.
  set (msb := Z.max (bit_length u') (bit_length v')).
  assert (Hm : 0 <= msb) by (pose proof (bit_length_nonneg u'); lia).
  rewrite (_affine_from_jac_cp _
             (shamir (cp_add ec) q p (Z.to_nat msb) u' v' (cp_zero ec))).
  2:{ apply DblScalarMult_loop_shamir; try assumption. apply cp_repr_default. }
  apply (f_equal (fun X => Ok (proj1_sig X))).
  rewrite (shamir_correct (cp_add ec) (cp_zero ec)).
  - replace (lead (cp_add ec) (cp_zero ec) (Z.to_nat msb) (cp_zero ec))
      with (cp_zero ec).
    + aac_reflexivity.
    + unfold lead. destruct (Z.to_nat msb); [reflexivity|].
      rewrite (nmul_e (cp_add ec) (cp_zero ec)). reflexivity.
  - rewrite Z2Nat.id by exact Hm. split; [lia|].
    apply Z.lt_le_trans with (2 ^ bit_length u');
      [apply bit_length_bound; lia|].
    apply Z.pow_le_mono_r; lia.
  - rewrite Z2Nat.id by exact Hm. split; [lia|].
    apply Z.lt_le_trans with (2 ^ bit_length v');
      [apply bit_length_bound; lia|].
    apply Z.pow_le_mono_r; lia.
Qed.

(** C2, as amended.  On a curve over a prime field, p > 2, with n > 0
    and without a point of order two, for Q and P that [isOnCurve]
    accepts and all integers u and v, [DblScalarMult(ec, u, Q, v, P)]
    returns a point, and
    [add(pointMult(ec, u, Q), pointMult(ec, v, P))] returns the same
    point. *)
Theorem DblScalarMult_is_sum_of_pointMult (u v : Z) (Q P : Point) :
  EC.isOnCurve ec (tuple_of Q) = Ok true ->
  EC.isOnCurve ec (tuple_of P) = Ok true ->
  exists S,
    DblScalarMult ec u Q v P = Ok S /\
    (A <- pointMult ec u Q ;; B <- pointMult ec v P ;; EC.add ec A B) = Ok S.
Proof.
  intros OnQ OnP.
  destruct (_jac_from_aff_cp Q OnQ) as [q [RQ IQ]].
  destruct (_jac_from_aff_cp P OnP) as [p [RP IP]].
  eexists. split.
  - apply (DblScalarMult_value u v Q P q p); assumption.
  - rewrite (pointMult_value u Q q OnQ RQ), (pointMult_value v P p OnP RP).
    cbn [bind]. apply add_value.
Qed.

End Group.

Lemma DblScalarMult_is_sum_of_pointMult_witness :
  exists S,
    DblScalarMult ec7 5 (mkPoint 1 2) 3 (mkPoint 2 2) = Ok S /\
    (A <- pointMult ec7 5 (mkPoint 1 2) ;;
     B <- pointMult ec7 3 (mkPoint 2 2) ;; EC.add ec7 A B) = Ok S.
Proof.
  apply (DblScalarMult_is_sum_of_pointMult ec7 prime_7 ltac:(reflexivity)
           no_order_two_ec7 ltac:(reflexivity)
           5 3 (mkPoint 1 2) (mkPoint 2 2)); reflexivity.
Defined.

(** C2 as stated fails on a successfully constructed curve with a point
    of order two: for T = (5, 4) of order four, [pointMult(ec, 2, T)] is
    (10, 0), which [add] reads as infinity, so the sum of the two
    products is T, while [DblScalarMult(ec, 2, T, 1, T)] is 3 T = -T. *)
Lemma DblScalarMult_differs_from_sum :
  EC__init__ (FL:=exact_float) 11 0 1 [0; 1] 3 6 0 false = Ok ec11 /\
  EC.isOnCurve ec11 (tuple_of (mkPoint 5 4)) = Ok true /\
  DblScalarMult ec11 2 (mkPoint 5 4) 1 (mkPoint 5 4) = Ok (mkPoint 5 7) /\
  (A <- pointMult ec11 2 (mkPoint 5 4) ;;
   B <- pointMult ec11 1 (mkPoint 5 4) ;; EC.add ec11 A B) = Ok (mkPoint 5 4) /\
  mkPoint 5 7 <> mkPoint 5 4.
Proof. vm_compute. repeat split. discriminate. Qed.

(** * Further properties of [ec.py] *)

(** ** [opposite] *)

Section Opposite.
Variable ec : EC.

Lemma isOnCurve_finite (x y : Z) :
  0 < y < _p ec -> EC._y2 ec x = (y * y) mod _p ec ->
  EC.isOnCurve ec (tuple_of (mkPoint x y)) = Ok true.
Proof.
  intros Hy E. unfold EC.isOnCurve, tuple_of.
  cbn [List.length Nat.eqb negb raise_if bind nth px py].
  destruct (Z.eqb_spec y 0); [lia|].
  destruct (Z.ltb_spec 0 y); [|lia]. destruct (Z.ltb_spec y (_p ec)); [|lia].
  cbn [andb negb raise_if bind]. rewrite E, Z.eqb_refl. reflexivity.
Qed.

Lemma opposite_value (Q : Point) :
  EC.isOnCurve ec (tuple_of Q) = Ok true ->
  EC.opposite ec Q =
  Ok (if py Q =? 0 then Q else mkPoint (px Q) (_p ec - py Q)).
Proof.
  intros On. unfold EC.opposite, EC.requireOnCurve. rewrite On.
  cbn [negb raise_if bind]. destruct (py Q =? 0); reflexivity.
Qed.

Lemma opposite_on_curve (Q : Point) :
  EC.isOnCurve ec (tuple_of Q) = Ok true ->
  EC.isOnCurve ec
    (tuple_of (if py Q =? 0 then Q else mkPoint (px Q) (_p ec - py Q))) =
  Ok true.
Proof.
  intros On. destruct (Z.eqb_spec (py Q) 0) as [E|E]; [exact On|].
  destruct (isOnCurve_true_finite ec Q On E) as [Hy Eq].
  apply isOnCurve_finite; [lia|]. rewrite Eq.
  replace ((_p ec - py Q) * (_p ec - py Q))
    with (py Q * py Q + (_p ec - 2 * py Q) * _p ec) by ring.
  rewrite Z.mod_add by lia. reflexivity.
Qed.

(** X1.  [opposite] succeeds exactly on what [isOnCurve] accepts; its
    result is accepted too, has the same x, and [opposite] takes it
    back to the argument. *)
Theorem opposite_involutive (Q : Point) :
  EC.isOnCurve ec (tuple_of Q) = Ok true ->
  exists Q',
    EC.opposite ec Q = Ok Q' /\
    EC.isOnCurve ec (tuple_of Q') = Ok true /\
    px Q' = px Q /\
    EC.opposite ec Q' = Ok Q.
Proof.
  intros On. eexists. split; [apply opposite_value, On|].
  split; [apply opposite_on_curve, On|].
  split; [destruct (py Q =? 0); reflexivity|].
  rewrite opposite_value by (apply opposite_on_curve, On).
  destruct (Z.eqb_spec (py Q) 0) as [E|E].
  - rewrite E. reflexivity.
  - destruct (isOnCurve_true_finite ec Q On E) as [Hy _]. cbn [px py].
    destruct (Z.eqb_spec (_p ec - py Q) 0); [lia|].
    f_equal. destruct Q as [x y]. cbn [px py]. f_equal. lia.
Qed.

(** What is not on the curve is refused with [ValueError]. *)
Lemma opposite_raises (Q : Point) (e : exn) :
  EC.opposite ec Q = Raise e -> fst e = ValueError.
Proof.
  unfold EC.opposite, EC.requireOnCurve, EC.isOnCurve, tuple_of.
  cbn [List.length Nat.eqb negb raise_if bind nth].
  destruct (py Q =? 0); [discriminate|].
  destruct ((0 <? py Q) && (py Q <? _p ec)); cbn [negb raise_if bind].
  - destruct (EC._y2 ec (px Q) =? _); cbn [negb raise_if bind];
      [discriminate|]. intros [= <-]. reflexivity.
  - intros [= <-]. reflexivity.
Qed.

Lemma opposite_argument (Q Q' : Point) :
  EC.opposite ec Q = Ok Q' -> EC.isOnCurve ec (tuple_of Q) = Ok true.
Proof.
  intros E. unfold EC.opposite in E. apply bind_Ok in E as [u [R _]].
  unfold EC.requireOnCurve in R.
  destruct (EC.isOnCurve ec (tuple_of Q)) as [[|]|]; cbn in R;
    [reflexivity | discriminate | discriminate].
Qed.

Lemma add_opposite_value (Q : Point) :
  _p ec mod 2 = 1 ->
  EC.isOnCurve ec (tuple_of Q) = Ok true ->
  EC.add ec Q (if py Q =? 0 then Q else mkPoint (px Q) (_p ec - py Q)) =
  Ok Point_default.
Proof.
  intros Hodd On.
  unfold EC.add, EC.requireOnCurve.
  rewrite On, (opposite_on_curve Q On). cbn [negb raise_if bind].
  unfold _jac_from_aff.
  destruct (Z.eqb_spec (py Q) 0) as [Y0|Y0].
  - rewrite Y0. cbn. reflexivity.
  - destruct (isOnCurve_true_finite ec Q On Y0) as [Hy _]. cbn [py px].
    destruct (Z.eqb_spec (_p ec - py Q) 0); [lia|].
    unfold EC._addJacobian. cbn [jx jy jz]. cbn [Z.eqb].
    rewrite Z.eqb_refl.
    replace (py Q * (1 * 1 * 1)) with (py Q) by ring.
    replace ((_p ec - py Q) * (1 * 1 * 1)) with (_p ec - py Q) by ring.
    rewrite !Z.mod_small by lia.
    destruct (Z.eqb_spec (py Q) (_p ec - py Q)) as [C|_]; [|reflexivity].
    exfalso. assert (H2 : _p ec = 2 * py Q) by lia.
    rewrite H2, Z.mul_comm, Z.mod_mul in Hodd by lia. discriminate.
Qed.

(** X2.  On a curve over an odd p, a point and its opposite add up to
    [Point()], whatever the curve and the point [opposite] accepted. *)
Theorem add_opposite (Q Q' : Point) :
  _p ec mod 2 = 1 ->
  EC.opposite ec Q = Ok Q' ->
  EC.add ec Q Q' = Ok Point_default.
Proof.
  intros Hodd E. pose proof (opposite_argument Q Q' E) as On.
  rewrite (opposite_value Q On) in E. apply Ok_inj in E. subst Q'.
  apply add_opposite_value; assumption.
Qed.

End Opposite.

Lemma opposite_involutive_witness :
  exists Q',
    EC.opposite ec11 (mkPoint 5 4) = Ok Q' /\
    EC.isOnCurve ec11 (tuple_of Q') = Ok true /\
    px Q' = px (mkPoint 5 4) /\
    EC.opposite ec11 Q' = Ok (mkPoint 5 4).
Proof. apply (opposite_involutive ec11 (mkPoint 5 4)). reflexivity. Defined.

Lemma add_opposite_witness :
  EC.add ec11 (mkPoint 5 4) (mkPoint 5 7) = Ok Point_default.
Proof.
  apply (add_opposite ec11 (mkPoint 5 4) (mkPoint 5 7)); reflexivity.
Defined.

(** ** The Jacobian law stays on the curve *)

Section JacobianInvariant.
Variable ec : EC.

Add Ring zmod_ring_i :
  (Zmod.ring_theory (_p ec))
  (morphism (of_Z_morph (_p ec)), constants [zmod_cst]).

Lemma on_jacobian_default : on_jacobian ec _JacPoint_default.
Proof. unfold on_jacobian. cbn [jx jy jz _JacPoint_default]. f_equal. ring. Qed.

Lemma on_jacobian_eq (J : _JacPoint) :
  on_jacobian ec J <->
  (Zmod.of_Z (_p ec) (jy J) * Zmod.of_Z (_p ec) (jy J) =
   Zmod.of_Z (_p ec) (jx J) * Zmod.of_Z (_p ec) (jx J) * Zmod.of_Z (_p ec) (jx J) +
   Zmod.of_Z (_p ec) (_a ec) * Zmod.of_Z (_p ec) (jx J) *
   (Zmod.of_Z (_p ec) (jz J) * Zmod.of_Z (_p ec) (jz J) *
    Zmod.of_Z (_p ec) (jz J) * Zmod.of_Z (_p ec) (jz J)) +
   Zmod.of_Z (_p ec) (_b ec) *
   (Zmod.of_Z (_p ec) (jz J) * Zmod.of_Z (_p ec) (jz J) *
    Zmod.of_Z (_p ec) (jz J) * Zmod.of_Z (_p ec) (jz J) *
    Zmod.of_Z (_p ec) (jz J) * Zmod.of_Z (_p ec) (jz J)))%Zmod.
Proof.
  unfold on_jacobian. rewrite <- Zmod.of_Z_inj. push_of_Z. reflexivity.
Qed.

Lemma _addJacobian_on_jacobian (Q R : _JacPoint) :
  on_jacobian ec Q -> on_jacobian ec R ->
  on_jacobian ec (EC._addJacobian ec Q R).
Proof.
  intros HQ HR. unfold EC._addJacobian.
  destruct (jz Q =? 0); [exact HR|]. destruct (jz R =? 0); [exact HQ|].
  cbv zeta.
  destruct (_ =? _); [destruct (_ =? _); [|apply on_jacobian_default]|].
  - apply on_jacobian_eq in HQ. apply on_jacobian_eq. cbn [jx jy jz].
    push_of_Z. ring [HQ].
  - apply on_jacobian_eq in HQ, HR. apply on_jacobian_eq. cbn [jx jy jz].
    push_of_Z. ring [HQ HR].
Qed.

Lemma _pointMultJacobian_loop_on_jacobian (n : positive) :
  forall R Q, on_jacobian ec R -> on_jacobian ec Q ->
  on_jacobian ec (_pointMultJacobian_loop ec n R Q).
Proof.
  induction n as [n IH|n IH|]; intros R Q HR HQ; cbn [_pointMultJacobian_loop];
    repeat first [assumption | apply IH | apply _addJacobian_on_jacobian].
Qed.

Lemma _pointMultJacobian_on_jacobian (n : Z) (Q : _JacPoint) :
  on_jacobian ec Q -> on_jacobian ec (_pointMultJacobian ec n Q).
Proof.
  intros HQ. unfold _pointMultJacobian.
  destruct (jz Q =? 0); [apply on_jacobian_default|].
  destruct n; try apply on_jacobian_default.
  apply _pointMultJacobian_loop_on_jacobian;
    [apply on_jacobian_default | exact HQ].
Qed.

Lemma DblScalarMult_loop_on_jacobian (QJ PJ : _JacPoint) (msb : nat) :
  on_jacobian ec QJ -> on_jacobian ec PJ ->
  forall u v R, on_jacobian ec R ->
  on_jacobian ec (DblScalarMult_loop ec QJ PJ msb u v R).
Proof.
  intros HQ HP. induction msb as [|m IH]; intros u v R HR;
    cbn [DblScalarMult_loop]; [exact HR|].
  destruct (Z.shiftr u (Z.of_nat m) =? 0), (Z.shiftr v (Z.of_nat m) =? 0),
    (1 <? Z.of_nat (S m)); cbv beta iota zeta; apply IH;
    repeat first [assumption | apply _addJacobian_on_jacobian].
Qed.

Lemma _jac_from_aff_on_jacobian (Q : Point) :
  EC.isOnCurve ec (tuple_of Q) = Ok true ->
  on_jacobian ec (_jac_from_aff Q).
Proof.
  intros On. unfold _jac_from_aff.
  destruct (Z.eqb_spec (py Q) 0) as [E|E]; [apply on_jacobian_default|].
  destruct (isOnCurve_true_finite ec Q On E) as [_ Eq].
  unfold on_jacobian. cbn [jx jy jz]. rewrite <- Eq. unfold EC._y2.
  f_equal. ring.
Qed.

(** X3.  The Jacobian law keeps the curve equation
    Y^2 = X^3 + a X Z^4 + b Z^6 (mod p), whatever the modulus: the sum
    of two points that satisfy it satisfies it, and so does every
    multiple that [_pointMultJacobian] computes. *)
Theorem _addJacobian_keeps_curve (Q R : _JacPoint) (n : Z) :
  on_jacobian ec Q -> on_jacobian ec R ->
  on_jacobian ec (EC._addJacobian ec Q R) /\
  on_jacobian ec (_pointMultJacobian ec n Q).
Proof.
  intros HQ HR. split.
  - apply _addJacobian_on_jacobian; assumption.
  - apply _pointMultJacobian_on_jacobian, HQ.
Qed.

(** *** Z stays reduced *)

Lemma _addJacobian_jz (Q R : _JacPoint) :
  0 < _p ec -> jz_reduced ec Q -> jz_reduced ec R ->
  jz_reduced ec (EC._addJacobian ec Q R).
Proof.
  intros Hp HQ HR. unfold EC._addJacobian.
  destruct (jz Q =? 0); [exact HR|]. destruct (jz R =? 0); [exact HQ|].
  cbv zeta.
  destruct (_ =? _); [destruct (_ =? _)|]; unfold jz_reduced; cbn [jz];
    try (apply Z.mod_pos_bound; exact Hp).
  cbn. lia.
Qed.

Lemma _pointMultJacobian_loop_jz (n : positive) :
  0 < _p ec ->
  forall R Q, jz_reduced ec R -> jz_reduced ec Q ->
  jz_reduced ec (_pointMultJacobian_loop ec n R Q).
Proof.
  intros Hp. induction n as [n IH|n IH|]; intros R Q HR HQ;
    cbn [_pointMultJacobian_loop];
    repeat first [assumption | apply IH | apply _addJacobian_jz].
Qed.

Lemma _JacPoint_default_jz : 0 < _p ec -> jz_reduced ec _JacPoint_default.
Proof. intros Hp. unfold jz_reduced. cbn. lia. Qed.

Lemma _pointMultJacobian_jz (n : Z) (Q : _JacPoint) :
  0 < _p ec -> jz_reduced ec Q -> jz_reduced ec (_pointMultJacobian ec n Q).
Proof.
  intros Hp HQ. unfold _pointMultJacobian.
  destruct (jz Q =? 0); [apply _JacPoint_default_jz, Hp|].
  destruct n; try (apply _JacPoint_default_jz, Hp).
  apply _pointMultJacobian_loop_jz;
    [exact Hp | apply _JacPoint_default_jz, Hp | exact HQ].
Qed.

Lemma DblScalarMult_loop_jz (QJ PJ : _JacPoint) (msb : nat) :
  0 < _p ec -> jz_reduced ec QJ -> jz_reduced ec PJ ->
  forall u v R, jz_reduced ec R ->
  jz_reduced ec (DblScalarMult_loop ec QJ PJ msb u v R).
Proof.
  intros Hp HQ HP. induction msb as [|m IH]; intros u v R HR;
    cbn [DblScalarMult_loop]; [exact HR|].
  destruct (Z.shiftr u (Z.of_nat m) =? 0), (Z.shiftr v (Z.of_nat m) =? 0),
    (1 <? Z.of_nat (S m)); cbv beta iota zeta; apply IH;
    repeat first [assumption | apply _addJacobian_jz].
Qed.

Lemma _jac_from_aff_jz (Q : Point) :
  1 < _p ec -> jz_reduced ec (_jac_from_aff Q).
Proof.
  intros Hp. unfold _jac_from_aff, jz_reduced.
  destruct (py Q =? 0); cbn; lia.
Qed.

End JacobianInvariant.

Lemma _addJacobian_keeps_curve_witness :
  on_jacobian ec11 (EC._addJacobian ec11 (mkJac 5 4 1) (mkJac 0 1 1)) /\
  on_jacobian ec11 (_pointMultJacobian ec11 7 (mkJac 5 4 1)).
Proof.
  apply (_addJacobian_keeps_curve ec11 (mkJac 5 4 1) (mkJac 0 1 1) 7);
    reflexivity.
Defined.

(** *** Back to affine coordinates *)

Section Closed.
Variable ec : EC.
Hypothesis prime_p : Z.prime (_p ec).

Add Field zmod_field_k :
  (Zmod.field_theory (_p ec) prime_p)
  (morphism (of_Z_morph (_p ec)), constants [zmod_cst]).

Lemma reduced_on_curve_default : reduced_on_curve ec Point_default.
Proof.
  pose proof (Z.prime_ge_2 _ prime_p).
  split; [reflexivity|]. cbn. lia.
Qed.

(** A Jacobian point of the curve with Z reduced has an affine form,
    which [isOnCurve] accepts. *)
Lemma _affine_from_jac_on_curve (J : _JacPoint) :
  on_jacobian ec J -> jz_reduced ec J ->
  exists P, EC._affine_from_jac ec J = Ok P /\ reduced_on_curve ec P.
Proof.
  intros HJ Hz. pose proof (Z.prime_ge_2 _ prime_p) as H2.
  unfold EC._affine_from_jac.
  destruct (Z.eqb_spec (jz J) 0) as [Z0|Z0].
  { exists Point_default. split; [reflexivity | apply reduced_on_curve_default]. }
  assert (Fz : Zmod.of_Z (_p ec) (jz J) <> Zmod.zero).
  { apply of_Z_small_nonzero. unfold jz_reduced in Hz. lia. }
  rewrite mod_inv_Ok; [|exact prime_p|].
  2:{ apply of_Z_nonzero. push_of_Z. apply (fmul_nonzero _ prime_p); exact Fz. }
  cbn [bind].
  rewrite mod_inv_Ok; [|exact prime_p|].
  2:{ apply of_Z_nonzero. push_of_Z.
      repeat apply (fmul_nonzero _ prime_p); exact Fz. }
  cbn [bind]. eexists. split; [reflexivity|].
  set (x := (jx J * _) mod _p ec). set (y := (jy J * _) mod _p ec).
  assert (Hx : 0 <= x < _p ec) by (apply Z.mod_pos_bound; lia).
  assert (Hy : 0 <= y < _p ec) by (apply Z.mod_pos_bound; lia).
  split; [|split; assumption].
  destruct (Z.eq_dec y 0) as [Y0|Y0].
  { unfold EC.isOnCurve, tuple_of.
    cbn [List.length Nat.eqb negb raise_if bind nth px py].
    rewrite Y0. reflexivity. }
  apply isOnCurve_finite; [lia|]. unfold EC._y2.
  apply on_jacobian_eq in HJ.
  apply Zmod.of_Z_inj. subst x y. push_of_Z. rewrite !of_Z_invmod. push_of_Z.
  symmetry. field [HJ]. exact Fz.
Qed.

Lemma add_reduced_on_curve (Q R : Point) :
  EC.isOnCurve ec (tuple_of Q) = Ok true ->
  EC.isOnCurve ec (tuple_of R) = Ok true ->
  exists P, EC.add ec Q R = Ok P /\ reduced_on_curve ec P.
Proof.
  intros OnQ OnR. pose proof (Z.prime_ge_2 _ prime_p) as H2.
  unfold EC.add. rewrite !requireOnCurve_on by assumption.
  cbn [bind]. cbv zeta. apply _affine_from_jac_on_curve.
  - apply _addJacobian_on_jacobian; apply _jac_from_aff_on_jacobian; assumption.
  - apply _addJacobian_jz; try apply _jac_from_aff_jz; lia.
Qed.

Lemma pointMult_reduced_on_curve (k : Z) (Q : Point) :
  EC.isOnCurve ec (tuple_of Q) = Ok true ->
  exists P, pointMult ec k Q = Ok P /\ reduced_on_curve ec P.
Proof.
  intros OnQ. pose proof (Z.prime_ge_2 _ prime_p) as H2.
  unfold pointMult. rewrite requireOnCurve_on by assumption.
  cbn [bind]. cbv zeta. apply _affine_from_jac_on_curve.
  - apply _pointMultJacobian_on_jacobian, _jac_from_aff_on_jacobian, OnQ.
  - apply _pointMultJacobian_jz; [|apply _jac_from_aff_jz]; lia.
Qed.

(** X4.  Over a prime field [add] does not raise on arguments that
    [isOnCurve] accepts, and what it returns is accepted by
    [isOnCurve] and has its coordinates in [0, p). *)
Theorem add_closed (Q R : Point) :
  EC.isOnCurve ec (tuple_of Q) = Ok true ->
  EC.isOnCurve ec (tuple_of R) = Ok true ->
  exists P,
    EC.add ec Q R = Ok P /\
    EC.isOnCurve ec (tuple_of P) = Ok true /\
    0 <= px P < _p ec /\ 0 <= py P < _p ec.
Proof.
  intros OnQ OnR.
  destruct (add_reduced_on_curve Q R OnQ OnR) as [P [E [On [Hx Hy]]]].
  exists P. repeat split; solve [assumption | apply Hx | apply Hy].
Qed.

(** X5.  Over a prime field [pointMult] does not raise on a point that
    [isOnCurve] accepts, whatever the scalar, and what it returns is
    accepted by [isOnCurve] and has its coordinates in [0, p); on any
    other point it raises [ValueError]. *)
Theorem pointMult_closed (k : Z) (Q : Point) :
  match EC.isOnCurve ec (tuple_of Q) with
  | Ok true =>
      exists P,
        pointMult ec k Q = Ok P /\
        EC.isOnCurve ec (tuple_of P) = Ok true /\
        0 <= px P < _p ec /\ 0 <= py P < _p ec
  | _ => exists m, pointMult ec k Q = Raise (ValueError, m)
  end.
Proof.
  destruct (EC.isOnCurve ec (tuple_of Q)) as [[|]|e] eqn:On.
  - destruct (pointMult_reduced_on_curve k Q On) as [P [E [OnP [Hx Hy]]]].
    exists P. repeat split; solve [assumption | apply Hx | apply Hy].
  - unfold pointMult, EC.requireOnCurve. rewrite On. cbn. eauto.
  - unfold pointMult, EC.requireOnCurve. rewrite On. cbn [bind].
    revert On. unfold EC.isOnCurve, tuple_of.
    cbn [List.length Nat.eqb negb raise_if bind nth].
    destruct (py Q =? 0); [discriminate|].
    destruct ((0 <? py Q) && (py Q <? _p ec)); cbn [negb raise_if bind];
      [discriminate|]. intros [= <-]. eauto.
Qed.

(** X6.  Over a prime field [DblScalarMult] does not raise when both
    points are accepted by [isOnCurve], and what it returns is accepted
    by [isOnCurve] and has its coordinates in [0, p). *)
Theorem DblScalarMult_closed (u v : Z) (Q P : Point) :
  EC.isOnCurve ec (tuple_of Q) = Ok true ->
  EC.isOnCurve ec (tuple_of P) = Ok true ->
  exists S,
    DblScalarMult ec u Q v P = Ok S /\
    EC.isOnCurve ec (tuple_of S) = Ok true /\
    0 <= px S < _p ec /\ 0 <= py S < _p ec.
Proof.
  intros OnQ OnP. pose proof (Z.prime_ge_2 _ prime_p) as H2.
  assert (PM : forall k T, EC.isOnCurve ec (tuple_of T) = Ok true ->
            exists S, EC._affine_from_jac ec
                        (_pointMultJacobian ec (k mod ec_n ec) (_jac_from_aff T))
                      = Ok S /\ reduced_on_curve ec S).
  { intros k T OnT. apply _affine_from_jac_on_curve.
    - apply _pointMultJacobian_on_jacobian, _jac_from_aff_on_jacobian, OnT.
    - apply _pointMultJacobian_jz; [|apply _jac_from_aff_jz]; lia. }
  assert (G : exists S, DblScalarMult ec u Q v P = Ok S /\
                        reduced_on_curve ec S).
  { unfold DblScalarMult. rewrite !requireOnCurve_on by assumption.
    cbn [bind]. cbv zeta.
    destruct (u =? 0).
    { destruct (v =? 0); [|apply PM, OnP].
      exists Point_default. split; [reflexivity|apply reduced_on_curve_default]. }
    destruct (py Q =? 0); [apply PM, OnP|].
    destruct (v =? 0); [apply PM, OnQ|].
    destruct (py P =? 0); [apply PM, OnQ|].
    apply _affine_from_jac_on_curve.
    - apply DblScalarMult_loop_on_jacobian;
        try (apply _jac_from_aff_on_jacobian; assumption).
      apply on_jacobian_default.
    - apply DblScalarMult_loop_jz; try apply _jac_from_aff_jz; try lia.
      apply _JacPoint_default_jz. lia. }
  destruct G as [S [E [On [Hx Hy]]]].
  exists S. repeat split; solve [assumption | apply Hx | apply Hy].
Qed.

End Closed.

Lemma add_closed_witness :
  exists P,
    EC.add ec11 (mkPoint 5 4) (mkPoint 5 4) = Ok P /\
    EC.isOnCurve ec11 (tuple_of P) = Ok true /\
    0 <= px P < _p ec11 /\ 0 <= py P < _p ec11.
Proof.
  apply (add_closed ec11 prime_11 (mkPoint 5 4) (mkPoint 5 4)); reflexivity.
Defined.

Lemma pointMult_closed_witness :
  exists P,
    pointMult ec11 2 (mkPoint 5 4) = Ok P /\
    EC.isOnCurve ec11 (tuple_of P) = Ok true /\
    0 <= px P < _p ec11 /\ 0 <= py P < _p ec11.
Proof. exact (pointMult_closed ec11 prime_11 2 (mkPoint 5 4)). Defined.

Lemma DblScalarMult_closed_witness :
  exists S,
    DblScalarMult ec11 2 (mkPoint 5 4) 1 (mkPoint 0 1) = Ok S /\
    EC.isOnCurve ec11 (tuple_of S) = Ok true /\
    0 <= px S < _p ec11 /\ 0 <= py S < _p ec11.
Proof.
  apply (DblScalarMult_closed ec11 prime_11 2 1 (mkPoint 5 4) (mkPoint 0 1));
    reflexivity.
Defined.

(** ** Multiples in a commutative monoid *)

Section Multiples.
Context {G : Type} (op : G -> G -> G) (e : G).
Context {op_assoc : Associative eq op} {op_comm : Commutative eq op}
  {op_unit : Unit eq op e}.

Lemma nmul_mul (j k : nat) (a : G) :
  nmul op e (j * k) a = nmul op e j (nmul op e k a).
Proof.
  induction j as [|j IH]; cbn [nmul Nat.mul]; [reflexivity|].
  rewrite (nmul_add op e), IH. reflexivity.
Qed.

(** Multiples of a point of order dividing n depend on the scalar
    modulo n. *)
Lemma nmul_period (n : nat) (a : G) :
  nmul op e n a = e ->
  forall j k, nmul op e (j * n + k) a = nmul op e k a.
Proof.
  intros Hn j k. rewrite (nmul_add op e), nmul_mul, Hn.
  rewrite (nmul_e op e). aac_reflexivity.
Qed.

Lemma nmul_mod (n : Z) (a : G) :
  0 < n -> nmul op e (Z.to_nat n) a = e ->
  forall k, 0 <= k ->
  nmul op e (Z.to_nat (k mod n)) a = nmul op e (Z.to_nat k) a.
Proof.
  intros Hn En k Hk.
  rewrite (Z.div_mod k n) at 2 by lia.
  pose proof (Z.mod_pos_bound k n Hn). pose proof (Z.div_pos k n Hk Hn).
  rewrite Z2Nat.inj_add, Z2Nat.inj_mul by nia.
  rewrite (Nat.mul_comm (Z.to_nat n)). symmetry. apply nmul_period, En.
Qed.

Lemma inverse_unique (a x y : G) : op a x = e -> op a y = e -> x = y.
Proof.
  intros Hx Hy.
  transitivity (op (op a y) x); [rewrite Hy; aac_reflexivity|].
  transitivity (op (op a x) y); [aac_reflexivity|].
  rewrite Hx. aac_reflexivity.
Qed.

End Multiples.

(** ** The group laws of [add] and [pointMult] *)

Section GroupLaws.
Variable ec : EC.
Hypothesis prime_p : Z.prime (_p ec).
Hypothesis odd_p : 2 < _p ec.
Hypothesis no_y0 : no_order_two ec.

#[local] Instance cp_assoc_g : Associative eq (cp_add ec) :=
  cp_add_assoc ec prime_p odd_p no_y0.
#[local] Instance cp_comm_g : Commutative eq (cp_add ec) :=
  cp_add_comm ec prime_p odd_p no_y0.
#[local] Instance cp_unit_g : Unit eq (cp_add ec) (cp_zero ec) :=
  cp_add_unit ec prime_p odd_p no_y0.

Declare Scope gl_scope.
Notation "A + B" := (cp_add ec A B) : gl_scope.
Notation "k ** A" := (nmul (cp_add ec) (cp_zero ec) k A)
  (at level 40) : gl_scope.
Local Open Scope gl_scope.

(** The point of the curve that a pair stands for. *)
Lemma on_curve_point (Q : Point) :
  EC.isOnCurve ec (tuple_of Q) = Ok true ->
  exists q : CurvePoint ec,
    cp_repr ec (_jac_from_aff Q) q /\ proj1_sig q = canonical ec Q.
Proof.
  intros On.
  destruct (curve_point_CurvePoint ec (canonical ec Q)) as [q Eq].
  { apply isOnCurve_canonical; assumption. }
  exists q. split; [|exact Eq].
  unfold cp_repr. rewrite Eq. apply _jac_from_aff_repr; assumption.
Qed.

Lemma add_sum (Q R : Point) (q r : CurvePoint ec) :
  EC.isOnCurve ec (tuple_of Q) = Ok true ->
  EC.isOnCurve ec (tuple_of R) = Ok true ->
  cp_repr ec (_jac_from_aff Q) q -> cp_repr ec (_jac_from_aff R) r ->
  EC.add ec Q R = Ok (proj1_sig (q + r)).
Proof.
  intros OnQ OnR RQ RR. unfold EC.add.
  rewrite !requireOnCurve_on by assumption. cbn [bind]. cbv zeta.
  apply (_affine_from_jac_cp ec prime_p odd_p).
  apply _addJacobian_cp_add; assumption.
Qed.

Lemma CurvePoint_repr (A : CurvePoint ec) :
  cp_repr ec (_jac_from_aff (proj1_sig A)) A.
Proof. apply _jac_from_aff_CurvePoint; assumption. Qed.

(** X7.  [add] is commutative on the pairs [isOnCurve] accepts. *)
Theorem add_commutative (Q R : Point) :
  EC.isOnCurve ec (tuple_of Q) = Ok true ->
  EC.isOnCurve ec (tuple_of R) = Ok true ->
  EC.add ec Q R = EC.add ec R Q.
Proof.
  intros OnQ OnR.
  destruct (on_curve_point Q OnQ) as [q [RQ _]].
  destruct (on_curve_point R OnR) as [r [RR _]].
  rewrite (add_sum Q R q r), (add_sum R Q r q) by assumption.
  do 2 f_equal. aac_reflexivity.
Qed.

(** X8.  [add] is associative: adding S to Q + R and adding Q to R + S
    return the same point. *)
Theorem add_associative (Q R S : Point) :
  EC.isOnCurve ec (tuple_of Q) = Ok true ->
  EC.isOnCurve ec (tuple_of R) = Ok true ->
  EC.isOnCurve ec (tuple_of S) = Ok true ->
  (A <- EC.add ec Q R ;; EC.add ec A S) =
  (B <- EC.add ec R S ;; EC.add ec Q B).
Proof.
  intros OnQ OnR OnS.
  destruct (on_curve_point Q OnQ) as [q [RQ _]].
  destruct (on_curve_point R OnR) as [r [RR _]].
  destruct (on_curve_point S OnS) as [s [RS _]].
  rewrite (add_sum Q R q r), (add_sum R S r s) by assumption.
  cbn [bind].
  rewrite (add_sum _ S (q + r) s), (add_sum Q _ q (r + s));
    try assumption; try apply CurvePoint_isOnCurve; try apply CurvePoint_repr.
  do 2 f_equal. aac_reflexivity.
Qed.

(** X9.  Adding [Point()], or infinity in any encoding, on either side
    returns the other argument in canonical form: x reduced modulo p,
    and [Point()] for infinity. *)
Theorem add_infinity (Q I : Point) :
  EC.isOnCurve ec (tuple_of Q) = Ok true -> py I = 0 ->
  EC.add ec Q I = Ok (canonical ec Q) /\
  EC.add ec I Q = Ok (canonical ec Q).
Proof.
  intros OnQ YI.
  assert (OnI : EC.isOnCurve ec (tuple_of I) = Ok true).
  { unfold EC.isOnCurve, tuple_of.
    cbn [List.length Nat.eqb negb raise_if bind nth]. rewrite YI. reflexivity. }
  pose proof (_jac_from_aff_repr ec prime_p odd_p Q OnQ) as [W _].
  unfold EC.add. rewrite !requireOnCurve_on by assumption.
  cbn [bind]. cbv zeta.
  assert (JI : _jac_from_aff I = _JacPoint_default)
    by (unfold _jac_from_aff; rewrite YI; reflexivity).
  rewrite JI. unfold EC._addJacobian. cbn [jz _JacPoint_default Z.eqb].
  split.
  - destruct (Z.eqb_spec (jz (_jac_from_aff Q)) 0) as [Z0|Z0];
      [|apply _affine_from_jac_repr; assumption].
    destruct W as [[_ ->]|[Hz _]]; [reflexivity | lia].
  - apply _affine_from_jac_repr; assumption.
Qed.

Hypothesis n_pos : 0 < ec_n ec.

Lemma pointMult_multiple (k : Z) (Q : Point) (q : CurvePoint ec) :
  EC.isOnCurve ec (tuple_of Q) = Ok true ->
  cp_repr ec (_jac_from_aff Q) q ->
  pointMult ec k Q = Ok (proj1_sig (Z.to_nat (k mod ec_n ec) ** q)).
Proof. apply pointMult_value; assumption. Qed.

(** X10.  [pointMult] is repeated addition: with a scalar 0 it returns
    [Point()], and below n each further unit of the scalar adds the
    point once more. *)
Theorem pointMult_step (k : Z) (Q : Point) :
  EC.isOnCurve ec (tuple_of Q) = Ok true ->
  0 <= k -> k + 1 < ec_n ec ->
  pointMult ec 0 Q = Ok Point_default /\
  pointMult ec (k + 1) Q = (A <- pointMult ec k Q ;; EC.add ec A Q).
Proof.
  intros OnQ Hk Hn. destruct (on_curve_point Q OnQ) as [q [RQ _]].
  split.
  - rewrite (pointMult_multiple 0 Q q OnQ RQ), Zmod_0_l. reflexivity.
  - rewrite (pointMult_multiple (k + 1) Q q OnQ RQ),
      (pointMult_multiple k Q q OnQ RQ).
    cbn [bind].
    rewrite (add_sum _ Q (Z.to_nat (k mod ec_n ec) ** q) q);
      try assumption; try apply CurvePoint_isOnCurve; try apply CurvePoint_repr.
    rewrite !Z.mod_small by lia.
    rewrite Z2Nat.inj_add by lia. change (Z.to_nat 1) with 1%nat.
    rewrite (nmul_add (cp_add ec) (cp_zero ec)). cbn [nmul].
    do 2 f_equal. aac_reflexivity.
Qed.

(** X11.  Multiplying by j and then by k gives the same point as
    multiplying by k and then by j (the two sides of a Diffie-Hellman
    exchange). *)
Theorem pointMult_exchange (j k : Z) (Q : Point) :
  EC.isOnCurve ec (tuple_of Q) = Ok true ->
  (A <- pointMult ec j Q ;; pointMult ec k A) =
  (B <- pointMult ec k Q ;; pointMult ec j B).
Proof.
  intros OnQ. destruct (on_curve_point Q OnQ) as [q [RQ _]].
  rewrite (pointMult_multiple j Q q OnQ RQ), (pointMult_multiple k Q q OnQ RQ).
  cbn [bind].
  rewrite !(pointMult_multiple _ _ _ (CurvePoint_isOnCurve ec _)
              (CurvePoint_repr _)).
  rewrite <- !(nmul_mul (cp_add ec) (cp_zero ec)), Nat.mul_comm. reflexivity.
Qed.

(** The order of a point divides n: (n - 1) Q + Q is infinity, the test
    the constructor makes on the generator. *)
Lemma order_divides (Q : Point) (q : CurvePoint ec) :
  EC.isOnCurve ec (tuple_of Q) = Ok true ->
  cp_repr ec (_jac_from_aff Q) q ->
  (M <- pointMult ec (ec_n ec - 1) Q ;; EC.add ec M Q) = Ok Point_default ->
  Z.to_nat (ec_n ec) ** q = cp_zero ec.
Proof.
  intros OnQ RQ E.
  rewrite (pointMult_multiple _ Q q OnQ RQ) in E. cbn [bind] in E.
  rewrite (add_sum _ Q (Z.to_nat ((ec_n ec - 1) mod ec_n ec) ** q) q) in E;
    try assumption; try apply CurvePoint_isOnCurve; try apply CurvePoint_repr.
  apply Ok_inj in E. apply CurvePoint_eq. cbn [cp_zero proj1_sig].
  rewrite <- E. f_equal.
  destruct (Z.eq_dec (ec_n ec) 1) as [E1|N1].
  - rewrite E1. change (Z.to_nat ((1 - 1) mod 1)) with 0%nat.
    change (Z.to_nat 1) with 1%nat. cbn [nmul]. aac_reflexivity.
  - rewrite Z.mod_small by lia.
    replace (Z.to_nat (ec_n ec)) with (Z.to_nat (ec_n ec - 1) + 1)%nat by lia.
    rewrite (nmul_add (cp_add ec) (cp_zero ec)). cbn [nmul]. aac_reflexivity.
Qed.

(** X12.  For a point whose order divides n ((n - 1) Q + Q is infinity,
    as the constructor checks for G), [pointMult] is additive and
    multiplicative in the scalar, for all integers j and k. *)
Theorem pointMult_scalars (j k : Z) (Q : Point) :
  EC.isOnCurve ec (tuple_of Q) = Ok true ->
  (M <- pointMult ec (ec_n ec - 1) Q ;; EC.add ec M Q) = Ok Point_default ->
  pointMult ec (j + k) Q =
    (A <- pointMult ec j Q ;; B <- pointMult ec k Q ;; EC.add ec A B) /\
  pointMult ec (j * k) Q = (A <- pointMult ec k Q ;; pointMult ec j A).
Proof.
  intros OnQ E. destruct (on_curve_point Q OnQ) as [q [RQ _]].
  pose proof (order_divides Q q OnQ RQ E) as En.
  pose proof (Z.mod_pos_bound j _ n_pos) as Bj.
  pose proof (Z.mod_pos_bound k _ n_pos) as Bk.
  rewrite !(pointMult_multiple _ Q q OnQ RQ). cbn [bind].
  split.
  - rewrite (add_sum _ _ _ _ (CurvePoint_isOnCurve ec _)
               (CurvePoint_isOnCurve ec _) (CurvePoint_repr _)
               (CurvePoint_repr _)).
    rewrite <- (nmul_add (cp_add ec) (cp_zero ec)), <- Z2Nat.inj_add by lia.
    rewrite Zplus_mod.
    rewrite (nmul_mod (cp_add ec) (cp_zero ec) _ q n_pos En) by lia.
    reflexivity.
  - rewrite !(pointMult_multiple _ _ _ (CurvePoint_isOnCurve ec _)
                (CurvePoint_repr _)).
    rewrite <- (nmul_mul (cp_add ec) (cp_zero ec)), <- Z2Nat.inj_mul by lia.
    rewrite Zmult_mod.
    rewrite (nmul_mod (cp_add ec) (cp_zero ec) _ q n_pos En) by nia.
    reflexivity.
Qed.

Lemma CurvePoint_opposite (A : CurvePoint ec) :
  exists B : CurvePoint ec,
    EC.opposite ec (proj1_sig A) = Ok (proj1_sig B) /\ A + B = cp_zero ec.
Proof.
  pose proof (CurvePoint_isOnCurve ec A) as On.
  pose proof (odd_prime_mod_2 _ prime_p ltac:(lia)) as Hodd.
  set (O := if py (proj1_sig A) =? 0 then proj1_sig A
            else mkPoint (px (proj1_sig A)) (_p ec - py (proj1_sig A))).
  assert (C : curve_point ec O).
  { pose proof (isOnCurve_canonical ec odd_p O (opposite_on_curve ec _ On)) as C.
    replace (canonical ec O) with O in C; [exact C|].
    subst O. unfold canonical.
    destruct (CurvePoint_curve_point ec A) as [->|[Hx [Hy _]]]; [reflexivity|].
    destruct (Z.eqb_spec (py (proj1_sig A)) 0); [lia|]. cbn [px py].
    destruct (Z.eqb_spec (_p ec - py (proj1_sig A)) 0); [lia|].
    rewrite Z.mod_small by lia. reflexivity. }
  destruct (curve_point_CurvePoint ec O C) as [B EB].
  exists B. split.
  - rewrite EB. apply opposite_value, On.
  - apply CurvePoint_eq. cbn [cp_zero proj1_sig]. apply Ok_inj.
    rewrite <- (add_sum (proj1_sig A) (proj1_sig B) A B On
                  (CurvePoint_isOnCurve ec B) (CurvePoint_repr A)
                  (CurvePoint_repr B)).
    rewrite EB. apply add_opposite_value; assumption.
Qed.

(** X13.  The opposite of a multiple is the multiple of the opposite. *)
Theorem pointMult_opposite (k : Z) (Q : Point) :
  EC.isOnCurve ec (tuple_of Q) = Ok true ->
  (Q' <- EC.opposite ec Q ;; pointMult ec k Q') =
  (R <- pointMult ec k Q ;; EC.opposite ec R).
Proof.
  intros OnQ. destruct (on_curve_point Q OnQ) as [q [RQ _]].
  pose proof (odd_prime_mod_2 _ prime_p ltac:(lia)) as Hodd.
  rewrite (opposite_value ec Q OnQ). cbn [bind].
  pose proof (opposite_on_curve ec Q OnQ) as OnO.
  pose proof (add_opposite_value ec Q Hodd OnQ) as EO.
  set (O := if py Q =? 0 then Q else mkPoint (px Q) (_p ec - py Q)) in *.
  destruct (on_curve_point O OnO) as [o [RO _]].
  rewrite (add_sum Q O q o OnQ OnO RQ RO) in EO. apply Ok_inj in EO.
  assert (Z0 : q + o = cp_zero ec) by (apply CurvePoint_eq; exact EO).
  rewrite (pointMult_multiple k O o OnO RO), (pointMult_multiple k Q q OnQ RQ).
  cbn [bind].
  set (m := Z.to_nat (k mod ec_n ec)).
  destruct (CurvePoint_opposite (m ** q)) as [B [EB ZB]].
  rewrite EB. do 2 f_equal.
  apply (inverse_unique (cp_add ec) (cp_zero ec) (m ** q)); [|exact ZB].
  rewrite <- (nmul_op (cp_add ec) (cp_zero ec)), Z0.
  apply (nmul_e (cp_add ec) (cp_zero ec)).
Qed.

(** X14.  For a point whose order divides n, a negative scalar gives
    the opposite of the multiple: (-k) Q = -(k Q). *)
Theorem pointMult_negative (k : Z) (Q : Point) :
  EC.isOnCurve ec (tuple_of Q) = Ok true ->
  (M <- pointMult ec (ec_n ec - 1) Q ;; EC.add ec M Q) = Ok Point_default ->
  pointMult ec (- k) Q = (R <- pointMult ec k Q ;; EC.opposite ec R).
Proof.
  intros OnQ E. destruct (on_curve_point Q OnQ) as [q [RQ _]].
  pose proof (order_divides Q q OnQ RQ E) as En.
  pose proof (Z.mod_pos_bound k _ n_pos) as Bk.
  pose proof (Z.mod_pos_bound (- k) _ n_pos) as Bo.
  rewrite !(pointMult_multiple _ Q q OnQ RQ). cbn [bind].
  destruct (CurvePoint_opposite (Z.to_nat (k mod ec_n ec) ** q))
    as [B [EB ZB]].
  rewrite EB. do 2 f_equal.
  apply (inverse_unique (cp_add ec) (cp_zero ec)
           (Z.to_nat (k mod ec_n ec) ** q)); [|exact ZB].
  rewrite <- (nmul_add (cp_add ec) (cp_zero ec)), <- Z2Nat.inj_add by lia.
  rewrite <- (nmul_mod (cp_add ec) (cp_zero ec) _ q n_pos En) by lia.
  rewrite <- Zplus_mod, Z.add_opp_diag_r, Zmod_0_l. reflexivity.
Qed.

Lemma _pointMultAffine_loop_double_and_add (n : positive) :
  forall R Q r q,
  EC.isOnCurve ec (tuple_of R) = Ok true ->
  EC.isOnCurve ec (tuple_of Q) = Ok true ->
  cp_repr ec (_jac_from_aff R) r -> cp_repr ec (_jac_from_aff Q) q ->
  _pointMultAffine_loop ec n R Q =
  Ok (proj1_sig (double_and_add (cp_add ec) n r q)).
Proof.
  induction n as [n IH|n IH|]; intros R Q r q OnR OnQ RR RQ;
    cbn [_pointMultAffine_loop double_and_add];
    rewrite ?(add_sum R Q r q OnR OnQ RR RQ), (add_sum Q Q q q OnQ OnQ RQ RQ);
    cbn [bind].
  - apply IH; try apply CurvePoint_isOnCurve; apply CurvePoint_repr.
  - apply IH; try assumption;
      try apply CurvePoint_isOnCurve; apply CurvePoint_repr.
  - reflexivity.
Qed.

(** X15.  For a finite point of the curve and a scalar in [0, n), the
    affine double-and-add [_pointMultAffine] returns what [pointMult]
    returns. *)
Theorem _pointMultAffine_pointMult (k : Z) (Q : Point) :
  EC.isOnCurve ec (tuple_of Q) = Ok true -> py Q <> 0 ->
  0 <= k < ec_n ec ->
  _pointMultAffine ec k Q = pointMult ec k Q.
Proof.
  intros OnQ Y0 Hk. destruct (on_curve_point Q OnQ) as [q [RQ _]].
  rewrite (pointMult_multiple k Q q OnQ RQ), Z.mod_small by exact Hk.
  unfold _pointMultAffine. destruct (Z.eqb_spec (py Q) 0); [contradiction|].
  destruct k as [|k|k]; [reflexivity | | lia].
  rewrite (_pointMultAffine_loop_double_and_add k Point_default Q
             (cp_zero ec) q); try assumption;
    [|reflexivity | apply (CurvePoint_repr (cp_zero ec))].
  rewrite (double_and_add_correct (cp_add ec) (cp_zero ec)).
  rewrite Z2Nat.inj_pos. do 2 f_equal. aac_reflexivity.
Qed.

End GroupLaws.

Lemma add_commutative_witness :
  EC.add ec7 (mkPoint 1 2) (mkPoint 2 2) =
  EC.add ec7 (mkPoint 2 2) (mkPoint 1 2).
Proof.
  apply (add_commutative ec7 prime_7 ltac:(reflexivity) no_order_two_ec7
           (mkPoint 1 2) (mkPoint 2 2)); reflexivity.
Defined.

Lemma add_associative_witness :
  (A <- EC.add ec7 (mkPoint 1 2) (mkPoint 2 2) ;; EC.add ec7 A (mkPoint 1 5)) =
  (B <- EC.add ec7 (mkPoint 2 2) (mkPoint 1 5) ;; EC.add ec7 (mkPoint 1 2) B).
Proof.
  apply (add_associative ec7 prime_7 ltac:(reflexivity) no_order_two_ec7
           (mkPoint 1 2) (mkPoint 2 2) (mkPoint 1 5)); reflexivity.
Defined.

Lemma add_infinity_witness :
  EC.add ec7 (mkPoint 8 2) (mkPoint 5 0) = Ok (canonical ec7 (mkPoint 8 2)) /\
  EC.add ec7 (mkPoint 5 0) (mkPoint 8 2) = Ok (canonical ec7 (mkPoint 8 2)).
Proof.
  apply (add_infinity ec7 prime_7 ltac:(reflexivity)
           (mkPoint 8 2) (mkPoint 5 0)); reflexivity.
Defined.

Lemma pointMult_step_witness :
  pointMult ec7 0 (mkPoint 1 2) = Ok Point_default /\
  pointMult ec7 (4 + 1) (mkPoint 1 2) =
    (A <- pointMult ec7 4 (mkPoint 1 2) ;; EC.add ec7 A (mkPoint 1 2)).
Proof.
  apply (pointMult_step ec7 prime_7 ltac:(reflexivity) no_order_two_ec7
           ltac:(reflexivity) 4 (mkPoint 1 2)); [reflexivity | lia | reflexivity].
Defined.

Lemma pointMult_exchange_witness :
  (A <- pointMult ec7 5 (mkPoint 1 2) ;; pointMult ec7 3 A) =
  (B <- pointMult ec7 3 (mkPoint 1 2) ;; pointMult ec7 5 B).
Proof.
  apply (pointMult_exchange ec7 prime_7 ltac:(reflexivity) no_order_two_ec7
           ltac:(reflexivity) 5 3 (mkPoint 1 2)); reflexivity.
Defined.

Lemma pointMult_scalars_witness :
  pointMult ec7 (9 + 11) (mkPoint 1 2) =
    (A <- pointMult ec7 9 (mkPoint 1 2) ;;
     B <- pointMult ec7 11 (mkPoint 1 2) ;; EC.add ec7 A B) /\
  pointMult ec7 (9 * 11) (mkPoint 1 2) =
    (A <- pointMult ec7 11 (mkPoint 1 2) ;; pointMult ec7 9 A).
Proof.
  apply (pointMult_scalars ec7 prime_7 ltac:(reflexivity) no_order_two_ec7
           ltac:(reflexivity) 9 11 (mkPoint 1 2)); reflexivity.
Defined.

Lemma pointMult_opposite_witness :
  (Q' <- EC.opposite ec7 (mkPoint 1 2) ;; pointMult ec7 5 Q') =
  (R <- pointMult ec7 5 (mkPoint 1 2) ;; EC.opposite ec7 R).
Proof.
  apply (pointMult_opposite ec7 prime_7 ltac:(reflexivity) no_order_two_ec7
           ltac:(reflexivity) 5 (mkPoint 1 2)); reflexivity.
Defined.

Lemma _pointMultAffine_pointMult_witness :
  _pointMultAffine ec7 11 (mkPoint 1 2) = pointMult ec7 11 (mkPoint 1 2).
Proof.
  apply (_pointMultAffine_pointMult ec7 prime_7 ltac:(reflexivity)
           no_order_two_ec7 ltac:(reflexivity) 11 (mkPoint 1 2));
    [reflexivity | discriminate | change (0 <= 11 < 13); lia].
Defined.

Lemma pointMult_negative_witness :
  pointMult ec7 (- 5) (mkPoint 1 2) =
  (R <- pointMult ec7 5 (mkPoint 1 2) ;; EC.opposite ec7 R).
Proof.
  apply (pointMult_negative ec7 prime_7 ltac:(reflexivity) no_order_two_ec7
           ltac:(reflexivity) 5 (mkPoint 1 2)); reflexivity.
Defined.
(** ** [DblScalarMult] with one scalar zero *)

Lemma _pointMultJacobian_zero (ec : EC) (J : _JacPoint) :
  _pointMultJacobian ec (0 mod ec_n ec) J = _JacPoint_default.
Proof.
  rewrite Zmod_0_l. unfold _pointMultJacobian. destruct (jz J =? 0); reflexivity.
Qed.

Lemma requireOnCurve_infinity (ec : EC) (Q : Point) :
  py Q = 0 -> EC.requireOnCurve ec Q = Ok tt.
Proof.
  intros E. unfold EC.requireOnCurve, EC.isOnCurve, tuple_of.
  cbn [List.length Nat.eqb negb raise_if bind nth]. rewrite E. reflexivity.
Qed.

(** X16.  With u = 0, [DblScalarMult] is [pointMult(ec, v, P)] and Q is
    not looked at.  With v = 0 it is [pointMult(ec, u, Q)], and P is
    not looked at, unless Q is infinity: then P is validated although
    its scalar is zero. *)
Theorem DblScalarMult_one_scalar (ec : EC) (u v : Z) (Q P : Point) :
  u <> 0 -> v <> 0 ->
  DblScalarMult ec 0 Q v P = pointMult ec v P /\
  DblScalarMult ec u Q 0 P =
    ((if py Q =? 0 then EC.requireOnCurve ec P else Ok tt) ;;;
     pointMult ec u Q).
Proof.
  intros Hu Hv. apply Z.eqb_neq in Hu, Hv. split.
  - unfold DblScalarMult, pointMult. cbn [Z.eqb]. rewrite Hv. reflexivity.
  - unfold DblScalarMult, pointMult. rewrite Hu. cbn [Z.eqb]. cbv zeta.
    destruct (Z.eqb_spec (py Q) 0) as [E|E]; [|reflexivity].
    rewrite (requireOnCurve_infinity ec Q E). cbn [bind].
    rewrite _pointMultJacobian_zero.
    unfold _jac_from_aff. rewrite E. cbn [Z.eqb].
    unfold _pointMultJacobian. cbn [jz _JacPoint_default Z.eqb].
    reflexivity.
Qed.

Lemma DblScalarMult_one_scalar_witness :
  DblScalarMult ec11 0 (mkPoint 7 0) 2 (mkPoint 4 4) =
    pointMult ec11 2 (mkPoint 4 4) /\
  DblScalarMult ec11 3 (mkPoint 7 0) 0 (mkPoint 4 4) =
    ((if py (mkPoint 7 0) =? 0 then EC.requireOnCurve ec11 (mkPoint 4 4)
      else Ok tt) ;;;
     pointMult ec11 3 (mkPoint 7 0)).
Proof.
  apply (DblScalarMult_one_scalar ec11 3 2 (mkPoint 7 0) (mkPoint 4 4));
    discriminate.
Defined.

(** ** Jacobian coordinates *)

Section Representatives.
Variable ec : EC.
Hypothesis prime_p : Z.prime (_p ec).

Add Field zmod_field_r :
  (Zmod.field_theory (_p ec) prime_p)
  (morphism (of_Z_morph (_p ec)), constants [zmod_cst]).

(** X17.  [_affine_from_jac] undoes [_jac_from_aff], up to the
    reduction of the coordinates modulo p, and more generally takes
    every Jacobian representative (x z^2, y z^3, z), p not dividing z,
    back to (x mod p, y mod p). *)
Theorem _affine_from_jac_representative (Q : Point) (z : Z) :
  z mod _p ec <> 0 ->
  EC._affine_from_jac ec (_jac_from_aff Q) =
    Ok (if py Q =? 0 then Point_default
        else mkPoint (px Q mod _p ec) (py Q mod _p ec)) /\
  EC._affine_from_jac ec (mkJac (px Q * (z * z)) (py Q * (z * z * z)) z) =
    Ok (mkPoint (px Q mod _p ec) (py Q mod _p ec)).
Proof.
  intros Hz. pose proof (Z.prime_ge_2 _ prime_p) as Hp.
  assert (R : forall w, w mod _p ec <> 0 ->
    EC._affine_from_jac ec (mkJac (px Q * (w * w)) (py Q * (w * w * w)) w) =
    Ok (mkPoint (px Q mod _p ec) (py Q mod _p ec))).
  { intros w Hw.
    assert (W0 : w <> 0) by (intros ->; apply Hw, Zmod_0_l).
    pose proof (proj1 (of_Z_nonzero _ _) Hw) as Fw.
    assert (Fw2 : Zmod.of_Z (_p ec) (w * w) <> Zmod.zero).
    { push_of_Z. intros E. apply Zmod.mul_0_iff_prime in E; [|exact prime_p].
      destruct E; contradiction. }
    assert (Fw3 : Zmod.of_Z (_p ec) (w * w * w) <> Zmod.zero).
    { rewrite Zmod.of_Z_mul. intros E.
      apply Zmod.mul_0_iff_prime in E; [|exact prime_p].
      destruct E; contradiction. }
    unfold EC._affine_from_jac. cbn [jx jy jz].
    apply Z.eqb_neq in W0. rewrite W0.
    rewrite !mod_inv_Ok by (try exact prime_p; apply of_Z_nonzero; assumption).
    cbn [bind]. do 2 f_equal; congr; rewrite of_Z_invmod; push_of_Z;
      field; exact Fw. }
  split; [|apply R, Hz].
  unfold _jac_from_aff. destruct (py Q =? 0); [reflexivity|].
  rewrite <- (R 1) by (rewrite Z.mod_1_l; lia).
  do 2 f_equal; ring.
Qed.

End Representatives.

Lemma _affine_from_jac_representative_witness :
  EC._affine_from_jac ec11 (_jac_from_aff (mkPoint 16 4)) =
    Ok (if py (mkPoint 16 4) =? 0 then Point_default
        else mkPoint (px (mkPoint 16 4) mod _p ec11)
               (py (mkPoint 16 4) mod _p ec11)) /\
  EC._affine_from_jac ec11
    (mkJac (px (mkPoint 16 4) * (3 * 3)) (py (mkPoint 16 4) * (3 * 3 * 3)) 3) =
    Ok (mkPoint (px (mkPoint 16 4) mod _p ec11) (py (mkPoint 16 4) mod _p ec11)).
Proof.
  apply (_affine_from_jac_representative ec11 prime_11 (mkPoint 16 4) 3).
  discriminate.
Defined.

(** ** What the constructor guarantees *)

Lemma fermat_test_positive (p : Z) : fermat_test p = true -> 2 <= p.
Proof.
  unfold fermat_test, pow_mod. intros E. apply Z.eqb_eq in E.
  destruct (Z.lt_ge_cases p 2) as [L|L]; [exfalso|exact L].
  destruct (Z.eq_dec p 1) as [->|N1]; [discriminate E|].
  rewrite Z.pow_neg_r in E by lia. rewrite Zmod_0_l in E. discriminate.
Qed.

Lemma bit_length_bytes (p : Z) :
  0 < p ->
  256 ^ ((bit_length p + 7) / 8 - 1) <= p < 256 ^ ((bit_length p + 7) / 8).
Proof.
  intros Hp. unfold bit_length. destruct (Z.eqb_spec p 0); [lia|].
  rewrite Z.abs_eq by lia.
  pose proof (Z.log2_spec p Hp) as [Lo Hi]. pose proof (Z.log2_nonneg p) as L0.
  set (L := Z.log2 p) in *.
  pose proof (Z.div_mod (L + 1 + 7) 8 ltac:(lia)) as D.
  pose proof (Z.mod_pos_bound (L + 1 + 7) 8 ltac:(lia)) as M.
  set (B := (L + 1 + 7) / 8) in *.
  change 256 with (2 ^ 8). rewrite <- !Z.pow_mul_r by lia.
  split.
  - apply Z.le_trans with (2 ^ L); [|exact Lo]. apply Z.pow_le_mono_r; lia.
  - apply Z.lt_le_trans with (2 ^ Z.succ L); [exact Hi|].
    apply Z.pow_le_mono_r; lia.
Qed.

(** X18.  A curve the constructor returns has an odd p >= 3, a and b in
    [0, p), a discriminant that is not zero modulo p, 2 <= n <> p, and
    [bytesize] is the number of bytes of p:
    256^(bytesize - 1) <= p < 256^bytesize. *)
Theorem constructed_invariants {FL : PyFloat} (p a b : Z) (G : list Z)
  (n h t : Z) (all_checks : bool) (ec : EC) :
  EC__init__ p a b G n h t all_checks = Ok ec ->
  3 <= _p ec /\ _p ec mod 2 = 1 /\
  0 <= _a ec < _p ec /\ 0 <= _b ec < _p ec /\
  (4 * _a ec * _a ec * _a ec + 27 * _b ec * _b ec) mod _p ec <> 0 /\
  2 <= ec_n ec /\ ec_n ec <> _p ec /\
  256 ^ (bytesize ec - 1) <= _p ec < 256 ^ bytesize ec.
Proof.
  intros built.
  pose proof (built_remaining p a b G n h t all_checks ec built) as R.
  rewrite (built_attributes p a b G n h t all_checks ec built).
  cbn [EC_attributes _p _a _b ec_n bytesize].
  unfold remaining_checks in R. cbv zeta in R.
  repeat (apply andb_true_iff in R; destruct R as [R ?]).
  rename R into Odd. apply negb_true_iff, Z.eqb_neq in Odd.
  match goal with
  | H : fermat_test p = true |- _ =>
      apply fermat_test_positive in H; rename H into Fermat
  end.
  pose proof (Z.mod_pos_bound p 2 ltac:(lia)) as M2.
  assert (P3 : 3 <= p).
  { destruct (Z.eq_dec p 2) as [->|]; [exfalso; apply Odd; reflexivity | lia]. }
  unfold check_a_b_in_range, check_discriminant, check_n_prime,
    check_n_not_p in *.
  repeat match goal with
         | H : _ && _ = true |- _ => apply andb_true_iff in H; destruct H
         | H : negb _ = true |- _ => apply negb_true_iff in H
         | H : (_ <=? _) = true |- _ => apply Z.leb_le in H
         | H : (_ <? _) = true |- _ => apply Z.ltb_lt in H
         | H : (_ =? _) = false |- _ => apply Z.eqb_neq in H
         end.
  repeat split; try lia; try assumption.
  - apply bit_length_bytes; lia.
  - apply bit_length_bytes; lia.
Qed.

Lemma constructed_invariants_witness :
  3 <= _p ec7 /\ _p ec7 mod 2 = 1 /\
  0 <= _a ec7 < _p ec7 /\ 0 <= _b ec7 < _p ec7 /\
  (4 * _a ec7 * _a ec7 * _a ec7 + 27 * _b ec7 * _b ec7) mod _p ec7 <> 0 /\
  2 <= ec_n ec7 /\ ec_n ec7 <> _p ec7 /\
  256 ^ (bytesize ec7 - 1) <= _p ec7 < 256 ^ bytesize ec7.
Proof.
  apply (constructed_invariants (FL:=exact_float) 7 0 3 [1; 2] 13 1 0 false ec7).
  reflexivity.
Defined.
(** ** [y] and the tie-breakers *)

Section Ordinate.
Context {TS : TonelliShanks}.
Variable ec : EC.

Lemma mod_sqrt_sound (a p r : Z) :
  0 < p -> mod_sqrt a p = Ok r -> 0 <= r < p /\ (r * r) mod p = a mod p.
Proof.
  intros Hp. unfold mod_sqrt. destruct (p mod 4 =? 3).
  - cbv zeta. destruct (_ =? _) eqn:E; [|discriminate].
    apply Z.eqb_eq in E. intros [= <-]. split; [|exact E].
    unfold pow_mod. apply Z.mod_pos_bound. exact Hp.
  - apply tonelli_shanks_sound.
Qed.

Lemma mod_sqrt_raises (a p : Z) (e : exn) :
  mod_sqrt a p = Raise e -> e = (ValueError, NoSquareRoot).
Proof.
  unfold mod_sqrt. destruct (p mod 4 =? 3).
  - cbv zeta. destruct (_ =? _); [discriminate|]. intros [= <-]. reflexivity.
  - apply tonelli_shanks_raises.
Qed.

Lemma y_value (x r : Z) :
  0 < _p ec -> EC.y ec x = Ok r ->
  0 <= x < _p ec /\ 0 <= r < _p ec /\ (r * r) mod _p ec = EC._y2 ec x.
Proof.
  intros Hp E. unfold EC.y in E. apply bind_Ok in E as [u [R E]].
  apply raise_if_Ok, negb_false_iff, andb_true_iff in R as [X0 X1].
  apply Z.leb_le in X0. apply Z.ltb_lt in X1. cbv zeta in E.
  apply (mod_sqrt_sound _ _ _ Hp) in E as [Hr E].
  repeat split; try lia. rewrite E. unfold EC._y2. apply Z.mod_mod. lia.
Qed.

Lemma mod_sqrt_zero (p : Z) :
  Z.prime p -> exists r, mod_sqrt 0 p = Ok r.
Proof.
  intros Hp. pose proof (Z.prime_ge_2 _ Hp) as H2. unfold mod_sqrt.
  destruct (Z.eqb_spec (p mod 4) 3) as [H34|H34].
  - cbv zeta. unfold pow_mod.
    pose proof (Z.div_mod p 4 ltac:(lia)) as D. rewrite H34 in D.
    assert (0 <= p / 4) by (apply Z.div_pos; lia).
    replace ((p + 1) / 4) with (p / 4 + 1)
      by (replace (p + 1) with ((p / 4 + 1) * 4) by lia;
          symmetry; apply Z.div_mul; lia).
    rewrite Z.pow_0_l by lia. rewrite Zmod_0_l. cbn [Z.mul].
    rewrite Zmod_0_l, Z.eqb_refl. eauto.
  - apply (tonelli_shanks_complete 0 p 0 Hp). reflexivity.
Qed.

Lemma y_cases (x : Z) :
  Z.prime (_p ec) ->
  match EC.y ec x with
  | Ok r =>
      0 <= x < _p ec /\ 0 <= r < _p ec /\
      EC.isOnCurve ec (tuple_of (mkPoint x r)) = Ok true /\
      (r = 0 <-> EC._y2 ec x = 0)
  | Raise e =>
      fst e = ValueError /\
      (0 <= x < _p ec ->
       EC._y2 ec x <> 0 /\
       forall y0, y0 <> 0 ->
       EC.isOnCurve ec (tuple_of (mkPoint x y0)) <> Ok true)
  end.
Proof.
  intros Hp. pose proof (Z.prime_ge_2 _ Hp) as H2.
  destruct (EC.y ec x) as [r|e] eqn:E.
  - destruct (y_value x r ltac:(lia) E) as [Hx [Hr R]].
    split; [exact Hx|]. split; [exact Hr|]. split.
    + destruct (Z.eq_dec r 0) as [->|N]; [reflexivity|].
      apply isOnCurve_finite; [lia | symmetry; exact R].
    + rewrite <- R. split; [intros ->; apply Z.mod_0_l; lia|].
      intros Z0. apply Z.mod_divide in Z0; [|lia].
      apply Z.divide_prime_mul in Z0; [|exact Hp].
      assert (D : (_p ec | r)) by (destruct Z0; assumption).
      destruct D as [k Hk]. assert (k = 0) by nia. subst k. lia.
  - unfold EC.y in E.
    destruct ((0 <=? x) && (x <? _p ec)) eqn:B; cbn [negb raise_if bind] in E.
    + cbv zeta in E. split.
      * apply mod_sqrt_raises in E. rewrite E. reflexivity.
      * intros _. split.
        -- intros Z0. rewrite Z0 in E.
           destruct (mod_sqrt_zero (_p ec) Hp) as [r Er].
           rewrite Er in E. discriminate.
        -- intros y0 N On.
           destruct (isOnCurve_true_finite ec (mkPoint x y0) On N) as [Hy Eq].
           cbn [px py] in *. rewrite Eq in E.
           destruct (mod_sqrt_square (_p ec) y0 Hp Hy) as [r [Er _]].
           rewrite Er in E. discriminate.
    + injection E as <-. split; [reflexivity|]. intros Hx. exfalso.
      apply andb_false_iff in B as [B|B];
        [apply Z.leb_gt in B | apply Z.ltb_ge in B]; lia.
Qed.

(** X19.  On a curve over a prime field, what [y(x)] returns is an r
    in [0, p) for which [isOnCurve] accepts (x, r), and r = 0 exactly
    when x is a root of x^3 + a x + b.  [y(x)] raises, and then always
    [ValueError], exactly when x is not in [0, p), or x^3 + a x + b is
    not zero modulo p and no pair (x, y0) with y0 <> 0 is on the
    curve. *)
Theorem y_on_curve (x : Z) :
  Z.prime (_p ec) ->
  (forall r, EC.y ec x = Ok r ->
     0 <= x < _p ec /\ 0 <= r < _p ec /\
     EC.isOnCurve ec (tuple_of (mkPoint x r)) = Ok true /\
     (r = 0 <-> EC._y2 ec x = 0)) /\
  (forall e, EC.y ec x = Raise e -> fst e = ValueError) /\
  ((exists e, EC.y ec x = Raise e) <->
   ~ 0 <= x < _p ec \/
   (EC._y2 ec x <> 0 /\
    forall y0, y0 <> 0 ->
    EC.isOnCurve ec (tuple_of (mkPoint x y0)) <> Ok true)).
Proof.
  intros Hp. pose proof (y_cases x Hp) as C.
  destruct (EC.y ec x) as [r|e].
  - destruct C as [Hx [Hr [On Z0]]].
    split; [intros r' [= <-]; repeat split; solve [assumption | apply Hx
                                                   | apply Hr | apply Z0]|].
    split; [discriminate|]. split.
    + intros [e E]. discriminate E.
    + intros [Out|[N2 None]]; [contradiction|]. exfalso.
      apply (None r); [|exact On]. intros R0. apply N2, Z0, R0.
  - destruct C as [V In]. split; [discriminate|].
    split; [intros e' [= <-]; exact V|]. split.
    + intros _.
      destruct (Z_le_dec 0 x) as [X0|X0]; [|left; lia].
      destruct (Z_lt_dec x (_p ec)) as [X1|X1]; [|left; lia].
      right. apply In. lia.
    + intros _. exists e. reflexivity.
Qed.

Lemma tie_break_root (x r root : Z) :
  0 < _p ec -> EC.y ec x = Ok root -> r = root \/ r = _p ec - root ->
  0 <= r <= _p ec /\ (r * r) mod _p ec = EC._y2 ec x.
Proof.
  intros Hp E [->| ->]; destruct (y_value x root Hp E) as [_ [Hr R]].
  - split; [lia | exact R].
  - split; [lia|]. rewrite <- R.
    replace ((_p ec - root) * (_p ec - root))
      with (root * root + (_p ec - 2 * root) * _p ec) by ring.
    apply Z.mod_add. lia.
Qed.

(** X20.  On a curve over an odd p, what [yOdd(x, f)] returns is a
    square root of x^3 + a x + b modulo p in [0, p] of the requested
    parity: r mod 2 = f. *)
Theorem yOdd_parity (x f r : Z) :
  0 < _p ec -> _p ec mod 2 = 1 ->
  EC.yOdd ec x f = Ok r ->
  r mod 2 = f /\ 0 <= r <= _p ec /\ (r * r) mod _p ec = EC._y2 ec x.
Proof.
  intros Hp Hodd E. unfold EC.yOdd in E.
  apply bind_Ok in E as [u [F E]]. apply bind_Ok in E as [root [Y E]].
  apply raise_if_Ok in F. unfold EC.not_in_0_1 in F.
  apply negb_false_iff, orb_true_iff in F.
  apply Ok_inj in E.
  pose proof (Z.mod_pos_bound root 2 ltac:(lia)) as Hb.
  destruct (Z.eqb_spec (root mod 2) f) as [C|C]; subst r.
  - split; [exact C|]. apply (tie_break_root x _ root); auto.
  - split; [|apply (tie_break_root x _ root); auto].
    rewrite Zminus_mod, Hodd.
    assert (root mod 2 = 0 \/ root mod 2 = 1) as [Z0|Z1] by lia.
    + rewrite Z0. destruct F as [F|F]; apply Z.eqb_eq in F; subst f;
        [congruence | reflexivity].
    + rewrite Z1. destruct F as [F|F]; apply Z.eqb_eq in F; subst f;
        [reflexivity | congruence].
Qed.

(** X21.  On a curve over an odd p, what [yHigh(x, f)] returns is a
    square root of x^3 + a x + b modulo p in [0, p] of the requested
    half: p // 2 < r exactly when f = 1. *)
Theorem yHigh_half (x f r : Z) :
  0 < _p ec -> _p ec mod 2 = 1 ->
  EC.yHigh ec x f = Ok r ->
  Z.b2z (_p ec / 2 <? r) = f /\ 0 <= r <= _p ec /\
  (r * r) mod _p ec = EC._y2 ec x.
Proof.
  intros Hp Hodd E. unfold EC.yHigh in E.
  apply bind_Ok in E as [u [F E]]. apply bind_Ok in E as [root [Y E]].
  apply raise_if_Ok in F. unfold EC.not_in_0_1 in F.
  apply negb_false_iff, orb_true_iff in F.
  apply Ok_inj in E.
  pose proof (Z.div_mod (_p ec) 2 ltac:(lia)) as D. rewrite Hodd in D.
  destruct (y_value x root Hp Y) as [_ [Hr _]].
  destruct (Z.eqb_spec (Z.b2z (_p ec / 2 <? root)) f) as [C|C]; subst r.
  - split; [exact C|]. apply (tie_break_root x _ root); auto.
  - split; [|apply (tie_break_root x _ root); auto].
    destruct (Z.ltb_spec (_p ec / 2) root) as [L|L];
      destruct (Z.ltb_spec (_p ec / 2) (_p ec - root)) as [L'|L'];
      cbn [Z.b2z] in *; try lia;
      destruct F as [F|F]; apply Z.eqb_eq in F; subst f; congruence.
Qed.

(** X22.  For an on-curve point with x in [0, p) and y <> 0 on a curve
    over a prime field, [yHigh] gives y back from x and the half y lies
    in. *)
Theorem yHigh_round_trip (P : Point) :
  Z.prime (_p ec) ->
  EC.isOnCurve ec (tuple_of P) = Ok true ->
  0 <= px P < _p ec -> py P <> 0 ->
  EC.yHigh ec (px P) (Z.b2z (_p ec / 2 <? py P)) = Ok (py P).
Proof.
  intros Hp On Hx Hy.
  pose proof (Z.prime_ge_2 _ Hp) as H2.
  destruct (isOnCurve_true_finite ec P On Hy) as [Hr E].
  unfold EC.yHigh, EC.not_in_0_1, EC.y.
  replace ((Z.b2z (_p ec / 2 <? py P) =? 0) || (Z.b2z (_p ec / 2 <? py P) =? 1))
    with true by (destruct (_p ec / 2 <? py P); reflexivity).
  replace ((0 <=? px P) && (px P <? _p ec)) with true
    by (destruct (Z.leb_spec 0 (px P)), (Z.ltb_spec (px P) (_p ec));
        simpl; lia).
  cbn [negb raise_if bind]. rewrite E.
  destruct (mod_sqrt_square (_p ec) (py P) Hp Hr) as [r [-> [Hrr R]]].
  cbn [bind]. f_equal.
  destruct (square_roots_prime _ _ _ Hp Hrr Hr R) as [->| ->].
  - rewrite Z.eqb_refl. reflexivity.
  - destruct (Z.eq_dec (_p ec) 2) as [E2|E2].
    + assert (py P = 1) by lia.
      replace (_p ec - py P) with (py P) by lia.
      rewrite Z.eqb_refl. reflexivity.
    + pose proof (odd_prime_mod_2 _ Hp E2) as Hodd.
      pose proof (Z.div_mod (_p ec) 2 ltac:(lia)) as D. rewrite Hodd in D.
      destruct (Z.ltb_spec (_p ec / 2) (py P)) as [L|L];
        destruct (Z.ltb_spec (_p ec / 2) (_p ec - py P)) as [L'|L'];
        cbn [Z.b2z Z.eqb]; try lia; ring.
Qed.

End Ordinate.

Lemma y_on_curve_witness :
  (forall r, EC.y (TS:=search_TonelliShanks) ec11 5 = Ok r ->
     0 <= 5 < _p ec11 /\ 0 <= r < _p ec11 /\
     EC.isOnCurve ec11 (tuple_of (mkPoint 5 r)) = Ok true /\
     (r = 0 <-> EC._y2 ec11 5 = 0)) /\
  (forall e, EC.y (TS:=search_TonelliShanks) ec11 5 = Raise e ->
     fst e = ValueError) /\
  ((exists e, EC.y (TS:=search_TonelliShanks) ec11 5 = Raise e) <->
   ~ 0 <= 5 < _p ec11 \/
   (EC._y2 ec11 5 <> 0 /\
    forall y0, y0 <> 0 ->
    EC.isOnCurve ec11 (tuple_of (mkPoint 5 y0)) <> Ok true)).
Proof. apply (y_on_curve (TS:=search_TonelliShanks) ec11 5 prime_11). Defined.

(** The three cases on y^2 = x^3 + 1 over [F_11]: a finite point
    above x = 5; the root x = 10 of the cubic, where [y] returns 0 and
    (10, 0) is read as infinity; and no point above x = 1. *)
Example y_three_cases :
  EC.y (TS:=search_TonelliShanks) ec11 5 = Ok 4 /\
  EC.y (TS:=search_TonelliShanks) ec11 10 = Ok 0 /\
  EC.y (TS:=search_TonelliShanks) ec11 1 = Raise (ValueError, NoSquareRoot) /\
  EC.y (TS:=search_TonelliShanks) ec11 11 = Raise (ValueError, XNotInRange).
Proof. vm_compute. repeat split. Qed.

Lemma yOdd_parity_witness :
  7 mod 2 = 1 /\ 0 <= 7 <= _p ec11 /\ (7 * 7) mod _p ec11 = EC._y2 ec11 5.
Proof.
  apply (yOdd_parity (TS:=search_TonelliShanks) ec11 5 1 7); reflexivity.
Defined.

Lemma yHigh_half_witness :
  Z.b2z (_p ec11 / 2 <? 7) = 1 /\ 0 <= 7 <= _p ec11 /\
  (7 * 7) mod _p ec11 = EC._y2 ec11 5.
Proof.
  apply (yHigh_half (TS:=search_TonelliShanks) ec11 5 1 7); reflexivity.
Defined.

Lemma yHigh_round_trip_witness :
  EC.yHigh (TS:=search_TonelliShanks) ec11 (px (mkPoint 5 7))
    (Z.b2z (_p ec11 / 2 <? py (mkPoint 5 7))) = Ok (py (mkPoint 5 7)).
Proof.
  apply (yHigh_round_trip (TS:=search_TonelliShanks) ec11 (mkPoint 5 7)).
  - exact prime_11.
  - reflexivity.
  - cbv [ec11 EC_attributes _p px]. lia.
  - discriminate.
Defined.
(** ** The affine law [_addAffine] *)

Section AffineLaw.
Variable ec : EC.
Hypothesis prime_p : Z.prime (_p ec).
Hypothesis odd_p : 2 < _p ec.
Hypothesis no_y0 : no_order_two ec.

(** X23.  On a curve over a prime p > 2 without a point of order two,
    [_addAffine] is a commutative and associative law on the points of
    the curve in canonical form ([Point()], or x in [0, p), y in (0, p)
    on the curve): it does not raise on them and returns one of them. *)
Theorem _addAffine_group_law (A B C : Point) :
  curve_point ec A -> curve_point ec B -> curve_point ec C ->
  (exists S, EC._addAffine ec A B = Ok S /\ curve_point ec S) /\
  EC._addAffine ec A B = EC._addAffine ec B A /\
  (X <- EC._addAffine ec A B ;; EC._addAffine ec X C) =
  (Y <- EC._addAffine ec B C ;; EC._addAffine ec A Y).
Proof.
  intros CA CB CC.
  destruct (_addAffine_total ec prime_p odd_p no_y0 A B CA CB) as [EAB CAB].
  destruct (_addAffine_total ec prime_p odd_p no_y0 B A CB CA) as [EBA _].
  destruct (_addAffine_total ec prime_p odd_p no_y0 B C CB CC) as [EBC CBC].
  split; [eauto|]. split.
  - rewrite EAB, EBA. f_equal.
    apply affine_sum_comm; assumption.
  - rewrite EAB, EBC. cbn [bind].
    rewrite (proj1 (_addAffine_total ec prime_p odd_p no_y0 _ C CAB CC)),
      (proj1 (_addAffine_total ec prime_p odd_p no_y0 A _ CA CBC)).
    f_equal. apply affine_sum_assoc; assumption.
Qed.

End AffineLaw.

Lemma _addAffine_group_law_witness :
  (exists S, EC._addAffine ec7 (mkPoint 1 2) (mkPoint 2 2) = Ok S /\
             curve_point ec7 S) /\
  EC._addAffine ec7 (mkPoint 1 2) (mkPoint 2 2) =
    EC._addAffine ec7 (mkPoint 2 2) (mkPoint 1 2) /\
  (X <- EC._addAffine ec7 (mkPoint 1 2) (mkPoint 2 2) ;;
   EC._addAffine ec7 X (mkPoint 1 5)) =
  (Y <- EC._addAffine ec7 (mkPoint 2 2) (mkPoint 1 5) ;;
   EC._addAffine ec7 (mkPoint 1 2) Y).
Proof.
  apply (_addAffine_group_law ec7 prime_7 ltac:(reflexivity) no_order_two_ec7
           (mkPoint 1 2) (mkPoint 2 2) (mkPoint 1 5));
    apply is_curve_point_iff; reflexivity.
Defined.
